(** * Verification of the FSM graph core (fsmgraph.h) and of the input
      position bookkeeping (input.c).

    The development embeds, function by function, the parts of
    [src/fsmgraph.h] and [src/input.c] that the specification talks about:
    the fault kinds, the [Action] reference counters, [CondSpace::fullSize],
    the [TransAp] discriminator, [FsmAp::addInTrans], the two co-routine
    iterators [ValPairIter] and [RangePairIter], and the pair
    [update_position_seq] / [undo_position_seq]. *)

From Stdlib Require Import ZArith List Lia Bool Sorted.
From stdpp Require Import gmap.
Import ListNotations.

Local Open Scope Z_scope.

(* ===================================================================== *)
(** * Machine integers *)
(* ===================================================================== *)

(** C++ [int] is 32 bits and [long] is 64 bits on the hosts the tool is
    built for.  Values are kept as [Z]; the wrap-around of two's complement
    arithmetic is written out. *)
Module MachInt.

Definition wrap (w : Z) (z : Z) : Z :=
  (z + 2 ^ (w - 1)) mod 2 ^ w - 2 ^ (w - 1).

Definition wrap_int (z : Z) : Z := wrap 32 z.
Definition wrap_long (z : Z) : Z := wrap 64 z.

Definition INT_MIN : Z := - 2 ^ 31.
Definition INT_MAX : Z := 2 ^ 31 - 1.
Definition LONG_MIN : Z := - 2 ^ 63.
Definition LONG_MAX : Z := 2 ^ 63 - 1.

Definition in_int (z : Z) : Prop := INT_MIN <= z <= INT_MAX.
Definition in_long (z : Z) : Prop := LONG_MIN <= z <= LONG_MAX.

(** [a << n] on [int] operands: the product is truncated to 32 bits.  (For
    a shift count of 32 or more the language leaves the result undefined;
    no statement below depends on the value given here for such counts.) *)
Definition shl_int (a n : Z) : Z := wrap_int (Z.shiftl a n).

End MachInt.

(* ===================================================================== *)
(** * Fault kinds (fsmgraph.h, lines 64-93) *)
(* ===================================================================== *)

Module Faults.

(** The five exception structs.  [TooManyStates], [RepetitionError] and
    [TransDensity] are declared with an empty body; [PriorInteraction] has
    the single member [int id] and [CondCostTooHigh] the single member
    [long costId], each set by the constructor from its argument. *)
Inductive Fault : Type :=
  | TooManyStates
  | PriorInteraction (id : Z)
  | RepetitionError
  | TransDensity
  | CondCostTooHigh (costId : Z).

Inductive FaultKind : Type :=
  | KTooManyStates | KPriorInteraction | KRepetitionError
  | KTransDensity | KCondCostTooHigh.

Definition kindOf (f : Fault) : FaultKind :=
  match f with
  | TooManyStates => KTooManyStates
  | PriorInteraction _ => KPriorInteraction
  | RepetitionError => KRepetitionError
  | TransDensity => KTransDensity
  | CondCostTooHigh _ => KCondCostTooHigh
  end.

(** The data members of an exception value, in declaration order. *)
Definition members (f : Fault) : list Z :=
  match f with
  | TooManyStates => []
  | PriorInteraction id => [id]
  | RepetitionError => []
  | TransDensity => []
  | CondCostTooHigh costId => [costId]
  end.

(** Raising a fault of kind [k] for the offending datum [d]: the only
    constructors the structs offer are the default one for the three empty
    structs and the one-argument one for the other two. *)
Definition raise (k : FaultKind) (d : Z) : Fault :=
  match k with
  | KTooManyStates => TooManyStates
  | KPriorInteraction => PriorInteraction d
  | KRepetitionError => RepetitionError
  | KTransDensity => TransDensity
  | KCondCostTooHigh => CondCostTooHigh d
  end.

(** An exception value names its datum when the datum can be read back
    from the value. *)
Definition namesDatum (k : FaultKind) : Prop :=
  forall d : Z, In d (members (raise k d)).

Definition carriesDatum (k : FaultKind) : bool :=
  match k with
  | KPriorInteraction | KCondCostTooHigh => true
  | _ => false
  end.

End Faults.

(* ===================================================================== *)
(** * Actions (fsmgraph.h, lines 125-193) *)
(* ===================================================================== *)

Module ActionM.
Import MachInt.

(** The counters of [struct Action] that [numRefs] reads or that the
    specification lists beside them, and the fields that identify the
    action.  All six counters are [int] and start at 0. *)
Record Action : Type := mkAction {
  actionId : Z;
  numTransRefs : Z;
  numToStateRefs : Z;
  numFromStateRefs : Z;
  numEofRefs : Z;
  numCondRefs : Z;
  numNfaRefs : Z;
  condId : Z
}.

(** [Action::numRefs] (lines 173-178): [int] additions, left to right. *)
Definition numRefs (a : Action) : Z :=
  wrap_int (wrap_int (wrap_int (wrap_int
    (numTransRefs a + numToStateRefs a)
     + numFromStateRefs a) + numEofRefs a) + numNfaRefs a).

(** The sum the specification describes. *)
Definition sumOfSixCounters (a : Action) : Z :=
  numTransRefs a + numToStateRefs a + numFromStateRefs a
  + numEofRefs a + numCondRefs a + numNfaRefs a.

Definition sumOfFiveCounters (a : Action) : Z :=
  numTransRefs a + numToStateRefs a + numFromStateRefs a
  + numEofRefs a + numNfaRefs a.

(** An action referenced once, as a condition only. *)
Definition condOnlyAction : Action := mkAction 0 0 0 0 0 1 0 0.

End ActionM.

(* ===================================================================== *)
(** * Condition spaces (fsmgraph.h, lines 773-790) *)
(* ===================================================================== *)

Module CondSpaceM.
Import MachInt ActionM.

(** [CondSet] is a set of guard actions ordered by [condId]; it is kept as
    the list of its elements in that order. *)
Definition CondSet : Type := list Action.

Record CondSpace : Type := mkCondSpace {
  condSet : CondSet;
  condSpaceId : Z
}.

(** [CondSpace::fullSize] (lines 785-786): [return ( 1 << condSet.length() )].
    The literal [1] is an [int], so the shift is an [int] shift whose result
    is then widened to the [long] return type. *)
Definition fullSize (cs : CondSpace) : Z :=
  shl_int 1 (Z.of_nat (length (condSet cs))).

(** A condition set of [n] guard actions with the cond ids 0, ..., n-1. *)
Definition guardsUpTo (n : nat) : CondSet :=
  map (fun i => mkAction 0 0 0 0 0 1 0 (Z.of_nat i)) (seq 0 n).

End CondSpaceM.

(* ===================================================================== *)
(** * Transitions (fsmgraph.h, lines 532-609) *)
(* ===================================================================== *)

(** Modelled from the spec: the key algebra ([Key], [KeyOps]), declared in
    common.h, outside fsmgraph.h.  A key is an integer of
    the host's character type, read under the signedness that [KeyOps]
    records; [lt] is the order of these integers and [increment] and
    [decrement] move by a distance of 1. *)
Module KeyOps.

Definition Key : Type := Z.

Definition lt (key1 key2 : Key) : bool := key1 <? key2.
Definition increment (key : Key) : Key := key + 1.
Definition decrement (key : Key) : Key := key - 1.

End KeyOps.

Module TransM.
Import CondSpaceM.

Definition Key : Type := KeyOps.Key.

(** [struct TransAp]: the key range and the pointer to the condition space.
    The null pointer is [None]. *)
Record TransAp : Type := mkTransAp {
  lowKey : Key;
  highKey : Key;
  condSpace : option CondSpace
}.

(** [TransAp::plain] (lines 551-552). *)
Definition plain (t : TransAp) : bool :=
  match condSpace t with
  | None => true
  | Some _ => false
  end.

(** [TransAp::tcap] (lines 605-606): [this] cast to [TransCondAp*] when
    [condSpace != 0], the null pointer otherwise. *)
Definition tcap (t : TransAp) : option TransAp :=
  match condSpace t with
  | Some _ => Some t
  | None => None
  end.

(** [TransAp::tdap] (lines 608-609): [this] cast to [TransDataAp*] when
    [condSpace == 0], the null pointer otherwise. *)
Definition tdap (t : TransAp) : option TransAp :=
  match condSpace t with
  | None => Some t
  | Some _ => None
  end.

End TransM.

(* ===================================================================== *)
(** * FsmAp::addInTrans (fsmgraph.h, lines 1997-2012) *)
(* ===================================================================== *)

Module AddInTrans.

Section Tables.

(** The three table types of [struct TransData] and their merge operations
    are declared in fsmgraph.h, but the bodies of [setActions] and
    [setPriors] are defined in another translation unit: they are parameters.
    The first argument is the table the method is called on, the second is
    [other]; the result is the new content of the table. *)
Variables ActionTable PriorTable LmActionTable : Type.
Variable setActions : ActionTable -> ActionTable -> ActionTable.
Variable setPriors : PriorTable -> PriorTable -> PriorTable.
Variable lmSetActions : LmActionTable -> LmActionTable -> LmActionTable.

(** Addresses of states and transitions; 0 is the null pointer. *)
Definition addr : Type := N.

(** [struct TransData] (lines 467-491), the base of both [TransDataAp] and
    [CondAp], the two classes [addInTrans] is instantiated at. *)
Record TransData : Type := mkTransData {
  fromState : addr;
  toState : addr;
  actionTable : ActionTable;
  priorTable : PriorTable;
  lmActionTable : LmActionTable
}.

(** The store of transitions, by address. *)
Local Abbreviation store := (gmap addr TransData).

Definition with_lmActionTable (v : LmActionTable) (t : TransData) : TransData :=
  mkTransData (fromState t) (toState t) (actionTable t) (priorTable t) v.
Definition with_actionTable (v : ActionTable) (t : TransData) : TransData :=
  mkTransData (fromState t) (toState t) v (priorTable t) (lmActionTable t).
Definition with_priorTable (v : PriorTable) (t : TransData) : TransData :=
  mkTransData (fromState t) (toState t) (actionTable t) v (lmActionTable t).

(** The copy constructors [ActionTable(const ActionTable &)] and
    [LmActionTable(const LmActionTable &)] build a table with the same
    content. *)
Definition copyActionTable (a : ActionTable) : ActionTable := a.
Definition copyLmActionTable (a : LmActionTable) : LmActionTable := a.

(** [addInTrans( destTrans, srcTrans )].  Each statement reads the source
    through its pointer and writes the destination through its pointer, so
    the statements are sequenced on the store; dereferencing an address that
    holds no transition gives [None]. *)
Definition addInTrans (h : store) (destTrans srcTrans : addr) : option store :=
  if decide (srcTrans = destTrans) then
    (* destTrans->lmActionTable.setActions( LmActionTable(srcTrans->lmActionTable) ); *)
    s ← h !! srcTrans;
    d ← h !! destTrans;
    let h1 := <[destTrans :=
      with_lmActionTable
        (lmSetActions (lmActionTable d) (copyLmActionTable (lmActionTable s))) d]> h in
    (* destTrans->actionTable.setActions( ActionTable(srcTrans->actionTable) ); *)
    s ← h1 !! srcTrans;
    d ← h1 !! destTrans;
    Some (<[destTrans :=
      with_actionTable
        (setActions (actionTable d) (copyActionTable (actionTable s))) d]> h1)
  else
    (* destTrans->lmActionTable.setActions( srcTrans->lmActionTable ); *)
    s ← h !! srcTrans;
    d ← h !! destTrans;
    let h1 := <[destTrans :=
      with_lmActionTable (lmSetActions (lmActionTable d) (lmActionTable s)) d]> h in
    (* destTrans->actionTable.setActions( srcTrans->actionTable ); *)
    s ← h1 !! srcTrans;
    d ← h1 !! destTrans;
    let h2 := <[destTrans :=
      with_actionTable (setActions (actionTable d) (actionTable s)) d]> h1 in
    (* destTrans->priorTable.setPriors( srcTrans->priorTable ); *)
    s ← h2 !! srcTrans;
    d ← h2 !! destTrans;
    Some (<[destTrans :=
      with_priorTable (setPriors (priorTable d) (priorTable s)) d]> h2).

End Tables.

Arguments fromState {_ _ _} _.
Arguments toState {_ _ _} _.
Arguments actionTable {_ _ _} _.
Arguments priorTable {_ _ _} _.
Arguments lmActionTable {_ _ _} _.
Arguments mkTransData {_ _ _} _ _ _ _ _.
Arguments with_lmActionTable {_ _ _} _ _.
Arguments with_actionTable {_ _ _} _ _.
Arguments with_priorTable {_ _ _} _ _.
Arguments addInTrans {_ _ _} _ _ _ _ _ _.

(** Modelled from the spec: [ActionTable::setActions], whose body is
    defined in another translation unit.  A table is a list of (ordering,
    action) pairs sorted by ordering; [setAction] inserts unless the ordering is
    already present, and [setActions] is the union by ordering. *)
Fixpoint setAction (ordering : Z) (action : Z) (t : list (Z * Z)) : list (Z * Z) :=
  match t with
  | [] => [(ordering, action)]
  | (o, a) :: r =>
      if ordering <? o then (ordering, action) :: (o, a) :: r
      else if ordering =? o then (o, a) :: r
      else (o, a) :: setAction ordering action r
  end.

Definition setActionsList (t other : list (Z * Z)) : list (Z * Z) :=
  fold_left (fun acc el => setAction (fst el) (snd el) acc) other t.

(** Modelled from the spec: [PriorTable::setPrior] and [setPriors], whose
    bodies are defined in another translation unit.  An element carries its
    ordering and the key and priority of its descriptor; the table is sorted
    by descriptor key.  [setPrior] inserts and, when an element of the same
    key is present, keeps the one of higher priority, the later ordering
    breaking ties; [setPriors] applies this over a whole table. *)
Record PriorEl : Type := mkPriorEl {
  ordering : Z;
  desc_key : Z;
  desc_priority : Z
}.

Fixpoint setPrior (el : PriorEl) (t : list PriorEl) : list PriorEl :=
  match t with
  | [] => [el]
  | e :: r =>
      if desc_key el <? desc_key e then el :: e :: r
      else if desc_key el =? desc_key e then
        (if desc_priority e <? desc_priority el then el
         else if desc_priority el <? desc_priority e then e
         else if ordering e <=? ordering el then el else e) :: r
      else e :: setPrior el r
  end.

Definition setPriorsList (t other : list PriorEl) : list PriorEl :=
  fold_left (fun acc el => setPrior el acc) other t.

(** A store of two transitions for the examples: the one at address 1
    carries two actions and a priority, the one at address 2 one action and
    a priority of the same key. *)
Definition exampleTrans1 : TransData (list (Z * Z)) (list PriorEl) (list (Z * Z)) :=
  mkTransData 10%N 11%N [(1, 100); (4, 101)] [mkPriorEl 2 0 5] [(3, 7)].

Definition exampleTrans2 : TransData (list (Z * Z)) (list PriorEl) (list (Z * Z)) :=
  mkTransData 10%N 12%N [(2, 102)] [mkPriorEl 6 0 9] [].

Definition exampleStore : gmap addr (TransData (list (Z * Z)) (list PriorEl) (list (Z * Z))) :=
  <[2%N := exampleTrans2]> (<[1%N := exampleTrans1]> ∅).

End AddInTrans.

(* ===================================================================== *)
(** * Item iterators (fsmgraph.h, lines 973-1039) *)
(* ===================================================================== *)

(** [PiList], [PiSingle] and [PiVector] are cursors into a sequence of
    items: [end()] tells whether the cursor is past the last item, [->]
    reads the item under the cursor and [next()] is the cursor one item
    further.  A cursor is kept as the list of the items from the cursor on
    (the rest of the linked list from the pointed node, the rest of the
    vector): [PiSingle] is a list of at most one item. *)
Module ItemIter.

Definition iter_end {Item : Type} (it : list Item) : bool :=
  match it with
  | [] => true
  | _ :: _ => false
  end.

Definition iter_clear {Item : Type} : list Item := [].

(** The items a range iterator walks have the members [lowKey] and
    [highKey]; those a value iterator walks have the member [key]. *)
Class RangeItem (Item : Type) : Type := {
  lowKeyOf : Item -> KeyOps.Key;
  highKeyOf : Item -> KeyOps.Key
}.

Class KeyItem (Item : Type) : Type := {
  keyOf : Item -> Z
}.

End ItemIter.

(* ===================================================================== *)
(** * RangePairIter (fsmgraph.h, lines 1192-1456) *)
(* ===================================================================== *)

Module RangePairIter.
Import ItemIter.

Inductive UserState : Type :=
  | RangeInS1 | RangeInS2
  | RangeOverlap
  | BreakS1 | BreakS2.

Inductive IterState : Type :=
  | Begin
  | ConsumeS1Range | ConsumeS2Range
  | OnlyInS1Range | OnlyInS2Range
  | S1SticksOut | S1SticksOutBreak
  | S2SticksOut | S2SticksOutBreak
  | S1DragsBehind | S1DragsBehindBreak
  | S2DragsBehind | S2DragsBehindBreak
  | ExactOverlap | End.

(** [struct NextTrans] (lines 1216-1247). *)
Record NextTrans (Item : Type) : Type := mkNextTrans {
  lowKey : KeyOps.Key;
  highKey : KeyOps.Key;
  trans : list Item;
  next : list Item
}.

Arguments mkNextTrans {Item} _ _ _ _.
Arguments lowKey {Item} _.
Arguments highKey {Item} _.
Arguments trans {Item} _.
Arguments next {Item} _.

Section NextTransOps.
Context {Item : Type} `{RangeItem Item}.

Definition with_lowKey (k : KeyOps.Key) (nt : NextTrans Item) : NextTrans Item :=
  mkNextTrans k (highKey nt) (trans nt) (next nt).
Definition with_highKey (k : KeyOps.Key) (nt : NextTrans Item) : NextTrans Item :=
  mkNextTrans (lowKey nt) k (trans nt) (next nt).
Definition with_trans (t : list Item) (nt : NextTrans Item) : NextTrans Item :=
  mkNextTrans (lowKey nt) (highKey nt) t (next nt).

(** The constructor [NextTrans()]: both keys 0, both cursors null. *)
Definition newNextTrans : NextTrans Item := mkNextTrans 0 0 [] [].

(** [load()] (lines 1228-1236). *)
Definition load (nt : NextTrans Item) : NextTrans Item :=
  match trans nt with
  | [] => mkNextTrans (lowKey nt) (highKey nt) (trans nt) iter_clear
  | t :: rest => mkNextTrans (lowKeyOf t) (highKeyOf t) (trans nt) rest
  end.

(** [set( t )] (lines 1238-1241). *)
Definition set (t : list Item) (nt : NextTrans Item) : NextTrans Item :=
  load (with_trans t nt).

(** [increment()] (lines 1243-1246). *)
Definition increment (nt : NextTrans Item) : NextTrans Item :=
  load (with_trans (next nt) nt).

End NextTransOps.

(** The fields of [struct RangePairIter] (lines 1255-1267); [ctx] only
    gives access to the key operations. *)
Record t (Item1 Item2 : Type) : Type := mkIter {
  list1 : list Item1;
  list2 : list Item2;
  itState : IterState;
  userState : UserState;
  s1Tel : NextTrans Item1;
  s2Tel : NextTrans Item2;
  bottomLow : KeyOps.Key;
  bottomHigh : KeyOps.Key;
  bottomTrans1 : list Item1;
  bottomTrans2 : list Item2
}.

Arguments mkIter {Item1 Item2} _ _ _ _ _ _ _ _ _ _.
Arguments list1 {Item1 Item2} _.
Arguments list2 {Item1 Item2} _.
Arguments itState {Item1 Item2} _.
Arguments userState {Item1 Item2} _.
Arguments s1Tel {Item1 Item2} _.
Arguments s2Tel {Item1 Item2} _.
Arguments bottomLow {Item1 Item2} _.
Arguments bottomHigh {Item1 Item2} _.
Arguments bottomTrans1 {Item1 Item2} _.
Arguments bottomTrans2 {Item1 Item2} _.

Section Iterator.
Context {Item1 Item2 : Type} `{RangeItem Item1} `{RangeItem Item2}.

Local Abbreviation iter := (t Item1 Item2).

Definition with_itState (v : IterState) (it : iter) : iter :=
  mkIter (list1 it) (list2 it) v (userState it) (s1Tel it) (s2Tel it)
    (bottomLow it) (bottomHigh it) (bottomTrans1 it) (bottomTrans2 it).
Definition with_userState (v : UserState) (it : iter) : iter :=
  mkIter (list1 it) (list2 it) (itState it) v (s1Tel it) (s2Tel it)
    (bottomLow it) (bottomHigh it) (bottomTrans1 it) (bottomTrans2 it).
Definition with_s1Tel (v : NextTrans Item1) (it : iter) : iter :=
  mkIter (list1 it) (list2 it) (itState it) (userState it) v (s2Tel it)
    (bottomLow it) (bottomHigh it) (bottomTrans1 it) (bottomTrans2 it).
Definition with_s2Tel (v : NextTrans Item2) (it : iter) : iter :=
  mkIter (list1 it) (list2 it) (itState it) (userState it) (s1Tel it) v
    (bottomLow it) (bottomHigh it) (bottomTrans1 it) (bottomTrans2 it).
Definition with_bottomLow (v : KeyOps.Key) (it : iter) : iter :=
  mkIter (list1 it) (list2 it) (itState it) (userState it) (s1Tel it) (s2Tel it)
    v (bottomHigh it) (bottomTrans1 it) (bottomTrans2 it).
Definition with_bottomHigh (v : KeyOps.Key) (it : iter) : iter :=
  mkIter (list1 it) (list2 it) (itState it) (userState it) (s1Tel it) (s2Tel it)
    (bottomLow it) v (bottomTrans1 it) (bottomTrans2 it).
Definition with_bottomTrans1 (v : list Item1) (it : iter) : iter :=
  mkIter (list1 it) (list2 it) (itState it) (userState it) (s1Tel it) (s2Tel it)
    (bottomLow it) (bottomHigh it) v (bottomTrans2 it).
Definition with_bottomTrans2 (v : list Item2) (it : iter) : iter :=
  mkIter (list1 it) (list2 it) (itState it) (userState it) (s1Tel it) (s2Tel it)
    (bottomLow it) (bottomHigh it) (bottomTrans1 it) v.

(** [CO_RETURN( label )] and [CO_RETURN2( label, uState )] (lines 960-971):
    record the label to resume from (and the user state) and return. *)
Definition CO_RETURN (label : IterState) (it : iter) : iter :=
  with_itState label it.
Definition CO_RETURN2 (label : IterState) (uState : UserState) (it : iter) : iter :=
  with_userState uState (with_itState label it).

(** The inner loop of lines 1321-1325, from its test on: the rest of
    state2's ranges, then the [break] to [CO_RETURN( End )]. *)
Definition drainS2 (it : iter) : iter :=
  if iter_end (trans (s2Tel it)) then CO_RETURN End it
  else CO_RETURN2 ConsumeS2Range RangeInS2 it.

(** The inner loop of lines 1331-1335, from its test on. *)
Definition drainS1 (it : iter) : iter :=
  if iter_end (trans (s1Tel it)) then CO_RETURN End it
  else CO_RETURN2 ConsumeS1Range RangeInS1 it.

(** The body of [while ( true )] (lines 1317-1452) from its top to the next
    return.  Every branch returns, so one pass through the body is run. *)
Definition scan (it : iter) : iter :=
  let s1 := s1Tel it in
  let s2 := s2Tel it in
  if iter_end (trans s1) then drainS2 it
  else if iter_end (trans s2) then drainS1 it
  else if KeyOps.lt (highKey s1) (lowKey s2) then
    CO_RETURN2 OnlyInS1Range RangeInS1 it
  else if KeyOps.lt (highKey s2) (lowKey s1) then
    CO_RETURN2 OnlyInS2Range RangeInS2 it
  else if KeyOps.lt (lowKey s1) (lowKey s2) then
    (* lines 1355-1363 *)
    CO_RETURN2 S1SticksOutBreak BreakS1
      (with_bottomTrans1 (trans s1)
        (with_s1Tel (with_highKey (KeyOps.decrement (lowKey s2)) s1)
          (with_bottomHigh (highKey s1)
            (with_bottomLow (lowKey s2) it))))
  else if KeyOps.lt (lowKey s2) (lowKey s1) then
    (* lines 1376-1384 *)
    CO_RETURN2 S2SticksOutBreak BreakS2
      (with_bottomTrans2 (trans s2)
        (with_s2Tel (with_highKey (KeyOps.decrement (lowKey s1)) s2)
          (with_bottomHigh (highKey s2)
            (with_bottomLow (lowKey s1) it))))
  else if KeyOps.lt (highKey s1) (highKey s2) then
    (* lines 1399-1407 *)
    CO_RETURN2 S2DragsBehindBreak BreakS2
      (with_bottomTrans2 (trans s2)
        (with_s2Tel (with_highKey (highKey s1) s2)
          (with_bottomHigh (highKey s2)
            (with_bottomLow (KeyOps.increment (highKey s1)) it))))
  else if KeyOps.lt (highKey s2) (highKey s1) then
    (* lines 1424-1432 *)
    CO_RETURN2 S1DragsBehindBreak BreakS1
      (with_bottomTrans1 (trans s1)
        (with_s1Tel (with_highKey (highKey s2) s1)
          (with_bottomHigh (highKey s1)
            (with_bottomLow (KeyOps.increment (highKey s2)) it))))
  else
    CO_RETURN2 ExactOverlap RangeOverlap it.

(** Lines 1369-1371 and 1438-1440: the saved bottom half becomes s1Tel. *)
Definition restoreS1 (it : iter) : iter :=
  with_s1Tel
    (with_trans (bottomTrans1 it)
      (with_highKey (bottomHigh it)
        (with_lowKey (bottomLow it) (s1Tel it)))) it.

(** Lines 1390-1392 and 1413-1415: the saved bottom half becomes s2Tel. *)
Definition restoreS2 (it : iter) : iter :=
  with_s2Tel
    (with_trans (bottomTrans2 it)
      (with_highKey (bottomHigh it)
        (with_lowKey (bottomLow it) (s2Tel it)))) it.

Definition incrementS1 (it : iter) : iter := with_s1Tel (increment (s1Tel it)) it.
Definition incrementS2 (it : iter) : iter := with_s2Tel (increment (s2Tel it)) it.

(** [findNext()] (lines 1289-1456): jump to the label recorded in [itState]
    and run to the next return. *)
Definition findNext (it : iter) : iter :=
  match itState it with
  | Begin =>
      scan (with_s2Tel (set (list2 it) (s2Tel it))
             (with_s1Tel (set (list1 it) (s1Tel it)) it))
  | ConsumeS2Range => drainS2 (incrementS2 it)
  | ConsumeS1Range => drainS1 (incrementS1 it)
  | OnlyInS1Range => scan (incrementS1 it)
  | OnlyInS2Range => scan (incrementS2 it)
  | S1SticksOutBreak => CO_RETURN2 S1SticksOut RangeInS1 it
  | S1SticksOut => scan (restoreS1 it)
  | S2SticksOutBreak => CO_RETURN2 S2SticksOut RangeInS2 it
  | S2SticksOut => scan (restoreS2 it)
  | S2DragsBehindBreak => CO_RETURN2 S2DragsBehind RangeOverlap it
  | S2DragsBehind => scan (incrementS1 (restoreS2 it))
  | S1DragsBehindBreak => CO_RETURN2 S1DragsBehind RangeOverlap it
  | S1DragsBehind => scan (incrementS2 (restoreS1 it))
  | ExactOverlap => scan (incrementS2 (incrementS1 it))
  | End => it
  end.

(** The object as the member initialisers and the constructor body leave it
    before the constructor's call of [findNext] (lines 1274-1283).
    [userState] is not initialised by the constructor; it is written by the
    first return that reports a segment and is not read before. *)
Definition initial (l1 : list Item1) (l2 : list Item2) : iter :=
  mkIter l1 l2 Begin RangeInS1 newNextTrans newNextTrans 0 0 [] [].

(** The constructor [RangePairIter( ctx, list1, list2 )]. *)
Definition new (l1 : list Item1) (l2 : list Item2) : iter :=
  findNext (initial l1 l2).

(** [lte()] and [end()] (lines 1250-1251). *)
Definition lte (it : iter) : bool :=
  match itState it with End => false | _ => true end.
Definition is_end (it : iter) : bool :=
  match itState it with End => true | _ => false end.

(** ** What the caller observes *)

(** At a return the caller reads [userState] and, for the lists the user
    state speaks of, the key range and the transition held in the
    corresponding [NextTrans]. *)
Record Seg (Item : Type) : Type := mkSeg {
  seg_low : KeyOps.Key;
  seg_high : KeyOps.Key;
  seg_trans : list Item
}.

Definition segOf {Item : Type} (nt : NextTrans Item) : Seg Item :=
  mkSeg Item (lowKey nt) (highKey nt) (trans nt).

Inductive Event : Type :=
  | EvRangeInS1 (s1 : Seg Item1)
  | EvRangeInS2 (s2 : Seg Item2)
  | EvRangeOverlap (s1 : Seg Item1) (s2 : Seg Item2)
  | EvBreakS1 (s1 : Seg Item1)
  | EvBreakS2 (s2 : Seg Item2).

Definition observe (it : iter) : Event :=
  match userState it with
  | RangeInS1 => EvRangeInS1 (segOf (s1Tel it))
  | RangeInS2 => EvRangeInS2 (segOf (s2Tel it))
  | RangeOverlap => EvRangeOverlap (segOf (s1Tel it)) (segOf (s2Tel it))
  | BreakS1 => EvBreakS1 (segOf (s1Tel it))
  | BreakS2 => EvBreakS2 (segOf (s2Tel it))
  end.

Definition userStateOf (e : Event) : UserState :=
  match e with
  | EvRangeInS1 _ => RangeInS1
  | EvRangeInS2 _ => RangeInS2
  | EvRangeOverlap _ _ => RangeOverlap
  | EvBreakS1 _ => BreakS1
  | EvBreakS2 _ => BreakS2
  end.

(** The caller's loop [for ( it( ctx, l1, l2 ); !it.end(); it++ )]: the
    events of the first [n] rounds, starting with the one [it] stands at. *)
Fixpoint trace (n : nat) (it : iter) : list Event :=
  match n with
  | O => []
  | S n' => if is_end it then [] else observe it :: trace n' (findNext it)
  end.

(** The iterator after [n] further calls of [findNext]. *)
Fixpoint advance (n : nat) (it : iter) : iter :=
  match n with
  | O => it
  | S n' => advance n' (findNext it)
  end.

(** The key range of the segment an event reports; break notifications
    report none. *)
Definition segmentOf (e : Event) : option (KeyOps.Key * KeyOps.Key) :=
  match e with
  | EvRangeInS1 s1 => Some (seg_low _ s1, seg_high _ s1)
  | EvRangeInS2 s2 => Some (seg_low _ s2, seg_high _ s2)
  | EvRangeOverlap s1 _ => Some (seg_low _ s1, seg_high _ s1)
  | EvBreakS1 _ => None
  | EvBreakS2 _ => None
  end.

Definition segments (evs : list Event) : list (KeyOps.Key * KeyOps.Key) :=
  omap segmentOf evs.

(** The pieces of list 1 (of list 2) the events report, with the transition
    each piece belongs to. *)
Definition piece1Of (e : Event) : option (Seg Item1) :=
  match e with
  | EvRangeInS1 s1 => Some s1
  | EvRangeOverlap s1 _ => Some s1
  | _ => None
  end.

Definition piece2Of (e : Event) : option (Seg Item2) :=
  match e with
  | EvRangeInS2 s2 => Some s2
  | EvRangeOverlap _ s2 => Some s2
  | _ => None
  end.

Definition pieces1 (evs : list Event) : list (Seg Item1) := omap piece1Of evs.
Definition pieces2 (evs : list Event) : list (Seg Item2) := omap piece2Of evs.

End Iterator.

Arguments seg_low {Item} _.
Arguments seg_high {Item} _.
Arguments seg_trans {Item} _.
Arguments mkSeg {Item} _ _ _.
Arguments Event : clear implicits.

End RangePairIter.

(* ===================================================================== *)
(** * ValPairIter (fsmgraph.h, lines 1042-1190) *)
(* ===================================================================== *)

Module ValPairIter.
Import ItemIter.

Inductive UserState : Type :=
  | RangeInS1 | RangeInS2
  | RangeOverlap.

Inductive IterState : Type :=
  | Begin
  | ConsumeS1Range | ConsumeS2Range
  | OnlyInS1Range | OnlyInS2Range
  | ExactOverlap | End.

(** [struct NextTrans] (lines 1061-1087). *)
Record NextTrans (Item : Type) : Type := mkNextTrans {
  key : Z;
  trans : list Item;
  next : list Item
}.

Arguments mkNextTrans {Item} _ _ _.
Arguments key {Item} _.
Arguments trans {Item} _.
Arguments next {Item} _.

Section NextTransOps.
Context {Item : Type} `{KeyItem Item}.

Definition with_trans (t : list Item) (nt : NextTrans Item) : NextTrans Item :=
  mkNextTrans (key nt) t (next nt).

(** The constructor [NextTrans()]: [key = 0], both cursors null. *)
Definition newNextTrans : NextTrans Item := mkNextTrans 0 [] [].

(** [load()] (lines 1069-1076). *)
Definition load (nt : NextTrans Item) : NextTrans Item :=
  match trans nt with
  | [] => mkNextTrans (key nt) (trans nt) iter_clear
  | t :: rest => mkNextTrans (keyOf t) (trans nt) rest
  end.

(** [set( t )] (lines 1078-1081). *)
Definition set (t : list Item) (nt : NextTrans Item) : NextTrans Item :=
  load (with_trans t nt).

(** [increment()] (lines 1083-1086). *)
Definition increment (nt : NextTrans Item) : NextTrans Item :=
  load (with_trans (next nt) nt).

End NextTransOps.

(** The fields of [struct ValPairIter] that [findNext] reads or writes
    (lines 1096-1102).  The members [bottomLow], [bottomHigh],
    [bottomTrans1] and [bottomTrans2] are declared but used nowhere in the
    struct. *)
Record t (Item1 Item2 : Type) : Type := mkIter {
  list1 : list Item1;
  list2 : list Item2;
  itState : IterState;
  userState : UserState;
  s1Tel : NextTrans Item1;
  s2Tel : NextTrans Item2
}.

Arguments mkIter {Item1 Item2} _ _ _ _ _ _.
Arguments list1 {Item1 Item2} _.
Arguments list2 {Item1 Item2} _.
Arguments itState {Item1 Item2} _.
Arguments userState {Item1 Item2} _.
Arguments s1Tel {Item1 Item2} _.
Arguments s2Tel {Item1 Item2} _.

Section Iterator.
Context {Item1 Item2 : Type} `{KeyItem Item1} `{KeyItem Item2}.

Local Abbreviation iter := (t Item1 Item2).

Definition with_itState (v : IterState) (it : iter) : iter :=
  mkIter (list1 it) (list2 it) v (userState it) (s1Tel it) (s2Tel it).
Definition with_userState (v : UserState) (it : iter) : iter :=
  mkIter (list1 it) (list2 it) (itState it) v (s1Tel it) (s2Tel it).
Definition with_s1Tel (v : NextTrans Item1) (it : iter) : iter :=
  mkIter (list1 it) (list2 it) (itState it) (userState it) v (s2Tel it).
Definition with_s2Tel (v : NextTrans Item2) (it : iter) : iter :=
  mkIter (list1 it) (list2 it) (itState it) (userState it) (s1Tel it) v.

Definition CO_RETURN (label : IterState) (it : iter) : iter :=
  with_itState label it.
Definition CO_RETURN2 (label : IterState) (uState : UserState) (it : iter) : iter :=
  with_userState uState (with_itState label it).

(** The inner loop of lines 1149-1153, from its test on. *)
Definition drainS2 (it : iter) : iter :=
  if iter_end (trans (s2Tel it)) then CO_RETURN End it
  else CO_RETURN2 ConsumeS2Range RangeInS2 it.

(** The inner loop of lines 1159-1163, from its test on. *)
Definition drainS1 (it : iter) : iter :=
  if iter_end (trans (s1Tel it)) then CO_RETURN End it
  else CO_RETURN2 ConsumeS1Range RangeInS1 it.

(** The body of [while ( true )] (lines 1145-1186) from its top to the next
    return. *)
Definition scan (it : iter) : iter :=
  let s1 := s1Tel it in
  let s2 := s2Tel it in
  if iter_end (trans s1) then drainS2 it
  else if iter_end (trans s2) then drainS1 it
  else if key s1 <? key s2 then CO_RETURN2 OnlyInS1Range RangeInS1 it
  else if key s2 <? key s1 then CO_RETURN2 OnlyInS2Range RangeInS2 it
  else CO_RETURN2 ExactOverlap RangeOverlap it.

Definition incrementS1 (it : iter) : iter := with_s1Tel (increment (s1Tel it)) it.
Definition incrementS2 (it : iter) : iter := with_s2Tel (increment (s2Tel it)) it.

(** [findNext()] (lines 1125-1190). *)
Definition findNext (it : iter) : iter :=
  match itState it with
  | Begin =>
      scan (with_s2Tel (set (list2 it) (s2Tel it))
             (with_s1Tel (set (list1 it) (s1Tel it)) it))
  | ConsumeS2Range => drainS2 (incrementS2 it)
  | ConsumeS1Range => drainS1 (incrementS1 it)
  | OnlyInS1Range => scan (incrementS1 it)
  | OnlyInS2Range => scan (incrementS2 it)
  | ExactOverlap => scan (incrementS2 (incrementS1 it))
  | End => it
  end.

(** The object before the constructor's call of [findNext] (lines
    1112-1119); [userState] is not initialised by the constructor. *)
Definition initial (l1 : list Item1) (l2 : list Item2) : iter :=
  mkIter l1 l2 Begin RangeInS1 newNextTrans newNextTrans.

(** The constructor [ValPairIter( list1, list2 )]. *)
Definition new (l1 : list Item1) (l2 : list Item2) : iter :=
  findNext (initial l1 l2).

Definition is_end (it : iter) : bool :=
  match itState it with End => true | _ => false end.

(** At a return the caller reads [userState] and the elements under the
    cursors the user state speaks of. *)
Inductive Event : Type :=
  | EvRangeInS1 (t1 : list Item1)
  | EvRangeInS2 (t2 : list Item2)
  | EvRangeOverlap (t1 : list Item1) (t2 : list Item2).

Definition observe (it : iter) : Event :=
  match userState it with
  | RangeInS1 => EvRangeInS1 (trans (s1Tel it))
  | RangeInS2 => EvRangeInS2 (trans (s2Tel it))
  | RangeOverlap => EvRangeOverlap (trans (s1Tel it)) (trans (s2Tel it))
  end.

Fixpoint trace (n : nat) (it : iter) : list Event :=
  match n with
  | O => []
  | S n' => if is_end it then [] else observe it :: trace n' (findNext it)
  end.

End Iterator.

Arguments Event : clear implicits.

End ValPairIter.

(* ===================================================================== *)
(** * Input position bookkeeping (input.c, lines 127-155) *)
(* ===================================================================== *)

Module InputPos.
Import MachInt.

(** The position members of [struct input_impl_seq]; all three are [long].
    The other members of the struct are not touched by the two functions
    below. *)
Record input_impl_seq : Type := mkInput {
  line : Z;
  column : Z;
  byte : Z
}.

Definition newline : Z := 10.

(** One round of the loop of [update_position_seq] (lines 132-137). *)
Definition update_char (is_ : input_impl_seq) (c : Z) : input_impl_seq :=
  if negb (c =? newline) then
    mkInput (line is_) (wrap_long (column is_ + 1)) (byte is_)
  else
    mkInput (wrap_long (line is_ + 1)) 1 (byte is_).

(** What the loop of [update_position_seq] and the addition to [byte]
    that follows it make of the position, for a block the loop walks to its
    end. *)
Definition position_after (is_ : input_impl_seq) (data : list Z) : input_impl_seq :=
  let is' := fold_left update_char data is_ in
  mkInput (line is') (column is') (wrap_long (byte is' + Z.of_nat (length data))).

(** The loop of [update_position_seq] (lines 130-138).  [i] is the loop
    counter, an [int], and [data] the characters [data[i]], [data[i+1]],
    ... up to [data[length-1]]; the test [i < length] fails when none is
    left.  After the round for the character of index [INT_MAX] the
    increment [i++] overflows the [int]: the loop does not come to its end
    and the result is [None]. *)
Fixpoint update_loop (data : list Z) (i : Z) (is_ : input_impl_seq) :
    option input_impl_seq :=
  match data with
  | [] => Some is_
  | c :: r =>
      let is1 := update_char is_ c in
      if i <? INT_MAX then update_loop r (i + 1) is1 else None
  end.

(** [update_position_seq( is, data, length )] (lines 128-141).  The block
    is the list of the [length] characters [data[0]], ..., [data[length-1]]. *)
Definition update_position_seq (is_ : input_impl_seq) (data : list Z) :
    option input_impl_seq :=
  is' ← update_loop data 0 is_;
  Some (mkInput (line is') (column is')
          (wrap_long (byte is' + Z.of_nat (length data)))).

(** One round of the loop of [undo_position_seq] (lines 150-151). *)
Definition undo_char (is_ : input_impl_seq) (c : Z) : input_impl_seq :=
  if c =? newline then
    mkInput (wrap_long (line is_ - 1)) (column is_) (byte is_)
  else is_.

(** What the loop of [undo_position_seq] and the subtraction from [byte]
    make of the position, for a block the loop walks to its end. *)
Definition position_before (is_ : input_impl_seq) (data : list Z) : input_impl_seq :=
  let is' := fold_left undo_char data is_ in
  mkInput (line is') (column is') (wrap_long (byte is' - Z.of_nat (length data))).

(** The loop of [undo_position_seq] (lines 148-152), with its [int]
    counter as in [update_loop]. *)
Fixpoint undo_loop (data : list Z) (i : Z) (is_ : input_impl_seq) :
    option input_impl_seq :=
  match data with
  | [] => Some is_
  | c :: r =>
      let is1 := undo_char is_ c in
      if i <? INT_MAX then undo_loop r (i + 1) is1 else None
  end.

(** [undo_position_seq( is, data, length )] (lines 144-155). *)
Definition undo_position_seq (is_ : input_impl_seq) (data : list Z) :
    option input_impl_seq :=
  is' ← undo_loop data 0 is_;
  Some (mkInput (line is') (column is')
          (wrap_long (byte is' - Z.of_nat (length data)))).

(** The position members hold [long] values. *)
Definition wf_input (is_ : input_impl_seq) : Prop :=
  in_long (line is_) /\ in_long (column is_) /\ in_long (byte is_).

(** The number of newline characters of a block. *)
Fixpoint newlines (data : list Z) : Z :=
  match data with
  | [] => 0
  | c :: r => (if c =? newline then 1 else 0) + newlines r
  end.

End InputPos.

(* ===================================================================== *)
(** * Properties of range lists and of event streams *)
(* ===================================================================== *)

Module RangeSpec.
Import ItemIter RangePairIter.

(** A list of key ranges that lies above the key [b], is sorted, and whose
    ranges are non-empty and pairwise disjoint. *)
Fixpoint sortedFrom (b : KeyOps.Key) (l : list (KeyOps.Key * KeyOps.Key)) : Prop :=
  match l with
  | [] => True
  | (lo, hi) :: r => b < lo /\ lo <= hi /\ sortedFrom hi r
  end.

Definition sortedDisjoint (l : list (KeyOps.Key * KeyOps.Key)) : Prop :=
  match l with
  | [] => True
  | (lo, hi) :: r => lo <= hi /\ sortedFrom hi r
  end.

Definition rangeOf {Item : Type} `{RangeItem Item} (x : Item) : KeyOps.Key * KeyOps.Key :=
  (lowKeyOf x, highKeyOf x).

(** The input condition of the range iterator: an out-list is sorted by
    [lowKey], its ranges are non-empty and pairwise disjoint. *)
Definition SortedDisjoint {Item : Type} `{RangeItem Item} (l : list Item) : Prop :=
  sortedDisjoint (map rangeOf l).

(** Segment [s] lies wholly before segment [t]. *)
Definition segBefore (s t : KeyOps.Key * KeyOps.Key) : Prop :=
  snd s < fst t /\ fst s < fst t.

(** The cursor a transition of a list is reached through, with the range
    the transition has in the list. *)
Fixpoint suffixSegs {Item : Type} `{RangeItem Item} (l : list Item) : list (Seg Item) :=
  match l with
  | [] => []
  | x :: r => mkSeg (lowKeyOf x) (highKeyOf x) l :: suffixSegs r
  end.

(** What a [NextTrans] still has to deliver: the range it holds for the
    transition under the cursor, then the transitions after it. *)
Definition pendingOf {Item : Type} `{RangeItem Item} (nt : NextTrans Item) : list (Seg Item) :=
  match trans nt with
  | [] => []
  | _ :: _ => segOf nt :: suffixSegs (next nt)
  end.

Definition segRange {Item : Type} (s : Seg Item) : KeyOps.Key * KeyOps.Key :=
  (seg_low s, seg_high s).

(** [Tiles lo hi t ps]: the pieces [ps] all belong to the transition under
    the cursor [t], and their ranges cut [lo, hi] into consecutive non-empty
    parts, in increasing order. *)
Inductive Tiles {Item : Type} (t : list Item) :
    KeyOps.Key -> KeyOps.Key -> list (Seg Item) -> Prop :=
  | Tiles_last (lo hi : KeyOps.Key) :
      lo <= hi -> Tiles t lo hi [mkSeg lo hi t]
  | Tiles_cut (lo mid hi : KeyOps.Key) (ps : list (Seg Item)) :
      lo <= mid -> mid < hi ->
      Tiles t (mid + 1) hi ps ->
      Tiles t lo hi (mkSeg lo mid t :: ps).

(** [SinglePass todo ps]: the pieces [ps] visit the entries of [todo] one
    after the other, each exactly once: the pieces of an entry are
    consecutive in [ps], tile the range of the entry, and no piece of an
    entry comes after a piece of a later entry. *)
Inductive SinglePass {Item : Type} : list (Seg Item) -> list (Seg Item) -> Prop :=
  | SinglePass_nil : SinglePass [] []
  | SinglePass_cons (s : Seg Item) (todo own rest : list (Seg Item)) :
      Tiles (seg_trans s) (seg_low s) (seg_high s) own ->
      SinglePass todo rest ->
      SinglePass (s :: todo) (own ++ rest).

Section Walk.
Context {Item1 Item2 : Type}.

Local Abbreviation event := (Event Item1 Item2).

(** The event stream of the merge of two pending lists, case by case as the
    loop of [findNext] takes them. *)
Inductive Walk : list (Seg Item1) -> list (Seg Item2) -> list event -> Prop :=
  | Walk_end : Walk [] [] []
  | Walk_consumeS2 b B evs :
      Walk [] B evs ->
      Walk [] (b :: B) (EvRangeInS2 b :: evs)
  | Walk_consumeS1 a A evs :
      Walk A [] evs ->
      Walk (a :: A) [] (EvRangeInS1 a :: evs)
  | Walk_onlyInS1 a A b B evs :
      seg_high a < seg_low b ->
      Walk A (b :: B) evs ->
      Walk (a :: A) (b :: B) (EvRangeInS1 a :: evs)
  | Walk_onlyInS2 a A b B evs :
      seg_low b <= seg_high a ->
      seg_high b < seg_low a ->
      Walk (a :: A) B evs ->
      Walk (a :: A) (b :: B) (EvRangeInS2 b :: evs)
  | Walk_s1SticksOut a A b B evs :
      seg_low b <= seg_high a ->
      seg_low a <= seg_high b ->
      seg_low a < seg_low b ->
      Walk (mkSeg (seg_low b) (seg_high a) (seg_trans a) :: A) (b :: B) evs ->
      Walk (a :: A) (b :: B)
        (EvBreakS1 (mkSeg (seg_low a) (seg_low b - 1) (seg_trans a))
         :: EvRangeInS1 (mkSeg (seg_low a) (seg_low b - 1) (seg_trans a))
         :: evs)
  | Walk_s2SticksOut a A b B evs :
      seg_low b <= seg_high a ->
      seg_low a <= seg_high b ->
      seg_low b < seg_low a ->
      Walk (a :: A) (mkSeg (seg_low a) (seg_high b) (seg_trans b) :: B) evs ->
      Walk (a :: A) (b :: B)
        (EvBreakS2 (mkSeg (seg_low b) (seg_low a - 1) (seg_trans b))
         :: EvRangeInS2 (mkSeg (seg_low b) (seg_low a - 1) (seg_trans b))
         :: evs)
  | Walk_s2DragsBehind a A b B evs :
      seg_low b <= seg_high a ->
      seg_low a = seg_low b ->
      seg_high a < seg_high b ->
      Walk A (mkSeg (seg_high a + 1) (seg_high b) (seg_trans b) :: B) evs ->
      Walk (a :: A) (b :: B)
        (EvBreakS2 (mkSeg (seg_low b) (seg_high a) (seg_trans b))
         :: EvRangeOverlap a (mkSeg (seg_low b) (seg_high a) (seg_trans b))
         :: evs)
  | Walk_s1DragsBehind a A b B evs :
      seg_low a <= seg_high b ->
      seg_low a = seg_low b ->
      seg_high b < seg_high a ->
      Walk (mkSeg (seg_high b + 1) (seg_high a) (seg_trans a) :: A) B evs ->
      Walk (a :: A) (b :: B)
        (EvBreakS1 (mkSeg (seg_low a) (seg_high b) (seg_trans a))
         :: EvRangeOverlap (mkSeg (seg_low a) (seg_high b) (seg_trans a)) b
         :: evs)
  | Walk_exactOverlap a A b B evs :
      seg_low b <= seg_high a ->
      seg_low a = seg_low b ->
      seg_high a = seg_high b ->
      Walk A B evs ->
      Walk (a :: A) (b :: B) (EvRangeOverlap a b :: evs).

(** A bound on the rounds a walk takes: an entry is passed in at most two
    rounds of the loop, and a round reports at most two events. *)
Definition unevenLows (A : list (Seg Item1)) (B : list (Seg Item2)) : nat :=
  match A, B with
  | a :: _, b :: _ => if seg_low a =? seg_low b then 0%nat else 1%nat
  | _, _ => 0%nat
  end.

Definition rounds (A : list (Seg Item1)) (B : list (Seg Item2)) : nat :=
  (2 * (length A + length B) + unevenLows A B)%nat.

End Walk.

(** A [NextTrans] is linked when [next] is the cursor after [trans]; both
    [NextTrans] of an iterator are linked whenever the loop of [findNext]
    is at its top. *)
Definition linked {Item : Type} (nt : NextTrans Item) : Prop :=
  next nt = tl (trans nt).

Definition headWf {Item1 Item2 : Type} (h : RangePairIter.t Item1 Item2) : Prop :=
  linked (s1Tel h) /\ linked (s2Tel h).

(** A piece with a non-empty key range. *)
Definition nonEmptySeg {Item : Type} (s : Seg Item) : Prop := seg_low s <= seg_high s.

(** The state the constructor hands to the loop of [findNext]. *)
Definition firstHead {Item1 Item2 : Type} `{RangeItem Item1} `{RangeItem Item2}
    (l1 : list Item1) (l2 : list Item2) : RangePairIter.t Item1 Item2 :=
  with_s2Tel (set l2 newNextTrans)
    (with_s1Tel (set l1 newNextTrans) (initial l1 l2)).

(** The number of calls of [findNext] after which the iterator over [l1]
    and [l2] is at its end for certain. *)
Definition fuel {Item1 Item2 : Type} (l1 : list Item1) (l2 : list Item2) : nat :=
  (4 * (length l1 + length l2) + 3)%nat.

End RangeSpec.

(* ===================================================================== *)
(** * Items for the two iterators *)
(* ===================================================================== *)

Module Items.
Import ItemIter.

(** The out-list of a state is a list of [TransAp]. *)
#[export] Instance TransAp_RangeItem : RangeItem TransM.TransAp :=
  {| lowKeyOf := TransM.lowKey; highKeyOf := TransM.highKey |}.

(** [struct CondAp] (lines 496-524): the key of the entry in the cond list
    and the target state; the action and priority tables of its base
    [TransData] play no part in the walk. *)
Record CondAp : Type := mkCondAp {
  key : Z;
  toState : N
}.

#[export] Instance CondAp_KeyItem : KeyItem CondAp :=
  {| keyOf := key |}.

(** A single key [k] read as the degenerate range [k, k]. *)
Definition degenerate {Item : Type} (K : KeyItem Item) : RangeItem Item :=
  {| lowKeyOf := keyOf; highKeyOf := keyOf |}.

(** Two out-lists for the examples: [1,10] against [3,5], [7,8]. *)
Definition exampleList1 : list TransM.TransAp :=
  [TransM.mkTransAp 1 10 None].
Definition exampleList2 : list TransM.TransAp :=
  [TransM.mkTransAp 3 5 None; TransM.mkTransAp 7 8 None].

End Items.

(* ===================================================================== *)
(** * ValPairIter against RangePairIter *)
(* ===================================================================== *)

Module ValRange.
Import ItemIter Items.

Definition embIterState (s : ValPairIter.IterState) : RangePairIter.IterState :=
  match s with
  | ValPairIter.Begin => RangePairIter.Begin
  | ValPairIter.ConsumeS1Range => RangePairIter.ConsumeS1Range
  | ValPairIter.ConsumeS2Range => RangePairIter.ConsumeS2Range
  | ValPairIter.OnlyInS1Range => RangePairIter.OnlyInS1Range
  | ValPairIter.OnlyInS2Range => RangePairIter.OnlyInS2Range
  | ValPairIter.ExactOverlap => RangePairIter.ExactOverlap
  | ValPairIter.End => RangePairIter.End
  end.

Definition embUserState (s : ValPairIter.UserState) : RangePairIter.UserState :=
  match s with
  | ValPairIter.RangeInS1 => RangePairIter.RangeInS1
  | ValPairIter.RangeInS2 => RangePairIter.RangeInS2
  | ValPairIter.RangeOverlap => RangePairIter.RangeOverlap
  end.

Definition embNextTrans {Item : Type} (nt : ValPairIter.NextTrans Item) :
    RangePairIter.NextTrans Item :=
  RangePairIter.mkNextTrans (ValPairIter.key nt) (ValPairIter.key nt)
    (ValPairIter.trans nt) (ValPairIter.next nt).

(** The range iterator that stands where the value iterator [v] stands;
    the bottom-half save slots are those of [r0]. *)
Definition embIter {Item1 Item2 : Type} (r0 : RangePairIter.t Item1 Item2)
    (v : ValPairIter.t Item1 Item2) : RangePairIter.t Item1 Item2 :=
  RangePairIter.mkIter (ValPairIter.list1 v) (ValPairIter.list2 v)
    (embIterState (ValPairIter.itState v)) (embUserState (ValPairIter.userState v))
    (embNextTrans (ValPairIter.s1Tel v)) (embNextTrans (ValPairIter.s2Tel v))
    (RangePairIter.bottomLow r0) (RangePairIter.bottomHigh r0)
    (RangePairIter.bottomTrans1 r0) (RangePairIter.bottomTrans2 r0).

(** The classification a range event makes and the elements it is about,
    as an event of the value iterator; the two break notifications are no
    classification. *)
Definition classify {Item1 Item2 : Type} (e : RangePairIter.Event Item1 Item2) :
    option (ValPairIter.Event Item1 Item2) :=
  match e with
  | RangePairIter.EvRangeInS1 s1 =>
      Some (ValPairIter.EvRangeInS1 (RangePairIter.seg_trans s1))
  | RangePairIter.EvRangeInS2 s2 =>
      Some (ValPairIter.EvRangeInS2 (RangePairIter.seg_trans s2))
  | RangePairIter.EvRangeOverlap s1 s2 =>
      Some (ValPairIter.EvRangeOverlap (RangePairIter.seg_trans s1)
                                       (RangePairIter.seg_trans s2))
  | RangePairIter.EvBreakS1 _ => None
  | RangePairIter.EvBreakS2 _ => None
  end.

Definition isBreak {Item1 Item2 : Type} (e : RangePairIter.Event Item1 Item2) : bool :=
  match e with
  | RangePairIter.EvBreakS1 _ | RangePairIter.EvBreakS2 _ => true
  | _ => false
  end.

End ValRange.

(* ===================================================================== *)
(** * File name table (input.c, lines 53-71) *)
(* ===================================================================== *)

Module FileNames.

(** [prg->stream_fns] is an array of C strings closed by a null entry; it
    is kept as the list of the entries before the null.  [strcmp] compares
    the characters of two strings. *)
Definition stream_fns_t : Type := list String.string.

(** The search loop of lines 56-61, started at the entry of index
    [items]: the index of the first entry equal to [fn], if there is one. *)
Fixpoint search (ptr : stream_fns_t) (fn : String.string) (items : nat) : option nat :=
  match ptr with
  | [] => None
  | p :: rest =>
      if String.eqb p fn then Some items
      else search rest fn (S items)
  end.

(** [colm_filename_add( prg, fn )]: the table after the call and the index
    of the entry whose string is returned.  When [fn] is not present the
    table is grown by one entry holding a copy of [fn]. *)
Definition colm_filename_add (stream_fns : stream_fns_t) (fn : String.string) :
    stream_fns_t * nat :=
  match search stream_fns fn 0 with
  | Some i => (stream_fns, i)
  | None => (stream_fns ++ [fn], length stream_fns)
  end.

End FileNames.

(* ===================================================================== *)
(** * Element comparisons (fsmgraph.h, lines 244-260 and 365-404) *)
(* ===================================================================== *)

Module Compare.

(** [ActionTableEl] is [SBstMapEl< int, Action* >]: an ordering and the
    address of an action. *)
Record ActionTableEl : Type := mkActionTableEl {
  key : Z;
  value : N
}.

(** [CmpActionTableEl::compare] (lines 247-259). *)
Definition CmpActionTableEl_compare (action1 action2 : ActionTableEl) : Z :=
  if key action1 <? key action2 then -1
  else if key action1 >? key action2 then 1
  else if (value action1 <? value action2)%N then -1
  else if (value action2 <? value action1)%N then 1
  else 0.

(** [struct PriorDesc] (lines 339-352) and [struct PriorEl] (lines
    356-363); [desc] and [other] are addresses of descriptors. *)
Record PriorDesc : Type := mkPriorDesc {
  pd_key : Z;
  pd_priority : Z;
  pd_guardId : Z;
  pd_other : N
}.

Record PriorEl : Type := mkPriorEl {
  ordering : Z;
  desc : N
}.

(** [PriorElCmp::compare] (lines 369-377): reads the keys through the
    two descriptor pointers; [None] when a pointer holds no descriptor. *)
Definition PriorElCmp_compare (descs : gmap N PriorDesc) (pel1 pel2 : PriorEl) :
    option Z :=
  d1 ← descs !! desc pel1;
  d2 ← descs !! desc pel2;
  Some (if pd_key d1 <? pd_key d2 then -1
        else if pd_key d1 >? pd_key d2 then 1
        else 0).

(** [CmpPriorEl::compare] (lines 392-403): compares the descriptor
    pointers, then the orderings. *)
Definition CmpPriorEl_compare (pel1 pel2 : PriorEl) : Z :=
  if (desc pel1 <? desc pel2)%N then -1
  else if (desc pel2 <? desc pel1)%N then 1
  else if ordering pel1 <? ordering pel2 then -1
  else if ordering pel1 >? ordering pel2 then 1
  else 0.

End Compare.

(* ===================================================================== *)
(** * What the range iterator reports, key by key *)
(* ===================================================================== *)

Module RangeCover.
Import ItemIter RangePairIter RangeSpec.

(** The key [k] lies in one of the ranges of the list. *)
Definition inRanges {Item : Type} `{RangeItem Item} (l : list Item) (k : KeyOps.Key) : Prop :=
  Exists (fun x => lowKeyOf x <= k <= highKeyOf x) l.

Definition covers {Item : Type} (l : list (Seg Item)) (k : KeyOps.Key) : Prop :=
  Exists (fun s => seg_low s <= k <= seg_high s) l.

Definition inSeg {Item : Type} (s : Seg Item) (k : KeyOps.Key) : Prop :=
  seg_low s <= k <= seg_high s.

Section Reports.
Context {Item1 Item2 : Type}.

(** The key [k] lies in a segment reported under [RangeInS1] (under
    [RangeInS2], under [RangeOverlap]). *)
Definition reportsInS1 (evs : list (Event Item1 Item2)) (k : KeyOps.Key) : Prop :=
  Exists (fun e => match e with EvRangeInS1 s1 => inSeg s1 k | _ => False end) evs.

Definition reportsInS2 (evs : list (Event Item1 Item2)) (k : KeyOps.Key) : Prop :=
  Exists (fun e => match e with EvRangeInS2 s2 => inSeg s2 k | _ => False end) evs.

Definition reportsOverlap (evs : list (Event Item1 Item2)) (k : KeyOps.Key) : Prop :=
  Exists (fun e => match e with EvRangeOverlap s1 _ => inSeg s1 k | _ => False end) evs.

(** At a [RangeOverlap] the two [NextTrans] hold the same key range. *)
Definition overlapCoincides (e : Event Item1 Item2) : Prop :=
  match e with
  | EvRangeOverlap s1 s2 => seg_low s1 = seg_low s2 /\ seg_high s1 = seg_high s2
  | _ => True
  end.

(** Every break notification is directly followed by the report, under
    [RangeInS1] or [RangeOverlap] for [BreakS1] and under [RangeInS2] or
    [RangeOverlap] for [BreakS2], of the very range and transition the
    broken [NextTrans] held at the notification. *)
Fixpoint breaksAnnounce (evs : list (Event Item1 Item2)) : Prop :=
  match evs with
  | [] => True
  | e :: r =>
      match e with
      | EvBreakS1 s1 =>
          match r with
          | e' :: _ => piece1Of e' = Some s1
          | [] => False
          end
      | EvBreakS2 s2 =>
          match r with
          | e' :: _ => piece2Of e' = Some s2
          | [] => False
          end
      | _ => True
      end /\ breaksAnnounce r
  end.

(** The three reports about the key [k] agree with the pending lists. *)
Definition classified (A : list (Seg Item1)) (B : list (Seg Item2))
    (evs : list (Event Item1 Item2)) (k : KeyOps.Key) : Prop :=
  (reportsInS1 evs k <-> covers A k /\ ~ covers B k)
  /\ (reportsInS2 evs k <-> ~ covers A k /\ covers B k)
  /\ (reportsOverlap evs k <-> covers A k /\ covers B k).

End Reports.

End RangeCover.

(* ===================================================================== *)
(** * What the value iterator reports *)
(* ===================================================================== *)

Module ValSpec.
Import ItemIter ValPairIter.

(** The cursors a walk over the list passes through: the list itself,
    then each of its non-empty tails. *)
Fixpoint cursors {Item : Type} (l : list Item) : list (list Item) :=
  match l with
  | [] => []
  | _ :: r => l :: cursors r
  end.

(** The key of the element under a cursor. *)
Definition headKey {Item : Type} `{KeyItem Item} (t : list Item) : option Z :=
  match t with
  | [] => None
  | x :: _ => Some (keyOf x)
  end.

Definition keysOf {Item : Type} `{KeyItem Item} (l : list Item) : list Z :=
  map keyOf l.

Section Reports.
Context {Item1 Item2 : Type} `{KeyItem Item1} `{KeyItem Item2}.

(** The iterator after [n] further calls of [findNext]. *)
Fixpoint advance (n : nat) (it : ValPairIter.t Item1 Item2) : ValPairIter.t Item1 Item2 :=
  match n with
  | O => it
  | S n' => advance n' (findNext it)
  end.

(** The cursors of list 1 (of list 2) the events are about. *)
Definition elem1Of (e : Event Item1 Item2) : option (list Item1) :=
  match e with
  | EvRangeInS1 t1 => Some t1
  | EvRangeOverlap t1 _ => Some t1
  | EvRangeInS2 _ => None
  end.

Definition elem2Of (e : Event Item1 Item2) : option (list Item2) :=
  match e with
  | EvRangeInS2 t2 => Some t2
  | EvRangeOverlap _ t2 => Some t2
  | EvRangeInS1 _ => None
  end.

Definition elems1 (evs : list (Event Item1 Item2)) : list (list Item1) := omap elem1Of evs.
Definition elems2 (evs : list (Event Item1 Item2)) : list (list Item2) := omap elem2Of evs.

(** An element of key [k] is reported under [RangeInS1] (under
    [RangeInS2]); two elements of key [k] are reported under
    [RangeOverlap]. *)
Definition reportsInS1 (evs : list (Event Item1 Item2)) (k : Z) : Prop :=
  Exists (fun e => match e with EvRangeInS1 t1 => headKey t1 = Some k | _ => False end) evs.

Definition reportsInS2 (evs : list (Event Item1 Item2)) (k : Z) : Prop :=
  Exists (fun e => match e with EvRangeInS2 t2 => headKey t2 = Some k | _ => False end) evs.

Definition reportsOverlap (evs : list (Event Item1 Item2)) (k : Z) : Prop :=
  Exists (fun e => match e with
                   | EvRangeOverlap t1 t2 => headKey t1 = Some k /\ headKey t2 = Some k
                   | _ => False
                   end) evs.

(** The events of the merge of two lists, by recursion on the lists. *)
Fixpoint merge (l1 : list Item1) : list Item2 -> list (Event Item1 Item2) :=
  fix merge_l1 (l2 : list Item2) : list (Event Item1 Item2) :=
    match l1, l2 with
    | [], [] => []
    | [], _ :: r2 => EvRangeInS2 l2 :: merge_l1 r2
    | _ :: r1, [] => EvRangeInS1 l1 :: merge r1 []
    | x :: r1, y :: r2 =>
        if keyOf x <? keyOf y then EvRangeInS1 l1 :: merge r1 l2
        else if keyOf y <? keyOf x then EvRangeInS2 l2 :: merge_l1 r2
        else EvRangeOverlap l1 l2 :: merge r1 r2
    end.

(** The three reports about the key [k] agree with the two lists. *)
Definition vclassified (l1 : list Item1) (l2 : list Item2)
    (evs : list (Event Item1 Item2)) (k : Z) : Prop :=
  (reportsInS1 evs k <-> In k (keysOf l1) /\ ~ In k (keysOf l2))
  /\ (reportsInS2 evs k <-> ~ In k (keysOf l1) /\ In k (keysOf l2))
  /\ (reportsOverlap evs k <-> In k (keysOf l1) /\ In k (keysOf l2)).

End Reports.

(** A cond list is sorted by key, without repeated keys. *)
Definition SortedKeys {Item : Type} `{KeyItem Item} (l : list Item) : Prop :=
  StronglySorted Z.lt (keysOf l).

End ValSpec.

(* ===================================================================== *)
(** * The buffer queue and the stash of an input (input.c, lines 43-51,
      73-78, 160-175, 215-263, 498-538 and 714-734) *)
(* ===================================================================== *)

Module SeqQueue.

(** Addresses of buffers, trees and sub-streams; 0 is the null pointer. *)
Definition addr : Type := N.

(** [enum seq_buf_type], declared in input.h: the four constants the
    functions below use, and the value 0 that the [memset] of
    [new_seq_buf] leaves in a new buffer. *)
Inductive seq_buf_type : Type :=
  | SB_zero | SB_TOKEN | SB_IGNORE | SB_SOURCE | SB_ACCUM.

(** [struct seq_buf], declared in input.h: the members the functions
    below read or write. *)
Record seq_buf : Type := mkSeqBuf {
  type : seq_buf_type;
  own_si : Z;
  tree : addr;
  si : addr;
  next : addr;
  prev : addr
}.

Local Abbreviation mem := (gmap addr seq_buf).

Definition with_type (v : seq_buf_type) (b : seq_buf) : seq_buf :=
  mkSeqBuf v (own_si b) (tree b) (si b) (next b) (prev b).
Definition with_own_si (v : Z) (b : seq_buf) : seq_buf :=
  mkSeqBuf (type b) v (tree b) (si b) (next b) (prev b).
Definition with_tree (v : addr) (b : seq_buf) : seq_buf :=
  mkSeqBuf (type b) (own_si b) v (si b) (next b) (prev b).
Definition with_si (v : addr) (b : seq_buf) : seq_buf :=
  mkSeqBuf (type b) (own_si b) (tree b) v (next b) (prev b).
Definition with_next (v : addr) (b : seq_buf) : seq_buf :=
  mkSeqBuf (type b) (own_si b) (tree b) (si b) v (prev b).
Definition with_prev (v : addr) (b : seq_buf) : seq_buf :=
  mkSeqBuf (type b) (own_si b) (tree b) (si b) (next b) v.

(** [is_tree] (lines 43-46), [is_stream] (lines 48-51) and
    [call_destructor] (lines 106-109). *)
Definition is_tree (b : seq_buf) : bool :=
  match type b with
  | SB_TOKEN | SB_IGNORE => true
  | _ => false
  end.

Definition is_stream (b : seq_buf) : bool :=
  match type b with
  | SB_SOURCE | SB_ACCUM => true
  | _ => false
  end.

Definition call_destructor (b : seq_buf) : bool :=
  is_stream b && negb (own_si b =? 0).

(** The members of [struct input_impl_seq] that hold the queue and the
    stash; its position members are those of [InputPos.input_impl_seq]. *)
Record input_impl_seq : Type := mkSeq {
  queue : addr;
  queue_tail : addr;
  stash : addr;
  eof_mark : Z;
  position : InputPos.input_impl_seq
}.

Definition with_queue (v : addr) (s : input_impl_seq) : input_impl_seq :=
  mkSeq v (queue_tail s) (stash s) (eof_mark s) (position s).
Definition with_queue_tail (v : addr) (s : input_impl_seq) : input_impl_seq :=
  mkSeq (queue s) v (stash s) (eof_mark s) (position s).
Definition with_stash (v : addr) (s : input_impl_seq) : input_impl_seq :=
  mkSeq (queue s) (queue_tail s) v (eof_mark s) (position s).

(** The buffers allocated, by address.  Reading or writing a member
    through a pointer that holds no buffer, the null pointer included,
    gives [None]. *)
Definition store (h : mem) (p : addr) (f : seq_buf -> seq_buf) :
    option (mem) :=
  b ← h !! p; Some (<[p := f b]> h).

(** [new_seq_buf()] (lines 73-78): [b] is the address [malloc] returns;
    the buffer is zeroed. *)
Definition zero_buf : seq_buf := mkSeqBuf SB_zero 0 0%N 0%N 0%N 0%N.

Definition new_seq_buf (h : mem) (b : addr) : mem :=
  <[b := zero_buf]> h.

(** [free( seq_buf )]. *)
Definition free (h : mem) (p : addr) : mem :=
  delete p h.

(** [input_stream_stash_head] (lines 160-165). *)
Definition input_stream_stash_head (h : mem) (s : input_impl_seq)
    (seq_buf : addr) : option (mem * input_impl_seq) :=
  h1 ← store h seq_buf (with_next (stash s));
  Some (h1, with_stash seq_buf s).

(** [input_stream_pop_stash] (lines 167-175). *)
Definition input_stream_pop_stash (h : mem) (s : input_impl_seq) :
    option (input_impl_seq * addr) :=
  b ← h !! stash s;
  Some (with_stash (next b) s, stash s).

(** [input_stream_seq_pop_head] (lines 215-224). *)
Definition input_stream_seq_pop_head (h : mem) (s : input_impl_seq) :
    option (mem * input_impl_seq * addr) :=
  let ret := queue s in
  b ← h !! queue s;
  let s1 := with_queue (next b) s in
  if (queue s1 =? 0)%N then Some (h, with_queue_tail 0%N s1, ret)
  else
    h1 ← store h (queue s1) (with_prev 0%N);
    Some (h1, s1, ret).

(** [input_stream_seq_append] (lines 226-238). *)
Definition input_stream_seq_append (h : mem) (s : input_impl_seq)
    (seq_buf : addr) : option (mem * input_impl_seq) :=
  if (queue s =? 0)%N then
    h1 ← store h seq_buf (with_next 0%N);
    h2 ← store h1 seq_buf (with_prev 0%N);
    Some (h2, with_queue_tail seq_buf (with_queue seq_buf s))
  else
    h1 ← store h (queue_tail s) (with_next seq_buf);
    h2 ← store h1 seq_buf (with_prev (queue_tail s));
    h3 ← store h2 seq_buf (with_next 0%N);
    Some (h3, with_queue_tail seq_buf s).

(** [input_stream_seq_pop_tail] (lines 240-249). *)
Definition input_stream_seq_pop_tail (h : mem) (s : input_impl_seq) :
    option (mem * input_impl_seq * addr) :=
  let ret := queue_tail s in
  b ← h !! queue_tail s;
  let s1 := with_queue_tail (prev b) s in
  if (queue_tail s1 =? 0)%N then Some (h, with_queue 0%N s1, ret)
  else
    h1 ← store h (queue_tail s1) (with_next 0%N);
    Some (h1, s1, ret).

(** [input_stream_seq_prepend] (lines 251-263). *)
Definition input_stream_seq_prepend (h : mem) (s : input_impl_seq)
    (seq_buf : addr) : option (mem * input_impl_seq) :=
  if (queue s =? 0)%N then
    h1 ← store h seq_buf (with_next 0%N);
    h2 ← store h1 seq_buf (with_prev 0%N);
    Some (h2, with_queue_tail seq_buf (with_queue seq_buf s))
  else
    h1 ← store h (queue s) (with_prev seq_buf);
    h2 ← store h1 seq_buf (with_prev 0%N);
    h3 ← store h2 seq_buf (with_next (queue s));
    Some (h3, with_queue seq_buf s).

(** [input_append_tree] (lines 714-724); [ad] is the address [malloc]
    returns for the new buffer. *)
Definition input_append_tree (h : mem) (s : input_impl_seq)
    (ad : addr) (tree_ : addr) : option (mem * input_impl_seq) :=
  let h0 := new_seq_buf h ad in
  '(h1, s1) ← input_stream_seq_append h0 s ad;
  h2 ← store h1 ad (with_type SB_TOKEN);
  h3 ← store h2 ad (with_tree tree_);
  Some (h3, s1).

(** [input_undo_append_tree] (lines 726-734). *)
Definition input_undo_append_tree (h : mem) (s : input_impl_seq) :
    option (mem * input_impl_seq * addr) :=
  '(h1, s1, seq_buf) ← input_stream_seq_pop_tail h s;
  b ← h1 !! seq_buf;
  Some (free h1 seq_buf, s1, tree b).

(** [input_consume_tree] (lines 498-520).  The first loop, lines
    502-507, runs at most [fuel] rounds. *)
Fixpoint skip_streams (fuel : nat) (h : mem) (s : input_impl_seq) :
    option (mem * input_impl_seq) :=
  match fuel with
  | O => None
  | S fuel' =>
      if (queue s =? 0)%N then Some (h, s)
      else
        b ← h !! queue s;
        if is_stream b then
          '(h1, s1, seq_buf) ← input_stream_seq_pop_head h s;
          '(h2, s2) ← input_stream_stash_head h1 s1 seq_buf;
          skip_streams fuel' h2 s2
        else Some (h, s)
  end.

Definition input_consume_tree (fuel : nat) (h : mem) (s : input_impl_seq) :
    option (mem * input_impl_seq * addr) :=
  '(h1, s1) ← skip_streams fuel h s;
  (* assert( si->queue != 0 && ( type == SB_TOKEN || type == SB_IGNORE ) ) *)
  if (queue s1 =? 0)%N then None
  else
    b ← h1 !! queue s1;
    if is_tree b then
      '(h2, s2, seq_buf) ← input_stream_seq_pop_head h1 s1;
      '(h3, s3) ← input_stream_stash_head h2 s2 seq_buf;
      b' ← h3 !! seq_buf;
      Some (h3, s3, tree b')
    else None.

(** [input_undo_consume_tree] (lines 523-538).  [tree_id] reads the
    member [id] of a tree; a failing [assert] gives [None]. *)
Fixpoint input_undo_consume_tree (tree_id : addr -> Z) (fuel : nat)
    (h : mem) (s : input_impl_seq) (tree_ : addr) :
    option (mem * input_impl_seq) :=
  match fuel with
  | O => None
  | S fuel' =>
      '(s1, b) ← input_stream_pop_stash h s;
      '(h2, s2) ← input_stream_seq_prepend h s1 b;
      bb ← h2 !! b;
      if is_tree bb then
        if tree_id (tree bb) =? tree_id tree_ then Some (h2, s2) else None
      else input_undo_consume_tree tree_id fuel' h2 s2 tree_
  end.

(** ** The queue and the stash as lists *)

(** [seg h p l n]: the buffers at the addresses [l] are linked in this
    order through [next] and back through [prev]; [p] is the [prev] of the
    first and [n] the [next] of the last. *)
Fixpoint seg (h : mem) (p : addr) (l : list addr) (n : addr) : Prop :=
  match l with
  | [] => True
  | a :: r =>
      a <> 0%N
      /\ (exists b, h !! a = Some b /\ prev b = p /\ next b = hd n r)
      /\ seg h a r n
  end.

(** The queue of [s] is the list [l] of buffers, first to last. *)
Definition queue_is (h : mem) (s : input_impl_seq) (l : list addr) : Prop :=
  queue s = hd 0%N l /\ queue_tail s = List.last l 0%N /\ seg h 0%N l 0%N /\ NoDup l.

(** [chain h p l]: from [p] the buffers at the addresses [l] are linked in
    this order through [next], up to a null [next]. *)
Fixpoint chain (h : mem) (p : addr) (l : list addr) : Prop :=
  match l with
  | [] => p = 0%N
  | a :: r => p = a /\ a <> 0%N /\ exists b, h !! a = Some b /\ chain h (next b) r
  end.

(** The stash of [s] is the list [st] of buffers, latest first. *)
Definition stash_is (h : mem) (s : input_impl_seq) (st : list addr) : Prop :=
  chain h (stash s) st /\ NoDup st.

(** What a buffer carries besides its links. *)
Definition payload (b : seq_buf) : seq_buf_type * Z * addr * addr :=
  (type b, own_si b, tree b, si b).

(** Two stores hold the same buffers with the same payload. *)
Definition same_payload (h h' : mem) : Prop :=
  forall a : addr, payload <$> (h' !! a) = payload <$> (h !! a).

(** The members of [s] outside the queue are those of [s']. *)
Definition same_rest (s s' : input_impl_seq) : Prop :=
  stash s' = stash s /\ eof_mark s' = eof_mark s /\ position s' = position s.

(** The queue of [s] is [q] and its stash is [st], and no buffer is in
    both. *)
Definition seq_is (h : mem) (s : input_impl_seq) (q st : list addr) : Prop :=
  queue_is h s q /\ stash_is h s st /\ forall a, In a q -> ~ In a st.

(** The buffer at [a] satisfies [P]. *)
Definition buf_at (h : mem) (P : seq_buf -> bool) (a : addr) : Prop :=
  exists b, h !! a = Some b /\ P b = true.

(** An input with the sub-stream buffer 1 and the token buffer 2 in its
    queue and the buffer 5 on its stash; the buffer 3 is allocated and in
    neither. *)
Definition exampleMem : mem :=
  <[1%N := mkSeqBuf SB_SOURCE 0 0%N 9%N 2%N 0%N]>
    (<[2%N := mkSeqBuf SB_TOKEN 0 7%N 0%N 0%N 1%N]>
       (<[5%N := mkSeqBuf SB_ACCUM 1 0%N 8%N 0%N 0%N]>
          (<[3%N := zero_buf]> ∅))).

Definition exampleSeq : input_impl_seq :=
  mkSeq 1%N 2%N 5%N 0 (InputPos.mkInput 1 1 0).

(** An input with the buffer 1 in its queue and, on its stash, the
    accumulated buffer 5 above the token buffer 2 above the sub-stream
    buffer 6. *)
Definition exampleMem2 : mem :=
  <[1%N := mkSeqBuf SB_SOURCE 0 0%N 9%N 0%N 0%N]>
    (<[5%N := mkSeqBuf SB_ACCUM 1 0%N 8%N 2%N 0%N]>
       (<[2%N := mkSeqBuf SB_TOKEN 0 7%N 0%N 6%N 0%N]>
          (<[6%N := mkSeqBuf SB_SOURCE 0 0%N 4%N 0%N 0%N]> ∅))).

Definition exampleSeq2 : input_impl_seq :=
  mkSeq 1%N 1%N 5%N 0 (InputPos.mkInput 1 1 0).

End SeqQueue.

(* ===================================================================== *)
(** * Facts on machine integers *)
(* ===================================================================== *)

Section MachIntFacts.
Import MachInt.

Lemma wrap_int_id (z : Z) : in_int z -> wrap_int z = z.
Proof.
  unfold in_int, INT_MIN, INT_MAX, wrap_int, wrap. intros Hz.
  rewrite Z.mod_small; lia.
Qed.

Lemma wrap_long_id (z : Z) : in_long z -> wrap_long z = z.
Proof.
  unfold in_long, LONG_MIN, LONG_MAX, wrap_long, wrap. intros Hz.
  rewrite Z.mod_small; lia.
Qed.

Lemma wrap_long_range (z : Z) : in_long (wrap_long z).
Proof.
  unfold in_long, LONG_MIN, LONG_MAX, wrap_long, wrap.
  pose proof (Z.mod_pos_bound (z + 2 ^ (64 - 1)) (2 ^ 64) ltac:(lia)). lia.
Qed.

(** Wrapping is a congruence for addition: under an outer wrap, a wrapped
    operand may be replaced by the unwrapped one. *)
Lemma wrap_long_add_l (a b : Z) :
  wrap_long (wrap_long a + b) = wrap_long (a + b).
Proof.
  unfold wrap_long, wrap.
  replace (2 ^ (64 - 1)) with 9223372036854775808 by reflexivity.
  replace (2 ^ 64) with 18446744073709551616 by reflexivity.
  f_equal.
  replace ((a + 9223372036854775808) mod 18446744073709551616
           - 9223372036854775808 + b + 9223372036854775808)
    with ((a + 9223372036854775808) mod 18446744073709551616 + b) by lia.
  rewrite Zplus_mod_idemp_l. f_equal. lia.
Qed.

End MachIntFacts.

(* ===================================================================== *)
(** * Fault kinds *)
(* ===================================================================== *)

Section FaultFacts.
Import Faults.

(** The datum handed to the constructor of [PriorInteraction] and of
    [CondCostTooHigh] is stored in the value. *)
Lemma raise_PriorInteraction_members (d : Z) :
  members (raise KPriorInteraction d) = [d].
Proof. reflexivity. Qed.

Lemma raise_CondCostTooHigh_members (d : Z) :
  members (raise KCondCostTooHigh d) = [d].
Proof. reflexivity. Qed.

(** The three empty structs have one value each, whatever they are raised
    for. *)
Lemma raise_empty_struct (k : FaultKind) (d d' : Z) :
  carriesDatum k = false -> raise k d = raise k d'.
Proof. destruct k; simpl; intros Hk; congruence. Qed.

(** C7, as stated, fails: a [TooManyStates] value raised for the datum 7
    has no member to hold it, so not every fault kind names its datum. *)
Lemma TooManyStates_names_no_datum :
  members (raise Faults.KTooManyStates 7) = []
  /\ ~ (forall k : Faults.FaultKind, Faults.namesDatum k).
Proof.
  split; [reflexivity|].
  intros Hall. specialize (Hall KTooManyStates 7). simpl in Hall. exact Hall.
Qed.

(** C7, amended: exactly two of the five fault kinds, [PriorInteraction]
    and [CondCostTooHigh], carry the datum they were raised for (in the
    member [id], respectively [costId]); [TooManyStates], [RepetitionError]
    and [TransDensity] are empty structs and carry nothing. *)
Theorem fault_kinds_naming_their_datum :
  forall k : Faults.FaultKind,
    (Faults.namesDatum k <-> Faults.carriesDatum k = true)
    /\ (forall d : Z,
          Faults.members (Faults.raise k d)
          = if Faults.carriesDatum k then [d] else []).
Proof.
  intros k. split.
  - split.
    + intros Hn. specialize (Hn 0). destruct k; simpl in *; auto; contradiction.
    + intros Hc d. destruct k; simpl in *; try discriminate; auto.
  - intros d. destruct k; reflexivity.
Qed.

End FaultFacts.

(* ===================================================================== *)
(** * Action reference counters *)
(* ===================================================================== *)

Section ActionFacts.
Import MachInt ActionM.

(** C3, as stated, fails: for an action whose only reference is a condition
    reference, [numRefs] is 0 while the six counters sum to 1. *)
Lemma numRefs_omits_numCondRefs :
  ActionM.numRefs condOnlyAction = 0
  /\ ActionM.sumOfSixCounters condOnlyAction = 1.
Proof. split; reflexivity. Qed.

Lemma wrap_int_add_l (a b : Z) :
  wrap_int (wrap_int a + b) = wrap_int (a + b).
Proof.
  unfold wrap_int, wrap.
  replace (2 ^ (32 - 1)) with 2147483648 by reflexivity.
  replace (2 ^ 32) with 4294967296 by reflexivity.
  f_equal.
  replace ((a + 2147483648) mod 4294967296 - 2147483648 + b + 2147483648)
    with ((a + 2147483648) mod 4294967296 + b) by lia.
  rewrite Zplus_mod_idemp_l. f_equal. lia.
Qed.

(** C3, amended: for every action, [numRefs] returns the [int] sum of the
    five counters [numTransRefs], [numToStateRefs], [numFromStateRefs],
    [numEofRefs] and [numNfaRefs], which is their sum whenever that sum is
    an [int]; [numCondRefs] is not part of it and is not read: whatever it
    holds, [numRefs] is the same. *)
Theorem numRefs_sums_five_counters :
  forall a : ActionM.Action,
    ActionM.numRefs a = wrap_int (ActionM.sumOfFiveCounters a)
    /\ (in_int (ActionM.sumOfFiveCounters a) ->
        ActionM.numRefs a = ActionM.sumOfFiveCounters a
        /\ ActionM.numRefs a = ActionM.sumOfSixCounters a - ActionM.numCondRefs a)
    /\ (forall v : Z,
          ActionM.numRefs
            (mkAction (actionId a) (numTransRefs a) (numToStateRefs a)
               (numFromStateRefs a) (numEofRefs a) v (numNfaRefs a) (condId a))
          = ActionM.numRefs a).
Proof.
  intros a.
  assert (E : numRefs a = wrap_int (sumOfFiveCounters a)).
  { unfold numRefs, sumOfFiveCounters.
    rewrite wrap_int_add_l, <- Z.add_assoc, wrap_int_add_l, <- Z.add_assoc,
      wrap_int_add_l.
    f_equal. lia. }
  split; [exact E|]. split.
  - intros Hin. rewrite E, (wrap_int_id _ Hin).
    split; [reflexivity|]. unfold sumOfFiveCounters, sumOfSixCounters. lia.
  - intros v. reflexivity.
Qed.

(** An action whose [numCondRefs] is [INT_MAX] and that is referenced once
    beside. *)
Lemma numRefs_sums_five_counters_witness :
  in_int (ActionM.sumOfFiveCounters (ActionM.mkAction 0 1 0 0 0 2147483647 0 0))
  /\ ActionM.numRefs (ActionM.mkAction 0 1 0 0 0 2147483647 0 0) = 1.
Proof.
  assert (Hr : in_int (ActionM.sumOfFiveCounters
                         (ActionM.mkAction 0 1 0 0 0 2147483647 0 0))).
  { unfold in_int, sumOfFiveCounters, INT_MIN, INT_MAX; simpl; lia. }
  split; [exact Hr|].
  rewrite (proj1 (proj1 (proj2 (numRefs_sums_five_counters _)) Hr)). reflexivity.
Defined.

End ActionFacts.

(* ===================================================================== *)
(** * Condition spaces *)
(* ===================================================================== *)

Section CondSpaceFacts.
Import MachInt ActionM CondSpaceM.

(** C5, as stated, fails: for a condition space over 31 guards the [int]
    shift [1 << 31] wraps to [INT_MIN], which is not 2^31. *)
Lemma fullSize_31_guards :
  CondSpaceM.fullSize (mkCondSpace (guardsUpTo 31) 0) = - 2147483648
  /\ 2 ^ Z.of_nat (length (guardsUpTo 31)) = 2147483648.
Proof. split; vm_compute; reflexivity. Qed.

(** C5, amended: for every condition space with fewer than 31 guard
    actions in its condSet, [fullSize] equals 2 raised to their number. *)
Theorem fullSize_is_power_of_two :
  forall cs : CondSpaceM.CondSpace,
    (length (CondSpaceM.condSet cs) < 31)%nat ->
    CondSpaceM.fullSize cs = 2 ^ Z.of_nat (length (CondSpaceM.condSet cs)).
Proof.
  intros cs Hlen. unfold fullSize, shl_int.
  rewrite Z.shiftl_1_l. apply wrap_int_id.
  unfold in_int, INT_MIN, INT_MAX.
  assert (0 < 2 ^ Z.of_nat (length (condSet cs))) by (apply Z.pow_pos_nonneg; lia).
  assert (2 ^ Z.of_nat (length (condSet cs)) <= 2 ^ 30)
    by (apply Z.pow_le_mono_r; lia).
  lia.
Qed.

Lemma fullSize_is_power_of_two_witness :
  (length (CondSpaceM.condSet (mkCondSpace (guardsUpTo 3) 0)) < 31)%nat
  /\ CondSpaceM.fullSize (mkCondSpace (guardsUpTo 3) 0) = 8.
Proof.
  assert (Hl : (length (CondSpaceM.condSet (mkCondSpace (guardsUpTo 3) 0)) < 31)%nat)
    by (simpl; lia).
  split; [exact Hl|].
  rewrite (fullSize_is_power_of_two _ Hl). reflexivity.
Defined.

End CondSpaceFacts.

(* ===================================================================== *)
(** * The transition discriminator *)
(* ===================================================================== *)

Section TransFacts.
Import CondSpaceM TransM.

(** C6: [plain()] holds iff [condSpace] is null; [tdap()] is the transition
    itself exactly when [plain()] holds and null otherwise; [tcap()] is the
    transition itself exactly when [plain()] does not hold and null
    otherwise; so exactly one of [tcap()] and [tdap()] is non-null. *)
Theorem transAp_tagged_union :
  forall t : TransM.TransAp,
    (TransM.plain t = true <-> TransM.condSpace t = None)
    /\ TransM.tdap t = (if TransM.plain t then Some t else None)
    /\ TransM.tcap t = (if TransM.plain t then None else Some t)
    /\ ((TransM.tcap t = None /\ TransM.tdap t = Some t)
        \/ (TransM.tcap t = Some t /\ TransM.tdap t = None)).
Proof.
  intros t. unfold plain, tdap, tcap.
  destruct (condSpace t) as [cs|]; repeat split; auto; discriminate.
Qed.

End TransFacts.

(* ===================================================================== *)
(** * Input position: update followed by undo *)
(* ===================================================================== *)

Section InputPosFacts.
Import MachInt InputPos.

Lemma update_chars_line (data : list Z) :
  forall s : input_impl_seq,
    in_long (line s) ->
    line (fold_left update_char data s) = wrap_long (line s + newlines data).
Proof.
  induction data as [|c r IH]; intros s Hs; simpl.
  - rewrite Z.add_0_r. symmetry. apply wrap_long_id, Hs.
  - unfold update_char at 2. destruct (c =? newline) eqn:Hc; simpl.
    + rewrite IH by (simpl; apply wrap_long_range). simpl.
      rewrite wrap_long_add_l. f_equal. lia.
    + rewrite IH by exact Hs. reflexivity.
Qed.

Lemma undo_chars_line (data : list Z) :
  forall s : input_impl_seq,
    in_long (line s) ->
    line (fold_left undo_char data s) = wrap_long (line s + - newlines data).
Proof.
  induction data as [|c r IH]; intros s Hs; simpl.
  - rewrite Z.add_0_r. symmetry. apply wrap_long_id, Hs.
  - unfold undo_char at 2. destruct (c =? newline) eqn:Hc; simpl.
    + rewrite IH by (simpl; apply wrap_long_range). simpl.
      replace (line s - 1) with (line s + - 1) by lia.
      rewrite wrap_long_add_l. f_equal. lia.
    + rewrite IH by exact Hs. reflexivity.
Qed.

Lemma update_chars_byte (data : list Z) :
  forall s : input_impl_seq, byte (fold_left update_char data s) = byte s.
Proof.
  induction data as [|c r IH]; intros s; simpl; [reflexivity|].
  rewrite IH. unfold update_char. destruct (c =? newline); reflexivity.
Qed.

Lemma undo_chars_byte (data : list Z) :
  forall s : input_impl_seq, byte (fold_left undo_char data s) = byte s.
Proof.
  induction data as [|c r IH]; intros s; simpl; [reflexivity|].
  rewrite IH. unfold undo_char. destruct (c =? newline); reflexivity.
Qed.

(** [undo_position_seq] has no assignment to [column]. *)
Lemma undo_chars_column (data : list Z) :
  forall s : input_impl_seq, column (fold_left undo_char data s) = column s.
Proof.
  induction data as [|c r IH]; intros s; simpl; [reflexivity|].
  rewrite IH. unfold undo_char. destruct (c =? newline); reflexivity.
Qed.

(** The loops come to their end exactly on the blocks whose last index
    the [int] counter reaches. *)
Lemma update_loop_runs (data : list Z) :
  forall (i : Z) (s : input_impl_seq),
    i <= INT_MAX ->
    update_loop data i s
    = if i + Z.of_nat (length data) <=? INT_MAX
      then Some (fold_left update_char data s) else None.
Proof.
  induction data as [|c r IH]; intros i s Hi; cbn [update_loop fold_left length].
  - destruct (Z.leb_spec (i + Z.of_nat 0) INT_MAX); [reflexivity | lia].
  - destruct (Z.ltb_spec i INT_MAX).
    + rewrite IH by lia.
      replace (i + 1 + Z.of_nat (length r)) with (i + Z.of_nat (S (length r))) by lia.
      reflexivity.
    + destruct (Z.leb_spec (i + Z.of_nat (S (length r))) INT_MAX); [lia | reflexivity].
Qed.

Lemma undo_loop_runs (data : list Z) :
  forall (i : Z) (s : input_impl_seq),
    i <= INT_MAX ->
    undo_loop data i s
    = if i + Z.of_nat (length data) <=? INT_MAX
      then Some (fold_left undo_char data s) else None.
Proof.
  induction data as [|c r IH]; intros i s Hi; cbn [undo_loop fold_left length].
  - destruct (Z.leb_spec (i + Z.of_nat 0) INT_MAX); [reflexivity | lia].
  - destruct (Z.ltb_spec i INT_MAX).
    + rewrite IH by lia.
      replace (i + 1 + Z.of_nat (length r)) with (i + Z.of_nat (S (length r))) by lia.
      reflexivity.
    + destruct (Z.leb_spec (i + Z.of_nat (S (length r))) INT_MAX); [lia | reflexivity].
Qed.

Lemma INT_MAX_pos : 0 <= INT_MAX.
Proof. unfold INT_MAX. lia. Qed.

Lemma update_position_seq_runs (s : input_impl_seq) (data : list Z) :
  Z.of_nat (length data) <= INT_MAX ->
  update_position_seq s data = Some (position_after s data).
Proof.
  intros Hn. unfold update_position_seq.
  rewrite update_loop_runs by apply INT_MAX_pos. rewrite Z.add_0_l.
  destruct (Z.leb_spec (Z.of_nat (length data)) INT_MAX); [reflexivity | lia].
Qed.

Lemma undo_position_seq_runs (s : input_impl_seq) (data : list Z) :
  Z.of_nat (length data) <= INT_MAX ->
  undo_position_seq s data = Some (position_before s data).
Proof.
  intros Hn. unfold undo_position_seq.
  rewrite undo_loop_runs by apply INT_MAX_pos. rewrite Z.add_0_l.
  destruct (Z.leb_spec (Z.of_nat (length data)) INT_MAX); [reflexivity | lia].
Qed.



(** What the pair does restore: the line and the byte offset come back,
    also across line boundaries. *)
Lemma position_before_after_line_and_byte (s : input_impl_seq) (data : list Z) :
  wf_input s ->
  line (position_before (position_after s data) data) = line s
  /\ byte (position_before (position_after s data) data) = byte s.
Proof.
  intros (Hl & _ & Hb). unfold position_before, position_after. simpl. split.
  - rewrite undo_chars_line; simpl.
    + rewrite update_chars_line by exact Hl.
      rewrite wrap_long_add_l.
      replace (line s + newlines data + - newlines data) with (line s) by lia.
      apply wrap_long_id, Hl.
    + rewrite update_chars_line by exact Hl. apply wrap_long_range.
  - rewrite undo_chars_byte. simpl. rewrite update_chars_byte.
    replace (wrap_long (byte s + Z.of_nat (length data)) - Z.of_nat (length data))
      with (wrap_long (byte s + Z.of_nat (length data)) + - Z.of_nat (length data)) by lia.
    rewrite wrap_long_add_l.
    replace (byte s + Z.of_nat (length data) + - Z.of_nat (length data)) with (byte s) by lia.
    apply wrap_long_id, Hb.
Qed.

(** The column after the undo is the column the update left. *)
Lemma position_before_keeps_column (s : input_impl_seq) (data : list Z) :
  column (position_before s data) = column s.
Proof.
  unfold position_before. simpl. apply undo_chars_column.
Qed.

Lemma undo_update_restores_line_and_byte (s : input_impl_seq) (data : list Z) :
  wf_input s ->
  Z.of_nat (length data) <= INT_MAX ->
  exists s1 s2,
    update_position_seq s data = Some s1
    /\ undo_position_seq s1 data = Some s2
    /\ line s2 = line s /\ byte s2 = byte s /\ column s2 = column s1.
Proof.
  intros Hw Hn. exists (position_after s data), (position_before (position_after s data) data).
  split; [apply update_position_seq_runs, Hn|].
  split; [apply undo_position_seq_runs, Hn|].
  destruct (position_before_after_line_and_byte s data Hw) as (Hl & Hb).
  split; [exact Hl|]. split; [exact Hb|]. apply position_before_keeps_column.
Qed.

(** C8 at two blocks, from the position line 1, column 1, byte 0.  For the
    one-character block "a" the column is 2 after update and undo, not 1.
    For the block "a\nb", which crosses a line boundary, line and byte come
    back to 1 and 0 and the column is 2, not 1. *)
Theorem undo_position_seq_not_position_accurate :
  (InputPos.update_position_seq (mkInput 1 1 0) [97]
     ≫= fun s => InputPos.undo_position_seq s [97])
  = Some (mkInput 1 2 0)
  /\ (InputPos.update_position_seq (mkInput 1 1 0) [97; 10; 98]
        ≫= fun s => InputPos.undo_position_seq s [97; 10; 98])
     = Some (mkInput 1 2 0).
Proof. split; vm_compute; reflexivity. Qed.

End InputPosFacts.

(* ===================================================================== *)
(** * addInTrans: merging a transition with itself *)
(* ===================================================================== *)

Section AddInTransFacts.
Import AddInTrans.

Context {ActionTable PriorTable LmActionTable : Type}.
Variable setActions : ActionTable -> ActionTable -> ActionTable.
Variable setPriors : PriorTable -> PriorTable -> PriorTable.
Variable lmSetActions : LmActionTable -> LmActionTable -> LmActionTable.

Local Abbreviation TD := (TransData ActionTable PriorTable LmActionTable).

(** The effect of one call, for any two valid pointers. *)
Lemma addInTrans_effect (h : gmap addr TD) (destTrans srcTrans : addr) (d s : TD) :
  h !! destTrans = Some d ->
  h !! srcTrans = Some s ->
  addInTrans setActions setPriors lmSetActions h destTrans srcTrans
  = Some (<[destTrans :=
        mkTransData (fromState d) (toState d)
          (setActions (actionTable d) (actionTable s))
          (if decide (srcTrans = destTrans) then priorTable d
           else setPriors (priorTable d) (priorTable s))
          (lmSetActions (lmActionTable d) (lmActionTable s))]> h).
Proof.
  intros Hd Hs. unfold addInTrans.
  destruct (decide (srcTrans = destTrans)) as [E | Hne].
  - subst srcTrans. assert (s = d) by congruence. subst s.
    rewrite Hd. simpl. rewrite lookup_insert_eq. simpl.
    rewrite insert_insert_eq. reflexivity.
  - assert (Hne' : destTrans <> srcTrans) by (intros E; apply Hne; symmetry; exact E).
    rewrite Hs, Hd. simpl.
    rewrite (lookup_insert_ne _ destTrans srcTrans) by exact Hne'. rewrite Hs. simpl.
    rewrite lookup_insert_eq. simpl.
    rewrite (lookup_insert_ne _ destTrans srcTrans) by exact Hne'.
    rewrite (lookup_insert_ne _ destTrans srcTrans) by exact Hne'. rewrite Hs. simpl.
    rewrite lookup_insert_eq. simpl.
    rewrite !insert_insert_eq. reflexivity.
Qed.

(** C10: when [addInTrans] is called with [destTrans] equal to [srcTrans],
    the priority table of the transition is left as it was, and only its
    action table and its LM action table change, each to its union with a
    copy of itself; every other transition of the store is left as it was.
    [setPriors] is applied only when the two transitions are distinct. *)
Theorem addInTrans_self_keeps_priorTable
    (h : gmap addr TD) (destTrans srcTrans : addr) (d s : TD) :
  h !! destTrans = Some d ->
  h !! srcTrans = Some s ->
  exists h' d',
    AddInTrans.addInTrans setActions setPriors lmSetActions h destTrans srcTrans
      = Some h'
    /\ h' !! destTrans = Some d'
    /\ (forall p, p <> destTrans -> h' !! p = h !! p)
    /\ fromState d' = fromState d /\ toState d' = toState d
    /\ actionTable d' = setActions (actionTable d) (actionTable s)
    /\ lmActionTable d' = lmSetActions (lmActionTable d) (lmActionTable s)
    /\ (srcTrans = destTrans ->
          s = d /\ priorTable d' = priorTable d)
    /\ (srcTrans <> destTrans ->
          priorTable d' = setPriors (priorTable d) (priorTable s)).
Proof.
  intros Hd Hs. eexists _, _. split; [apply (addInTrans_effect h _ _ d s Hd Hs)|].
  split; [apply lookup_insert_eq|].
  split; [intros p Hp; apply lookup_insert_ne; intros E; apply Hp; symmetry; exact E|].
  simpl. repeat split; auto.
  - congruence.
  - destruct (decide (srcTrans = destTrans)); congruence.
  - intros Hne. destruct (decide (srcTrans = destTrans)); congruence.
Qed.

End AddInTransFacts.

(* ===================================================================== *)
(** * RangePairIter: the event stream *)
(* ===================================================================== *)

Section RangePairIterFacts.
Import ItemIter RangePairIter RangeSpec.
Context {Item1 Item2 : Type} `{R1 : RangeItem Item1} `{R2 : RangeItem Item2}.

Local Abbreviation iter := (RangePairIter.t Item1 Item2).

Lemma linked_load {Item : Type} `{RangeItem Item} (nt : NextTrans Item) :
  linked (load nt).
Proof. unfold linked, load. destruct (trans nt) eqn:E; simpl; rewrite ?E; reflexivity. Qed.

Lemma pendingOf_load {Item : Type} `{RangeItem Item} (nt : NextTrans Item) :
  pendingOf (load nt) = suffixSegs (trans nt).
Proof. unfold pendingOf, load. destruct (trans nt) eqn:E; simpl; rewrite ?E; reflexivity. Qed.

Lemma pendingOf_increment {Item : Type} `{RangeItem Item} (nt : NextTrans Item) :
  pendingOf (increment nt) = suffixSegs (next nt).
Proof. unfold increment. rewrite pendingOf_load. reflexivity. Qed.

Lemma pendingOf_set {Item : Type} `{RangeItem Item} (l : list Item) (nt : NextTrans Item) :
  pendingOf (set l nt) = suffixSegs l.
Proof. unfold set. rewrite pendingOf_load. reflexivity. Qed.

Lemma unevenLows_le_1 (A : list (Seg Item1)) (B : list (Seg Item2)) :
  (unevenLows A B <= 1)%nat.
Proof. unfold unevenLows. destruct A, B; try lia. destruct (_ =? _); lia. Qed.

Lemma scan_s1_at_end (h : iter) : trans (s1Tel h) = [] -> scan h = drainS2 h.
Proof. intros E. unfold scan. rewrite E. reflexivity. Qed.

Lemma scan_s2_at_end (h : iter) : trans (s2Tel h) = [] -> scan h = drainS1 h.
Proof.
  intros E. unfold scan, drainS1, drainS2. rewrite E.
  destruct (trans (s1Tel h)); reflexivity.
Qed.

#[local] Arguments scan : simpl never.
#[local] Arguments drainS1 : simpl never.
#[local] Arguments drainS2 : simpl never.

Ltac key_cases :=
  unfold KeyOps.lt, KeyOps.increment, KeyOps.decrement in *;
  repeat match goal with
  | |- context [ ?a <? ?b ] => destruct (Z.ltb_spec a b)
  end.

Ltac next_head IH :=
  eapply IH;
  [ lia
  | split; first [ apply linked_load | reflexivity ]
  | first [ apply pendingOf_increment | reflexivity ]
  | first [ apply pendingOf_increment | reflexivity ]
  | ].

Ltac rounds_arith :=
  unfold rounds; cbn [length next];
  match goal with
  | |- context [unevenLows ?A ?B] => pose proof (unevenLows_le_1 A B)
  end; lia.

Lemma walk_of_scan :
  forall (n : nat) (h : iter) A B,
    headWf h ->
    pendingOf (s1Tel h) = A ->
    pendingOf (s2Tel h) = B ->
    (2 * rounds A B <= n)%nat ->
    Walk A B (trace n (scan h)).
Proof.
  induction n as [n IH] using lt_wf_ind. intros h A B [W1 W2] HA HB Hn.
  destruct h as [l1 l2 st us [lo1 hi1 t1 n1] [lo2 hi2 t2 n2] bl bh bt1 bt2].
  unfold linked in W1, W2. simpl in W1, W2. subst n1 n2.
  destruct t1 as [|x1 r1], t2 as [|x2 r2];
    cbn in HA, HB; subst A B.
  - (* both at the end *)
    destruct n; simpl; constructor.
  - (* s1 at the end *)
    unfold rounds in Hn. cbn [length unevenLows] in Hn.
    destruct n as [|n]; [lia|]. rewrite scan_s1_at_end by reflexivity. unfold drainS2 at 1. cbn.
    rewrite <- scan_s1_at_end by reflexivity.
    apply Walk_consumeS2. next_head IH.
    unfold rounds. cbn [length unevenLows next]. lia.
  - (* s2 at the end *)
    unfold rounds in Hn. cbn [length unevenLows] in Hn.
    destruct n as [|n]; [lia|]. rewrite scan_s2_at_end by reflexivity. unfold drainS1 at 1. cbn.
    rewrite <- scan_s2_at_end by reflexivity.
    apply Walk_consumeS1. next_head IH.
    unfold rounds. cbn [length next].
    pose proof (unevenLows_le_1 (suffixSegs r1) (@nil (Seg Item2))). lia.
  - unfold rounds in Hn. cbn [length unevenLows seg_low segOf lowKey] in Hn.
    assert (Hu : ((if (lo1 =? lo2)%Z then 0 else 1) <= 1)%nat)
      by (destruct (lo1 =? lo2); lia).
    unfold scan. cbn [s1Tel s2Tel trans iter_end lowKey highKey].
    key_cases.
    + (* only in s1 *)
      destruct n as [|n]; [lia|]. cbn.
      apply Walk_onlyInS1; [cbn; lia|]. next_head IH. rounds_arith.
    + (* only in s2 *)
      destruct n as [|n]; [lia|]. cbn.
      apply Walk_onlyInS2; [cbn; lia | cbn; lia |]. next_head IH. rounds_arith.
    + (* s1 sticks out *)
      destruct (Z.eqb_spec lo1 lo2); [lia|].
      destruct n as [|[|n]]; [lia | lia |]. cbn.
      apply (Walk_s1SticksOut (mkSeg lo1 hi1 (x1 :: r1)) _ (mkSeg lo2 hi2 (x2 :: r2)));
        [cbn; lia | cbn; lia | cbn; lia |].
      next_head IH.
      unfold rounds. cbn [length unevenLows seg_low]. rewrite Z.eqb_refl. lia.
    + (* s2 sticks out *)
      destruct (Z.eqb_spec lo1 lo2); [lia|].
      destruct n as [|[|n]]; [lia | lia |]. cbn.
      apply (Walk_s2SticksOut (mkSeg lo1 hi1 (x1 :: r1)) _ (mkSeg lo2 hi2 (x2 :: r2)));
        [cbn; lia | cbn; lia | cbn; lia |].
      next_head IH.
      unfold rounds. cbn [length unevenLows seg_low]. rewrite Z.eqb_refl. lia.
    + (* s2 drags behind *)
      destruct (Z.eqb_spec lo1 lo2); [|lia].
      destruct n as [|[|n]]; [lia | lia |]. cbn.
      apply (Walk_s2DragsBehind (mkSeg lo1 hi1 (x1 :: r1)) _ (mkSeg lo2 hi2 (x2 :: r2)));
        [cbn; lia | cbn; lia | cbn; lia |].
      next_head IH. rounds_arith.
    + (* s1 drags behind *)
      destruct (Z.eqb_spec lo1 lo2); [|lia].
      destruct n as [|[|n]]; [lia | lia |]. cbn.
      apply (Walk_s1DragsBehind (mkSeg lo1 hi1 (x1 :: r1)) _ (mkSeg lo2 hi2 (x2 :: r2)));
        [cbn; lia | cbn; lia | cbn; lia |].
      next_head IH. rounds_arith.
    + (* exact overlap *)
      destruct n as [|n]; [lia|]. cbn.
      apply Walk_exactOverlap; [cbn; lia | cbn; lia | cbn; lia |]. next_head IH.
      rounds_arith.
Qed.

(** ** What a walk guarantees *)

Lemma walk_sortedFrom (A : list (Seg Item1)) (B : list (Seg Item2)) evs :
  Walk A B evs ->
  forall b : KeyOps.Key,
    sortedFrom b (map segRange A) ->
    sortedFrom b (map segRange B) ->
    sortedFrom b (segments evs).
Proof.
  induction 1; intros bd HA HB; cbn in *;
    repeat match goal with
    | s : Seg _ |- _ => destruct s
    end; cbn in *; try tauto;
    repeat split; try lia;
    apply IHWalk; cbn; repeat split; try tauto; try lia; subst; tauto.
Qed.


Lemma sortedFrom_all_above (b : KeyOps.Key) (l : list (KeyOps.Key * KeyOps.Key)) :
  sortedFrom b l -> Forall (fun s => b < fst s /\ fst s <= snd s) l.
Proof.
  revert b. induction l as [|[lo hi] r IH]; intros b Hs; constructor.
  - cbn in *. lia.
  - cbn in Hs. destruct Hs as (Hb & Hlh & Hr).
    eapply List.Forall_impl; [|apply IH, Hr]. cbn. intros [lo' hi'] ?. cbn in *. lia.
Qed.

Lemma sortedFrom_StronglySorted (b : KeyOps.Key) (l : list (KeyOps.Key * KeyOps.Key)) :
  sortedFrom b l ->
  StronglySorted segBefore l /\ Forall (fun s => fst s <= snd s) l.
Proof.
  revert b. induction l as [|[lo hi] r IH]; intros b Hs.
  - split; constructor.
  - cbn in Hs. destruct Hs as (Hb & Hlh & Hr).
    destruct (IH _ Hr) as [IH1 IH2]. split; constructor; auto.
    eapply List.Forall_impl; [|apply sortedFrom_all_above, Hr].
    intros [lo' hi'] ?. unfold segBefore. cbn in *. lia.
Qed.

Lemma sortedFrom_app_l (b : KeyOps.Key) (l r : list (KeyOps.Key * KeyOps.Key)) :
  sortedFrom b (l ++ r) -> sortedFrom b l.
Proof.
  revert b. induction l as [|[lo hi] l IH]; intros b Hs; cbn in *; [exact I|].
  destruct Hs as (? & ? & Hr). repeat split; auto.
Qed.

Lemma sortedDisjoint_from (l : list (KeyOps.Key * KeyOps.Key)) (b : KeyOps.Key) :
  sortedDisjoint l ->
  match l with [] => True | (lo, _) :: _ => b < lo end ->
  sortedFrom b l.
Proof. destruct l as [|[lo hi] r]; cbn; tauto. Qed.

(** Two sorted lists lie above a common key. *)
Lemma sortedDisjoint_common_bound (l l' : list (KeyOps.Key * KeyOps.Key)) :
  sortedDisjoint l -> sortedDisjoint l' ->
  exists b, sortedFrom b l /\ sortedFrom b l'.
Proof.
  intros Hl Hl'.
  destruct l as [|[lo hi] r], l' as [|[lo' hi'] r'].
  - exists 0. split; exact I.
  - exists (lo' - 1). split; [exact I|]. apply sortedDisjoint_from; [exact Hl'|lia].
  - exists (lo - 1). split; [|exact I]. apply sortedDisjoint_from; [exact Hl|lia].
  - exists (Z.min lo lo' - 1). split; apply sortedDisjoint_from; auto; lia.
Qed.

Lemma segRange_suffixSegs {Item : Type} `{RangeItem Item} (l : list Item) :
  map segRange (suffixSegs l) = map rangeOf l.
Proof. induction l as [|x r IH]; cbn; [reflexivity|]. rewrite IH. reflexivity. Qed.

Lemma length_suffixSegs {Item : Type} `{RangeItem Item} (l : list Item) :
  length (suffixSegs l) = length l.
Proof. induction l as [|x r IH]; cbn; [reflexivity|]. rewrite IH. reflexivity. Qed.

(** ** The event stream and its prefixes *)

Lemma trace_firstn (n k : nat) :
  forall it : iter, trace n it = firstn n (trace (n + k) it).
Proof.
  induction n as [|n IH]; intros it; [reflexivity|].
  cbn [trace Nat.add]. destruct (is_end it); cbn [firstn]; [reflexivity|].
  f_equal. apply IH.
Qed.

Lemma segments_app (e1 e2 : list (Event Item1 Item2)) :
  segments (e1 ++ e2) = segments e1 ++ segments e2.
Proof.
  induction e1 as [|e r IH]; cbn; [reflexivity|].
  unfold segments in *. cbn. destruct (segmentOf e); cbn; rewrite IH; reflexivity.
Qed.

Lemma new_is_scan (l1 : list Item1) (l2 : list Item2) :
  new l1 l2 = scan (firstHead l1 l2).
Proof. reflexivity. Qed.

Lemma walk_of_new (l1 : list Item1) (l2 : list Item2) (n : nat) :
  (fuel l1 l2 <= n)%nat ->
  Walk (suffixSegs l1) (suffixSegs l2) (trace n (new l1 l2)).
Proof.
  intros Hn. rewrite new_is_scan. apply walk_of_scan.
  - split; apply linked_load.
  - apply pendingOf_set.
  - apply pendingOf_set.
  - unfold rounds, fuel in *. rewrite !length_suffixSegs.
    pose proof (unevenLows_le_1 (suffixSegs l1) (suffixSegs l2)). lia.
Qed.

(** C1: for two sorted lists of pairwise disjoint ranges, the segments the
    iterator reports under [RangeInS1], [RangeInS2] and [RangeOverlap] are
    non-empty, pairwise non-overlapping and strictly increasing in [lowKey]
    (each segment ends before every later one starts), over the whole event
    stream: over the events of the first [n] rounds, for every [n]. *)
Theorem rangePairIter_segments_increasing (l1 : list Item1) (l2 : list Item2) :
  SortedDisjoint l1 ->
  SortedDisjoint l2 ->
  forall n : nat,
    StronglySorted segBefore (segments (trace n (new l1 l2)))
    /\ Forall (fun s => fst s <= snd s) (segments (trace n (new l1 l2))).
Proof.
  intros H1 H2 n.
  destruct (sortedDisjoint_common_bound _ _ H1 H2) as (b & Hb1 & Hb2).
  apply (sortedFrom_StronglySorted b).
  rewrite (trace_firstn n (fuel l1 l2)).
  apply sortedFrom_app_l with (r := segments (skipn n (trace (n + fuel l1 l2) (new l1 l2)))).
  rewrite <- segments_app, firstn_skipn.
  apply (walk_sortedFrom (suffixSegs l1) (suffixSegs l2)).
  - apply walk_of_new. lia.
  - rewrite segRange_suffixSegs. exact Hb1.
  - rewrite segRange_suffixSegs. exact Hb2.
Qed.

Ltac bound_unevenLows :=
  repeat match goal with
  | |- context [unevenLows ?X ?Y] =>
      first [is_var X | is_var Y];
      let u := fresh "u" in
      pose proof (unevenLows_le_1 X Y); set (u := unevenLows X Y) in *; clearbody u
  | H : context [unevenLows ?X ?Y] |- _ =>
      first [is_var X | is_var Y];
      let u := fresh "u" in
      pose proof (unevenLows_le_1 X Y); set (u := unevenLows X Y) in *; clearbody u
  end.

Lemma walk_length (A : list (Seg Item1)) (B : list (Seg Item2)) evs :
  Walk A B evs -> (length evs <= 2 * rounds A B)%nat.
Proof.
  induction 1; unfold rounds in *; bound_unevenLows;
    cbn [length unevenLows seg_low] in *;
    repeat match goal with
    | H : context [ ?a =? ?b ] |- _ => destruct (Z.eqb_spec a b)
    | |- context [ ?a =? ?b ] => destruct (Z.eqb_spec a b)
    end; lia.
Qed.

Lemma findNext_at_end (it : iter) : is_end it = true -> findNext it = it.
Proof. unfold is_end, findNext. destruct (itState it); try discriminate. reflexivity. Qed.

Lemma trace_stops (n : nat) :
  forall it : iter,
    (length (trace n it) < n)%nat ->
    is_end (advance (length (trace n it)) it) = true.
Proof.
  induction n as [|n IH]; intros it Hl; cbn in *; [lia|].
  destruct (is_end it) eqn:E; cbn in *; [exact E|].
  apply IH. lia.
Qed.

Lemma advance_at_end (n : nat) (it : iter) :
  is_end it = true -> advance n it = it.
Proof.
  intros E. induction n as [|n IH]; cbn; [reflexivity|].
  rewrite findNext_at_end by exact E. exact IH.
Qed.

Lemma advance_add (n m : nat) (it : iter) :
  advance (n + m) it = advance m (advance n it).
Proof. revert it. induction n as [|n IH]; intros it; cbn; [reflexivity|]. apply IH. Qed.

Lemma pieces1_cons e (evs : list (Event Item1 Item2)) :
  pieces1 (e :: evs) = match piece1Of e with Some p => p :: pieces1 evs | None => pieces1 evs end.
Proof. unfold pieces1. cbn. destruct (piece1Of e); reflexivity. Qed.

Lemma pieces2_cons e (evs : list (Event Item1 Item2)) :
  pieces2 (e :: evs) = match piece2Of e with Some p => p :: pieces2 evs | None => pieces2 evs end.
Proof. unfold pieces2. cbn. destruct (piece2Of e); reflexivity. Qed.

Lemma SinglePass_whole {Item : Type} (s : Seg Item) todo rest :
  nonEmptySeg s -> SinglePass todo rest -> SinglePass (s :: todo) (s :: rest).
Proof.
  intros Hs Hr. change (s :: rest) with ([s] ++ rest). constructor; [|exact Hr].
  destruct s as [lo hi t]. cbn. constructor. exact Hs.
Qed.

Lemma SinglePass_cut {Item : Type} (lo mid hi : KeyOps.Key) (t : list Item) todo ps :
  lo <= mid -> mid < hi ->
  SinglePass (mkSeg (mid + 1) hi t :: todo) ps ->
  SinglePass (mkSeg lo hi t :: todo) (mkSeg lo mid t :: ps).
Proof.
  intros H1 H2 Hp. inversion Hp as [|s todo' own rest Ht Hr]; subst.
  change (mkSeg lo mid t :: own ++ rest) with ((mkSeg lo mid t :: own) ++ rest).
  constructor; [|exact Hr]. cbn in *. apply Tiles_cut with (mid := mid); auto.
Qed.

Lemma walk_single_pass (A : list (Seg Item1)) (B : list (Seg Item2)) evs :
  Walk A B evs ->
  Forall nonEmptySeg A -> Forall nonEmptySeg B ->
  SinglePass A (pieces1 evs) /\ SinglePass B (pieces2 evs).
Proof.
  induction 1; intros HA HB;
    rewrite ?pieces1_cons, ?pieces2_cons; cbn [piece1Of piece2Of];
    try (inversion HA as [|? ? Ha HA']; subst);
    try (inversion HB as [|? ? Hb HB']; subst);
    unfold nonEmptySeg in *.
  - split; constructor.
  - destruct IHWalk as [I1 I2]; [assumption | assumption |].
    split; [exact I1|]. apply SinglePass_whole; assumption.
  - destruct IHWalk as [I1 I2]; [assumption | assumption |].
    split; [|exact I2]. apply SinglePass_whole; assumption.
  - destruct IHWalk as [I1 I2]; [assumption | assumption |].
    split; [|exact I2]. apply SinglePass_whole; assumption.
  - destruct IHWalk as [I1 I2]; [assumption | assumption |].
    split; [exact I1|]. apply SinglePass_whole; assumption.
  - destruct IHWalk as [I1 I2];
      [constructor; [cbn; lia | assumption] | assumption |].
    split; [|exact I2]. destruct a as [lo hi t]. cbn in *.
    apply SinglePass_cut; try lia.
    replace (seg_low b - 1 + 1) with (seg_low b) by lia. exact I1.
  - destruct IHWalk as [I1 I2];
      [assumption | constructor; [cbn; lia | assumption] |].
    split; [exact I1|]. destruct b as [lo hi t]. cbn in *.
    apply SinglePass_cut; try lia.
    replace (seg_low a - 1 + 1) with (seg_low a) by lia. exact I2.
  - destruct IHWalk as [I1 I2];
      [assumption | constructor; [cbn; lia | assumption] |].
    split; [apply SinglePass_whole; assumption|]. destruct b as [lo hi t]. cbn in *.
    apply SinglePass_cut; try lia. exact I2.
  - destruct IHWalk as [I1 I2];
      [constructor; [cbn; lia | assumption] | assumption |].
    split; [|apply SinglePass_whole; assumption]. destruct a as [lo hi t]. cbn in *.
    apply SinglePass_cut; try lia. exact I1.
  - destruct IHWalk as [I1 I2]; [assumption | assumption |].
    split; apply SinglePass_whole; assumption.
Qed.

Lemma nonEmpty_suffixSegs {Item : Type} `{RangeItem Item} (l : list Item) :
  SortedDisjoint l -> Forall nonEmptySeg (suffixSegs l).
Proof.
  unfold SortedDisjoint. intros Hs.
  assert (Hb : exists b, sortedFrom b (map rangeOf l)).
  { destruct (sortedDisjoint_common_bound _ [] Hs I) as (b & Hb & _). eauto. }
  destruct Hb as (b & Hb). rewrite <- segRange_suffixSegs in Hb.
  apply sortedFrom_all_above in Hb. rewrite Forall_map in Hb.
  eapply List.Forall_impl; [|exact Hb]. intros s [_ Hle]. exact Hle.
Qed.

(** C9: from the [Begin] state, at most [fuel l1 l2 + 1] calls of
    [findNext] reach the [End] state, and [end()] stays true under further
    calls; the events reported up to there are a single pass over each of
    the two lists: the pieces reported for list 1 (for list 2) visit its
    ranges in list order, each range exactly once, its pieces consecutive
    and tiling the range, so that no range is taken up again after a later
    one has been reported. *)
Theorem rangePairIter_single_pass_terminates (l1 : list Item1) (l2 : list Item2) :
  SortedDisjoint l1 ->
  SortedDisjoint l2 ->
  let evs := trace (fuel l1 l2) (new l1 l2) in
  itState (initial l1 l2) = Begin
  /\ (length evs < fuel l1 l2)%nat
  /\ is_end (advance (S (length evs)) (initial l1 l2)) = true
  /\ (forall m : nat,
        is_end (advance (S (length evs) + m) (initial l1 l2)) = true)
  /\ SinglePass (suffixSegs l1) (pieces1 evs)
  /\ SinglePass (suffixSegs l2) (pieces2 evs).
Proof.
  intros H1 H2 evs.
  assert (HW : Walk (suffixSegs l1) (suffixSegs l2) evs)
    by (apply walk_of_new; lia).
  assert (Hlen : (length evs < fuel l1 l2)%nat).
  { pose proof (walk_length _ _ _ HW) as Hl. unfold rounds, fuel in *.
    rewrite !length_suffixSegs in Hl.
    pose proof (unevenLows_le_1 (suffixSegs l1) (suffixSegs l2)). lia. }
  assert (Hend : is_end (advance (S (length evs)) (initial l1 l2)) = true).
  { cbn [advance]. apply trace_stops. exact Hlen. }
  split; [reflexivity|]. split; [exact Hlen|]. split; [exact Hend|].
  split.
  - intros m. rewrite advance_add. rewrite advance_at_end; exact Hend.
  - apply (walk_single_pass _ _ _ HW); apply nonEmpty_suffixSegs; assumption.
Qed.

End RangePairIterFacts.

Section SplitFacts.
Import ItemIter RangePairIter RangeSpec.
Context {Item1 Item2 : Type} `{R1 : RangeItem Item1} `{R2 : RangeItem Item2}.
Local Abbreviation iter := (RangePairIter.t Item1 Item2).
#[local] Arguments scan : simpl never.

(** C2: when the loop of [findNext] is at its top with two heads that
    overlap and the lowKey of the s1 head is less than the lowKey of the s2
    head, the iterator reports [BreakS1], then [RangeInS1] for the segment
    [s1.lowKey, s2.lowKey - 1], and then goes on from the top of the loop
    with the s1 head replaced by the remainder [s2.lowKey, s1.highKey] of the
    same transition, the s2 head being as it was. *)
Theorem s1_sticks_out_is_split (it : iter) (x1 : Item1) (r1 : list Item1)
    (x2 : Item2) (r2 : list Item2) :
  trans (s1Tel it) = x1 :: r1 ->
  trans (s2Tel it) = x2 :: r2 ->
  lowKey (s2Tel it) <= highKey (s1Tel it) ->
  lowKey (s1Tel it) <= highKey (s2Tel it) ->
  lowKey (s1Tel it) < lowKey (s2Tel it) ->
  let prefix :=
    mkSeg (lowKey (s1Tel it)) (lowKey (s2Tel it) - 1) (trans (s1Tel it)) in
  let remainder :=
    mkNextTrans (lowKey (s2Tel it)) (highKey (s1Tel it))
      (trans (s1Tel it)) (next (s1Tel it)) in
  is_end (scan it) = false
  /\ observe (scan it) = EvBreakS1 prefix
  /\ is_end (findNext (scan it)) = false
  /\ observe (findNext (scan it)) = EvRangeInS1 prefix
  /\ exists it' : iter,
       findNext (findNext (scan it)) = scan it'
       /\ s1Tel it' = remainder
       /\ s2Tel it' = s2Tel it
       /\ list1 it' = list1 it /\ list2 it' = list2 it.
Proof.
  intros E1 E2 Ho1 Ho2 Hlt prefix remainder. subst prefix remainder.
  destruct it as [l1 l2 st us [lo1 hi1 t1 n1] [lo2 hi2 t2 n2] bl bh bt1 bt2].
  cbn in *. subst t1 t2.
  match goal with
  | |- context [scan ?h] =>
      assert (Hscan : scan h
        = CO_RETURN2 S1SticksOutBreak BreakS1
            (with_bottomTrans1 (x1 :: r1)
              (with_s1Tel (mkNextTrans lo1 (lo2 - 1) (x1 :: r1) n1)
                (with_bottomHigh hi1 (with_bottomLow lo2 h)))))
  end.
  { unfold scan. cbn [s1Tel s2Tel trans iter_end lowKey highKey].
    unfold KeyOps.lt, KeyOps.decrement.
    destruct (Z.ltb_spec hi1 lo2); [lia|].
    destruct (Z.ltb_spec hi2 lo1); [lia|].
    destruct (Z.ltb_spec lo1 lo2); [|lia].
    reflexivity. }
  rewrite Hscan. clear Hscan. cbn. repeat split.
  eexists. split; [reflexivity|]. cbn. repeat split.
Qed.
End SplitFacts.

Section ValRangeFacts.
Import ItemIter Items ValRange.
Context {Item1 Item2 : Type} (K1 : KeyItem Item1) (K2 : KeyItem Item2).

Local Abbreviation viter := (ValPairIter.t Item1 Item2).
Local Abbreviation riter := (RangePairIter.t Item1 Item2).

(** The range iterator reads the keys as degenerate ranges. *)
Local Abbreviation rFindNext :=
  (@RangePairIter.findNext Item1 Item2 (degenerate K1) (degenerate K2)).
Local Abbreviation rNew :=
  (@RangePairIter.new Item1 Item2 (degenerate K1) (degenerate K2)).
Local Abbreviation rTrace :=
  (@RangePairIter.trace Item1 Item2 (degenerate K1) (degenerate K2)).

Lemma load_emb {Item : Type} (K : KeyItem Item) (nt : ValPairIter.NextTrans Item) :
  @RangePairIter.load Item (degenerate K) (embNextTrans nt)
  = embNextTrans (ValPairIter.load nt).
Proof.
  destruct nt as [k t n]. unfold RangePairIter.load, ValPairIter.load, embNextTrans.
  cbn. destruct t; reflexivity.
Qed.

Lemma increment_emb {Item : Type} (K : KeyItem Item) (nt : ValPairIter.NextTrans Item) :
  @RangePairIter.increment Item (degenerate K) (embNextTrans nt)
  = embNextTrans (ValPairIter.increment nt).
Proof.
  unfold RangePairIter.increment, ValPairIter.increment. rewrite <- load_emb.
  reflexivity.
Qed.

Lemma set_emb {Item : Type} (K : KeyItem Item) (l : list Item)
    (nt : ValPairIter.NextTrans Item) :
  @RangePairIter.set Item (degenerate K) l (embNextTrans nt)
  = embNextTrans (ValPairIter.set l nt).
Proof.
  unfold RangePairIter.set, ValPairIter.set. rewrite <- load_emb. reflexivity.
Qed.

Lemma scan_emb (r0 : riter) (v : viter) :
  RangePairIter.scan (embIter r0 v) = embIter r0 (ValPairIter.scan v).
Proof.
  destruct v as [l1 l2 st us [k1 t1 n1] [k2 t2 n2]].
  unfold RangePairIter.scan, ValPairIter.scan, embIter. cbn.
  destruct t1, t2; try reflexivity.
  unfold KeyOps.lt.
  destruct (Z.ltb_spec k1 k2); [reflexivity|].
  destruct (Z.ltb_spec k2 k1); reflexivity.
Qed.

Lemma drainS1_emb (r0 : riter) (v : viter) :
  RangePairIter.drainS1 (embIter r0 v) = embIter r0 (ValPairIter.drainS1 v).
Proof.
  destruct v as [l1 l2 st us [k1 t1 n1] [k2 t2 n2]].
  unfold RangePairIter.drainS1, ValPairIter.drainS1, embIter. cbn.
  destruct t1; reflexivity.
Qed.

Lemma drainS2_emb (r0 : riter) (v : viter) :
  RangePairIter.drainS2 (embIter r0 v) = embIter r0 (ValPairIter.drainS2 v).
Proof.
  destruct v as [l1 l2 st us [k1 t1 n1] [k2 t2 n2]].
  unfold RangePairIter.drainS2, ValPairIter.drainS2, embIter. cbn.
  destruct t2; reflexivity.
Qed.

Lemma findNext_emb (r0 : riter) (v : viter) :
  rFindNext (embIter r0 v) = embIter r0 (ValPairIter.findNext v).
Proof.
  unfold RangePairIter.findNext, ValPairIter.findNext.
  destruct v as [l1 l2 st us s1 s2]. cbn [embIter RangePairIter.itState ValPairIter.itState].
  destruct st; cbn [embIterState];
    rewrite <- ?scan_emb, <- ?drainS1_emb, <- ?drainS2_emb;
    try reflexivity;
    unfold embIter, RangePairIter.incrementS1, RangePairIter.incrementS2,
      ValPairIter.incrementS1, ValPairIter.incrementS2; cbn;
    rewrite <- ?increment_emb, <- ?set_emb; reflexivity.
Qed.
Lemma is_end_emb (r0 : riter) (v : viter) :
  RangePairIter.is_end (embIter r0 v) = ValPairIter.is_end v.
Proof. destruct v as [l1 l2 st us s1 s2]. destruct st; reflexivity. Qed.

Lemma observe_emb (r0 : riter) (v : viter) :
  classify (RangePairIter.observe (embIter r0 v)) = Some (ValPairIter.observe v).
Proof. destruct v as [l1 l2 st us s1 s2]. destruct us; reflexivity. Qed.

Lemma trace_emb (n : nat) :
  forall (r0 : riter) (v : viter),
    map classify (rTrace n (embIter r0 v)) = map Some (ValPairIter.trace n v).
Proof.
  induction n as [|n IH]; intros r0 v; [reflexivity|].
  cbn [RangePairIter.trace ValPairIter.trace]. rewrite is_end_emb.
  destruct (ValPairIter.is_end v); [reflexivity|].
  cbn [map]. rewrite observe_emb, findNext_emb, IH. reflexivity.
Qed.

Lemma new_emb (l1 : list Item1) (l2 : list Item2) :
  rNew l1 l2
  = embIter (RangePairIter.initial l1 l2) (ValPairIter.new l1 l2).
Proof.
  unfold RangePairIter.new, ValPairIter.new. rewrite <- findNext_emb. reflexivity.
Qed.

(** C4: over any two lists of single-key items, and so over any two sorted
    ones, [ValPairIter] makes the walk [RangePairIter] makes over the same
    items read as the degenerate ranges [key, key]: round by round the two
    report the same classification, [RangeInS1], [RangeInS2] or
    [RangeOverlap], about the same elements, and the range iterator reports
    no break on such lists ([ValPairIter] has no break state at all). *)
Theorem valPairIter_walks_as_rangePairIter (l1 : list Item1) (l2 : list Item2) :
  forall n : nat,
    map ValRange.classify (rTrace n (rNew l1 l2))
    = map Some (ValPairIter.trace n (ValPairIter.new l1 l2))
    /\ Forall (fun e => ValRange.isBreak e = false) (rTrace n (rNew l1 l2)).
Proof.
  intros n.
  assert (Hc : map classify (rTrace n (rNew l1 l2))
               = map Some (ValPairIter.trace n (ValPairIter.new l1 l2))).
  { rewrite new_emb. apply trace_emb. }
  split; [exact Hc|].
  revert Hc. generalize (ValPairIter.trace n (ValPairIter.new l1 l2)).
  induction (rTrace n (rNew l1 l2)) as [|e r IH]; intros vs Hc; constructor.
  - destruct vs as [|v vs']; [discriminate|]. cbn in Hc.
    destruct e; cbn in *; try reflexivity; discriminate.
  - destruct vs as [|v vs']; [discriminate|]. cbn in Hc.
    injection Hc as _ Hc. eapply IH. exact Hc.
Qed.

End ValRangeFacts.

(* ===================================================================== *)
(** * The theorems at concrete inputs *)
(* ===================================================================== *)

Section Instances.
Import ItemIter Items RangePairIter RangeSpec AddInTrans.

(** The run of the iterator over [1,10] against [3,5], [7,8]. *)
Example exampleLists_user_states :
  map userStateOf (trace 20 (new exampleList1 exampleList2))
  = [BreakS1; RangeInS1; BreakS1; RangeOverlap; BreakS1; RangeInS1;
     BreakS1; RangeOverlap; RangeInS1].
Proof. reflexivity. Qed.

Example exampleLists_segments :
  segments (trace 20 (new exampleList1 exampleList2))
  = [(1, 2); (3, 5); (6, 6); (7, 8); (9, 10)].
Proof. reflexivity. Qed.

Example exampleLists_end :
  itState (advance 9 (new exampleList1 exampleList2)) = End.
Proof. reflexivity. Qed.

(** The value iterator over the keys 1, 3 against 3, 4. *)
Example exampleConds_walk :
  ValPairIter.trace 10
    (ValPairIter.new [mkCondAp 1 0; mkCondAp 3 0] [mkCondAp 3 1; mkCondAp 4 1])
  = [ValPairIter.EvRangeInS1 [mkCondAp 1 0; mkCondAp 3 0];
     ValPairIter.EvRangeOverlap [mkCondAp 3 0] [mkCondAp 3 1; mkCondAp 4 1];
     ValPairIter.EvRangeInS2 [mkCondAp 4 1]].
Proof. reflexivity. Qed.

(** Merging the transition at address 1 into the one at address 2 does
    merge the priority tables. *)
Example exampleStore_distinct :
  (priorTable <$>
     (addInTrans setActionsList setPriorsList setActionsList exampleStore 2%N 1%N
        ≫= fun h => h !! 2%N))
  = Some [mkPriorEl 6 0 9].
Proof. vm_compute. reflexivity. Qed.

Lemma rangePairIter_segments_increasing_witness :
  SortedDisjoint exampleList1 /\ SortedDisjoint exampleList2
  /\ StronglySorted segBefore (segments (trace 20 (new exampleList1 exampleList2))).
Proof.
  assert (H1 : SortedDisjoint exampleList1) by (unfold SortedDisjoint; cbn; lia).
  assert (H2 : SortedDisjoint exampleList2) by (unfold SortedDisjoint; cbn; lia).
  split; [exact H1|]. split; [exact H2|].
  exact (proj1 (rangePairIter_segments_increasing exampleList1 exampleList2 H1 H2 20%nat)).
Defined.

Lemma rangePairIter_single_pass_terminates_witness :
  SortedDisjoint exampleList1 /\ SortedDisjoint exampleList2
  /\ is_end (advance
               (S (length (trace (fuel exampleList1 exampleList2)
                             (new exampleList1 exampleList2))))
               (initial exampleList1 exampleList2)) = true
  /\ SinglePass (suffixSegs exampleList1)
       (pieces1 (trace (fuel exampleList1 exampleList2)
                   (new exampleList1 exampleList2))).
Proof.
  assert (H1 : SortedDisjoint exampleList1) by (unfold SortedDisjoint; cbn; lia).
  assert (H2 : SortedDisjoint exampleList2) by (unfold SortedDisjoint; cbn; lia).
  split; [exact H1|]. split; [exact H2|].
  destruct (rangePairIter_single_pass_terminates exampleList1 exampleList2 H1 H2)
    as (_ & _ & Hend & _ & Hp1 & _).
  split; [exact Hend | exact Hp1].
Defined.

Lemma s1_sticks_out_is_split_witness :
  let it := firstHead exampleList1 exampleList2 in
  trans (s1Tel it) = exampleList1
  /\ trans (s2Tel it) = exampleList2
  /\ observe (scan it) = EvBreakS1 (mkSeg 1 2 exampleList1)
  /\ observe (findNext (scan it)) = EvRangeInS1 (mkSeg 1 2 exampleList1).
Proof.
  intros it.
  assert (E1 : trans (s1Tel it) = TransM.mkTransAp 1 10 None :: []) by reflexivity.
  assert (E2 : trans (s2Tel it)
               = TransM.mkTransAp 3 5 None :: [TransM.mkTransAp 7 8 None])
    by reflexivity.
  assert (Ho1 : lowKey (s2Tel it) <= highKey (s1Tel it)) by (cbn; lia).
  assert (Ho2 : lowKey (s1Tel it) <= highKey (s2Tel it)) by (cbn; lia).
  assert (Hlt : lowKey (s1Tel it) < lowKey (s2Tel it)) by (cbn; lia).
  destruct (s1_sticks_out_is_split it _ _ _ _ E1 E2 Ho1 Ho2 Hlt)
    as (_ & Hb & _ & Hs & _).
  split; [exact E1|]. split; [exact E2|]. split; [exact Hb | exact Hs].
Defined.

Lemma addInTrans_self_keeps_priorTable_witness :
  exampleStore !! 1%N = Some exampleTrans1
  /\ exists h' d',
       addInTrans setActionsList setPriorsList setActionsList exampleStore 1%N 1%N
         = Some h'
       /\ h' !! 1%N = Some d'
       /\ priorTable d' = priorTable exampleTrans1
       /\ h' !! 2%N = exampleStore !! 2%N.
Proof.
  assert (Hd : exampleStore !! 1%N = Some exampleTrans1) by (vm_compute; reflexivity).
  split; [exact Hd|].
  destruct (addInTrans_self_keeps_priorTable setActionsList setPriorsList setActionsList
              exampleStore 1%N 1%N exampleTrans1 exampleTrans1 Hd Hd)
    as (h' & d' & Hrun & Hl & Hframe & _ & _ & _ & _ & Hself & _).
  exists h', d'. split; [exact Hrun|]. split; [exact Hl|].
  split; [exact (proj2 (Hself eq_refl))|].
  apply Hframe. discriminate.
Defined.

End Instances.

(* ===================================================================== *)
(** * Input position: how updates compose *)
(* ===================================================================== *)

Section InputPosMore.
Import MachInt InputPos.

Lemma newlines_nonneg (data : list Z) : 0 <= newlines data.
Proof.
  induction data as [|c r IH]; cbn; [lia|]. destruct (c =? newline); lia.
Qed.

Lemma newlines_app (d1 d2 : list Z) :
  newlines (d1 ++ d2) = newlines d1 + newlines d2.
Proof. induction d1 as [|c r IH]; cbn; [reflexivity|]. rewrite IH. lia. Qed.

(** The loop reads and writes [line] and [column] only. *)
Lemma update_chars_frame (data : list Z) :
  forall l c b b' : Z,
    fold_left update_char data (mkInput l c b)
    = mkInput (line (fold_left update_char data (mkInput l c b')))
              (column (fold_left update_char data (mkInput l c b'))) b.
Proof.
  induction data as [|a r IH]; intros l c b b'; cbn [fold_left]; [reflexivity|].
  assert (E : forall x, update_char (mkInput l c x) a
              = mkInput (if a =? newline then wrap_long (l + 1) else l)
                        (if a =? newline then 1 else wrap_long (c + 1)) x).
  { intros x. unfold update_char. cbn. destruct (a =? newline); reflexivity. }
  rewrite !E. apply IH.
Qed.

Lemma position_after_app (s : input_impl_seq) (d1 d2 : list Z) :
  position_after s (d1 ++ d2) = position_after (position_after s d1) d2.
Proof.
  unfold position_after. rewrite fold_left_app.
  destruct (fold_left update_char d1 s) as [l1 c1 b1]. cbn [line column byte].
  rewrite (update_chars_frame d2 l1 c1 (wrap_long (b1 + Z.of_nat (length d1))) b1).
  cbn [line column byte]. f_equal.
  rewrite update_chars_byte. cbn [byte].
  rewrite wrap_long_add_l. f_equal. rewrite length_app. lia.
Qed.

(** X1: consuming a block in two parts moves the position as consuming it
    at once does, for a block of at most [INT_MAX] characters: the three
    calls return, and the two ways give the same position. *)
Theorem update_position_seq_app (s : input_impl_seq) (d1 d2 : list Z) :
  Z.of_nat (length (d1 ++ d2)) <= INT_MAX ->
  exists s1 s2,
    InputPos.update_position_seq s d1 = Some s1
    /\ InputPos.update_position_seq s1 d2 = Some s2
    /\ InputPos.update_position_seq s (d1 ++ d2) = Some s2.
Proof.
  intros Hn. pose proof Hn as Hn'. rewrite length_app in Hn'.
  exists (position_after s d1), (position_after (position_after s d1) d2).
  split; [apply update_position_seq_runs; lia|].
  split; [apply update_position_seq_runs; lia|].
  rewrite update_position_seq_runs by exact Hn.
  rewrite position_after_app. reflexivity.
Qed.

Lemma update_position_seq_app_witness :
  Z.of_nat (length ([97; 10] ++ [98; 99])) <= INT_MAX
  /\ exists s1 s2,
       InputPos.update_position_seq (mkInput 1 1 0) [97; 10] = Some s1
       /\ InputPos.update_position_seq s1 [98; 99] = Some s2
       /\ InputPos.update_position_seq (mkInput 1 1 0) ([97; 10] ++ [98; 99]) = Some s2.
Proof.
  assert (Hn : Z.of_nat (length ([97; 10] ++ [98; 99])) <= INT_MAX)
    by (unfold INT_MAX; cbn; lia).
  split; [exact Hn|].
  exact (update_position_seq_app (mkInput 1 1 0) [97; 10] [98; 99] Hn).
Defined.

Lemma update_chars_no_newline (data : list Z) :
  forall s : input_impl_seq,
    in_long (column s) ->
    newlines data = 0 ->
    fold_left update_char data s
    = mkInput (line s) (wrap_long (column s + Z.of_nat (length data))) (byte s).
Proof.
  induction data as [|c r IH]; intros s Hc Hn.
  - cbn. rewrite Z.add_0_r, wrap_long_id by exact Hc. destruct s; reflexivity.
  - cbn [fold_left]. cbn in Hn. pose proof (newlines_nonneg r).
    unfold update_char at 2. destruct (c =? newline); [lia|]. cbn [negb].
    rewrite IH; cbn [line column byte]; [|apply wrap_long_range|lia].
    rewrite wrap_long_add_l. f_equal. f_equal. cbn [length]. lia.
Qed.

(** X2: a block of at most [INT_MAX] characters without a newline leaves
    the line and moves column and byte by its length. *)
Theorem update_position_seq_no_newline (s : input_impl_seq) (data : list Z) :
  in_long (column s) ->
  newlines data = 0 ->
  Z.of_nat (length data) <= INT_MAX ->
  InputPos.update_position_seq s data
  = Some (mkInput (line s)
            (wrap_long (column s + Z.of_nat (length data)))
            (wrap_long (byte s + Z.of_nat (length data)))).
Proof.
  intros Hc Hn Hlen. rewrite update_position_seq_runs by exact Hlen.
  unfold position_after.
  rewrite (update_chars_no_newline data s Hc Hn). reflexivity.
Qed.

Lemma update_position_seq_no_newline_witness :
  in_long (column (mkInput 3 7 40))
  /\ newlines [97; 98; 99] = 0
  /\ Z.of_nat (length [97; 98; 99]) <= INT_MAX
  /\ InputPos.update_position_seq (mkInput 3 7 40) [97; 98; 99]
     = Some (mkInput 3 10 43).
Proof.
  assert (Hc : in_long (column (mkInput 3 7 40)))
    by (unfold in_long, LONG_MIN, LONG_MAX; cbn; lia).
  assert (Hn : newlines [97; 98; 99] = 0) by reflexivity.
  assert (Hlen : Z.of_nat (length [97; 98; 99]) <= INT_MAX)
    by (unfold INT_MAX; cbn; lia).
  split; [exact Hc|]. split; [exact Hn|]. split; [exact Hlen|].
  rewrite (update_position_seq_no_newline _ _ Hc Hn Hlen). reflexivity.
Defined.

(** X3: after a block of at most [INT_MAX] characters that holds a
    newline the column is one more than the number of characters after the
    last newline, whatever the column was before; the line has moved by the
    number of newlines. *)
Theorem update_position_seq_after_newline
    (s : input_impl_seq) (pre post : list Z) :
  in_long (line s) ->
  newlines post = 0 ->
  Z.of_nat (length (pre ++ newline :: post)) <= INT_MAX ->
  InputPos.update_position_seq s (pre ++ newline :: post)
  = Some (mkInput (wrap_long (line s + newlines pre + 1))
            (wrap_long (1 + Z.of_nat (length post)))
            (wrap_long (byte s + Z.of_nat (length (pre ++ newline :: post))))).
Proof.
  intros Hl Hn Hlen. rewrite update_position_seq_runs by exact Hlen.
  unfold position_after.
  rewrite fold_left_app. cbn [fold_left].
  set (s1 := fold_left update_char pre s).
  assert (E : update_char s1 newline = mkInput (wrap_long (line s1 + 1)) 1 (byte s1))
    by reflexivity.
  rewrite E. rewrite update_chars_no_newline; cbn [line column byte];
    [|unfold in_long, LONG_MIN, LONG_MAX; lia|exact Hn].
  subst s1. rewrite update_chars_byte, update_chars_line by exact Hl.
  rewrite wrap_long_add_l. reflexivity.
Qed.

Lemma update_position_seq_after_newline_witness :
  in_long (line (mkInput 1 5 0))
  /\ newlines [98; 99] = 0
  /\ Z.of_nat (length ([97; 10; 97] ++ newline :: [98; 99])) <= INT_MAX
  /\ InputPos.update_position_seq (mkInput 1 5 0) ([97; 10; 97] ++ newline :: [98; 99])
     = Some (mkInput 3 3 6).
Proof.
  assert (Hl : in_long (line (mkInput 1 5 0)))
    by (unfold in_long, LONG_MIN, LONG_MAX; cbn; lia).
  assert (Hn : newlines [98; 99] = 0) by reflexivity.
  assert (Hlen : Z.of_nat (length ([97; 10; 97] ++ newline :: [98; 99])) <= INT_MAX)
    by (unfold INT_MAX; cbn; lia).
  split; [exact Hl|]. split; [exact Hn|]. split; [exact Hlen|].
  rewrite (update_position_seq_after_newline _ [97; 10; 97] [98; 99] Hl Hn Hlen).
  reflexivity.
Defined.

(** X13: [undo_position_seq] after [update_position_seq] over the same
    block of at most [INT_MAX] characters: both calls return, the line and
    the byte offset are those before the update, and the column is left
    where the update put it. *)
Theorem undo_after_update_position (s : input_impl_seq) (data : list Z) :
  wf_input s ->
  Z.of_nat (length data) <= INT_MAX ->
  exists s1,
    InputPos.update_position_seq s data = Some s1
    /\ InputPos.undo_position_seq s1 data
       = Some (mkInput (line s) (column s1) (byte s)).
Proof.
  intros Hw Hn. exists (position_after s data).
  split; [apply update_position_seq_runs, Hn|].
  rewrite undo_position_seq_runs by exact Hn. f_equal.
  destruct (position_before_after_line_and_byte s data Hw) as (Hl & Hb).
  pose proof (position_before_keeps_column (position_after s data) data) as Hc.
  destruct (position_before (position_after s data) data) as [l c b].
  cbn [line column byte] in *. congruence.
Qed.

Lemma undo_after_update_position_witness :
  wf_input (mkInput 1 1 0)
  /\ Z.of_nat (length [97; 10; 98]) <= INT_MAX
  /\ exists s1,
       InputPos.update_position_seq (mkInput 1 1 0) [97; 10; 98] = Some s1
       /\ InputPos.undo_position_seq s1 [97; 10; 98]
          = Some (mkInput (line (mkInput 1 1 0)) (column s1) (byte (mkInput 1 1 0))).
Proof.
  assert (Hw : wf_input (mkInput 1 1 0))
    by (unfold wf_input, in_long, LONG_MIN, LONG_MAX; cbn; lia).
  assert (Hn : Z.of_nat (length [97; 10; 98]) <= INT_MAX)
    by (unfold INT_MAX; cbn; lia).
  split; [exact Hw|]. split; [exact Hn|].
  exact (undo_after_update_position (mkInput 1 1 0) [97; 10; 98] Hw Hn).
Defined.


End InputPosMore.

(* ===================================================================== *)
(** * The file name table *)
(* ===================================================================== *)

Section FileNameFacts.
Import FileNames.

Lemma search_spec (ptr : stream_fns_t) (fn : String.string) :
  forall items : nat,
    match search ptr fn items with
    | Some i =>
        (items <= i < items + length ptr)%nat
        /\ nth_error ptr (i - items) = Some fn
        /\ (forall j, (j < i - items)%nat -> nth_error ptr j <> Some fn)
    | None => ~ In fn ptr
    end.
Proof.
  induction ptr as [|p rest IH]; intros items; cbn [search].
  - intros [].
  - destruct (String.eqb_spec p fn) as [-> | Hne].
    + replace (items - items)%nat with 0%nat by lia. cbn.
      repeat split; try lia; intros j Hj; lia.
    + specialize (IH (S items)). destruct (search rest fn (S items)) as [i|].
      * destruct IH as (Hr & Hn & Hf). cbn [length].
        replace (i - items)%nat with (S (i - S items)) by lia.
        repeat split; try lia; [exact Hn|].
        intros [|j] Hj; cbn; [congruence|]. apply Hf. lia.
      * cbn. intros [E | Hin]; [congruence | exact (IH Hin)].
Qed.

(** X4: the entry [colm_filename_add] returns holds the name asked for
    and is the first entry that does; the entries the table had keep their
    index and content. *)
Theorem colm_filename_add_lookup (stream_fns : stream_fns_t) (fn : String.string) :
  let r := FileNames.colm_filename_add stream_fns fn in
  nth_error (fst r) (snd r) = Some fn
  /\ (forall j, (j < snd r)%nat -> nth_error (fst r) j <> Some fn)
  /\ (forall j, (j < length stream_fns)%nat ->
        nth_error (fst r) j = nth_error stream_fns j).
Proof.
  unfold colm_filename_add. pose proof (search_spec stream_fns fn 0) as Hs.
  destruct (search stream_fns fn 0) as [i|]; cbn [fst snd].
  - destruct Hs as (_ & Hn & Hf). rewrite Nat.sub_0_r in *. auto.
  - repeat split.
    + rewrite nth_error_app2 by lia. rewrite Nat.sub_diag. reflexivity.
    + intros j Hj. rewrite nth_error_app1 by lia. intros E.
      apply Hs. eapply nth_error_In. exact E.
    + intros j Hj. apply nth_error_app1. lia.
Qed.

Lemma search_present (ptr : stream_fns_t) (fn : String.string) :
  forall items : nat, In fn ptr -> exists i, search ptr fn items = Some i.
Proof.
  intros items Hin. pose proof (search_spec ptr fn items) as Hs.
  destruct (search ptr fn items) as [i|]; [eauto | contradiction].
Qed.

(** X5: the table interns names: a name that is present is not added
    again, a name that is absent is added once at the end, a second call
    with the same name changes nothing and returns the same entry, and a
    table without duplicates stays without duplicates. *)
Theorem colm_filename_add_interns (stream_fns : stream_fns_t) (fn : String.string) :
  let r := FileNames.colm_filename_add stream_fns fn in
  (In fn stream_fns -> fst r = stream_fns)
  /\ (~ In fn stream_fns -> fst r = stream_fns ++ [fn])
  /\ FileNames.colm_filename_add (fst r) fn = r
  /\ (NoDup stream_fns -> NoDup (fst r)).
Proof.
  unfold colm_filename_add. pose proof (search_spec stream_fns fn 0) as Hs.
  destruct (search stream_fns fn 0) as [i|] eqn:E; cbn [fst snd].
  - destruct Hs as (_ & Hn & _). rewrite Nat.sub_0_r in Hn.
    repeat split; auto.
    + intros Hnot. exfalso. apply Hnot. eapply nth_error_In. exact Hn.
    + rewrite E. reflexivity.
  - repeat split; auto.
    + intros Hin. contradiction.
    + pose proof (search_spec (stream_fns ++ [fn]) fn 0) as Hs2.
      destruct (search (stream_fns ++ [fn]) fn 0) as [i|].
      * destruct Hs2 as (Hr & Hn & Hf). rewrite Nat.sub_0_r in *.
        rewrite length_app in Hr. cbn in Hr.
        destruct (Nat.eq_dec i (length stream_fns)) as [-> | Hne]; [reflexivity|].
        exfalso. apply Hs. rewrite nth_error_app1 in Hn by lia.
        eapply nth_error_In. exact Hn.
      * exfalso. apply Hs2. apply in_or_app. right. left. reflexivity.
    + intros Hnd. apply NoDup_app. repeat split; auto.
      * intros x Hx Hx'. apply list_elem_of_In in Hx, Hx'.
        destruct Hx' as [<- | []]. exact (Hs Hx).
      * apply NoDup_singleton.
Qed.

End FileNameFacts.

(* ===================================================================== *)
(** * Element comparisons *)
(* ===================================================================== *)

Section CompareFacts.
Import Compare.

Ltac cmp_cases :=
  rewrite ?Z.gtb_ltb;
  repeat match goal with
  | |- context [ (?a <? ?b)%Z ] => destruct (Z.ltb_spec a b)
  | |- context [ (?a <? ?b)%N ] => destruct (N.ltb_spec a b)
  | H : context [ (?a <? ?b)%Z ] |- _ => destruct (Z.ltb_spec a b)
  | H : context [ (?a <? ?b)%N ] |- _ => destruct (N.ltb_spec a b)
  end.

(** X6: [CmpActionTableEl::compare] is the comparison of a total order on
    (ordering, action) pairs: it is 0 exactly on equal elements, swapping
    the arguments negates it, and "less" is transitive. *)
Theorem CmpActionTableEl_compare_total_order (a b c : Compare.ActionTableEl) :
  (Compare.CmpActionTableEl_compare a b = 0 <-> a = b)
  /\ Compare.CmpActionTableEl_compare b a = - Compare.CmpActionTableEl_compare a b
  /\ (Compare.CmpActionTableEl_compare a b = -1 ->
      Compare.CmpActionTableEl_compare b c = -1 ->
      Compare.CmpActionTableEl_compare a c = -1).
Proof.
  destruct a as [ka va], b as [kb vb], c as [kc vc].
  unfold CmpActionTableEl_compare. cbn [key value]. repeat split.
  - cmp_cases; intros E; try discriminate. f_equal; lia.
  - intros E. injection E as -> ->. cmp_cases; try reflexivity; lia.
  - cmp_cases; try reflexivity; lia.
  - cmp_cases; intros E1 E2; try reflexivity; try discriminate; lia.
Qed.

(** X7: [PriorElCmp::compare] tells two priority elements apart by the
    key of their descriptors alone, whatever their orderings and
    priorities; elements that [CmpPriorEl::compare] finds equal are equal
    for [PriorElCmp::compare] too. *)
Theorem PriorElCmp_compare_by_key
    (descs : gmap N Compare.PriorDesc) (pel1 pel2 : Compare.PriorEl)
    (d1 d2 : Compare.PriorDesc) :
  descs !! desc pel1 = Some d1 ->
  descs !! desc pel2 = Some d2 ->
  (Compare.PriorElCmp_compare descs pel1 pel2 = Some 0 <-> pd_key d1 = pd_key d2)
  /\ (Compare.CmpPriorEl_compare pel1 pel2 = 0 ->
      Compare.PriorElCmp_compare descs pel1 pel2 = Some 0).
Proof.
  intros H1 H2. unfold PriorElCmp_compare, CmpPriorEl_compare.
  rewrite H1, H2. cbn. split; [split|].
  - cmp_cases; intros E; try discriminate; lia.
  - intros E. rewrite E. cmp_cases; try reflexivity; lia.
  - intros E. assert (Hd : desc pel1 = desc pel2).
    { revert E. cmp_cases; intros E; try discriminate; lia. }
    rewrite Hd in H1. assert (d1 = d2) by congruence. subst d2.
    cmp_cases; try reflexivity; lia.
Qed.

Lemma PriorElCmp_compare_by_key_witness :
  let descs : gmap N Compare.PriorDesc :=
    <[2%N := mkPriorDesc 5 9 0 0]> (<[1%N := mkPriorDesc 5 3 0 0]> ∅) in
  descs !! desc (mkPriorEl 10 1) = Some (mkPriorDesc 5 3 0 0)
  /\ descs !! desc (mkPriorEl 20 2) = Some (mkPriorDesc 5 9 0 0)
  /\ Compare.PriorElCmp_compare descs (mkPriorEl 10 1) (mkPriorEl 20 2) = Some 0.
Proof.
  intros descs.
  assert (H1 : descs !! desc (mkPriorEl 10 1) = Some (mkPriorDesc 5 3 0 0))
    by (vm_compute; reflexivity).
  assert (H2 : descs !! desc (mkPriorEl 20 2) = Some (mkPriorDesc 5 9 0 0))
    by (vm_compute; reflexivity).
  split; [exact H1|]. split; [exact H2|].
  apply (proj1 (PriorElCmp_compare_by_key descs _ _ _ _ H1 H2)). reflexivity.
Defined.

End CompareFacts.

(* ===================================================================== *)
(** * RangePairIter: what is reported for each key *)
(* ===================================================================== *)

Lemma prop_is_True (P : Prop) : P -> (P <-> True).
Proof. tauto. Qed.

Lemma prop_is_False (P : Prop) : ~ P -> (P <-> False).
Proof. tauto. Qed.

Ltac decide_atom c :=
  match goal with
  | D : {c} + {~ c} |- _ =>
      destruct D as [D | D];
      [ rewrite ?(prop_is_True c D) in * | rewrite ?(prop_is_False c D) in * ];
      clear D
  end.

Ltac rewrite_atom D :=
  let E := fresh "E" in
  first [ pose proof (prop_is_False _ D) as E | pose proof (prop_is_True _ D) as E ];
  clear D; try rewrite E in *; clear E.

Section RangeCoverFacts.
Import ItemIter RangePairIter RangeSpec RangeCover.
Context {Item1 Item2 : Type} `{R1 : RangeItem Item1} `{R2 : RangeItem Item2}.

Lemma covers_above {Item : Type} (L : list (Seg Item)) :
  forall (b k : KeyOps.Key),
    sortedFrom b (map segRange L) -> covers L k -> b < k.
Proof.
  unfold covers. induction L as [|[lo hi t] r IH]; intros b k Hs Hc.
  - apply Exists_nil in Hc. contradiction.
  - cbn in Hs. destruct Hs as (Hb & Hlh & Hr).
    apply Exists_cons in Hc. destruct Hc as [Hk | Hc]; cbn in *; [lia|].
    specialize (IH hi k Hr Hc). lia.
Qed.

Lemma covers_suffixSegs {Item : Type} `{RangeItem Item} (l : list Item) (k : KeyOps.Key) :
  covers (suffixSegs l) k <-> inRanges l k.
Proof.
  unfold covers, inRanges. induction l as [|x r IH]; cbn.
  - rewrite !Exists_nil. tauto.
  - rewrite !Exists_cons, IH. cbn. tauto.
Qed.

Lemma walk_overlapCoincides (A : list (Seg Item1)) (B : list (Seg Item2)) evs :
  Walk A B evs -> Forall overlapCoincides evs.
Proof.
  induction 1; repeat constructor; cbn; auto; lia.
Qed.

Lemma walk_breaksAnnounce (A : list (Seg Item1)) (B : list (Seg Item2)) evs :
  Walk A B evs -> breaksAnnounce evs.
Proof.
  induction 1; cbn; auto.
Qed.

Lemma covers_dec {Item : Type} (L : list (Seg Item)) (k : KeyOps.Key) :
  {covers L k} + {~ covers L k}.
Proof.
  unfold covers. apply Exists_dec. intros s.
  destruct (Z_le_dec (seg_low s) k), (Z_le_dec k (seg_high s)); (left; lia) || (right; lia).
Qed.

Ltac open_cover :=
  unfold classified, reportsInS1, reportsInS2, reportsOverlap, covers, inSeg in *;
  rewrite ?Exists_cons, ?Exists_nil in *; cbn [seg_low seg_high seg_trans] in *.

Ltac decide_cover L k :=
  lazymatch L with
  | nil => idtac
  | _ =>
      let D := fresh "D" in
      destruct (covers_dec L k) as [D | D]; unfold covers in D;
      rewrite_atom D
  end.

Ltac finish_cover A B k :=
  open_cover;
  match goal with
  | I : (_ <-> _) /\ (_ <-> _) /\ (_ <-> _) |- _ =>
      let I1 := fresh "I" in let I2 := fresh "I" in let I3 := fresh "I" in
      destruct I as (I1 & I2 & I3); rewrite I1, I2, I3; clear I1 I2 I3
  end;
  decide_cover A k; decide_cover B k; lia.

Lemma walk_classified (A : list (Seg Item1)) (B : list (Seg Item2)) evs :
  Walk A B evs ->
  forall b k : KeyOps.Key,
    sortedFrom b (map segRange A) ->
    sortedFrom b (map segRange B) ->
    classified A B evs k.
Proof.
  induction 1; intros bd k HA HB; cbn in HA, HB;
    try (destruct HA as (Ha1 & Ha2 & HA));
    try (destruct HB as (Hb1 & Hb2 & HB)).
  - open_cover. tauto.
  - (* consume s2 *)
    specialize (IHWalk (seg_high b) k I HB).
    pose proof (covers_above B (seg_high b) k HB).
    finish_cover (@nil (Seg Item1)) B k.
  - (* consume s1 *)
    specialize (IHWalk (seg_high a) k HA I).
    pose proof (covers_above A (seg_high a) k HA).
    finish_cover A (@nil (Seg Item2)) k.
  - (* only in s1 *)
    assert (HB' : sortedFrom (seg_high a) (map segRange (b :: B)))
      by (cbn; repeat split; auto; lia).
    specialize (IHWalk (seg_high a) k HA HB').
    pose proof (covers_above A (seg_high a) k HA).
    pose proof (covers_above (b :: B) (seg_high a) k HB').
    finish_cover A B k.
  - (* only in s2 *)
    assert (HA' : sortedFrom (seg_high b) (map segRange (a :: A)))
      by (cbn; repeat split; auto; lia).
    specialize (IHWalk (seg_high b) k HA' HB).
    pose proof (covers_above (a :: A) (seg_high b) k HA').
    pose proof (covers_above B (seg_high b) k HB).
    finish_cover A B k.
  - (* s1 sticks out *)
    assert (HA' : sortedFrom (seg_low b - 1)
                    (map segRange (mkSeg (seg_low b) (seg_high a) (seg_trans a) :: A)))
      by (cbn; repeat split; auto; lia).
    assert (HB' : sortedFrom (seg_low b - 1) (map segRange (b :: B)))
      by (cbn; repeat split; auto; lia).
    specialize (IHWalk (seg_low b - 1) k HA' HB').
    pose proof (covers_above A (seg_high a) k HA).
    pose proof (covers_above B (seg_high b) k HB).
    finish_cover A B k.
  - (* s2 sticks out *)
    assert (HA' : sortedFrom (seg_low a - 1) (map segRange (a :: A)))
      by (cbn; repeat split; auto; lia).
    assert (HB' : sortedFrom (seg_low a - 1)
                    (map segRange (mkSeg (seg_low a) (seg_high b) (seg_trans b) :: B)))
      by (cbn; repeat split; auto; lia).
    specialize (IHWalk (seg_low a - 1) k HA' HB').
    pose proof (covers_above A (seg_high a) k HA).
    pose proof (covers_above B (seg_high b) k HB).
    finish_cover A B k.
  - (* s2 drags behind *)
    assert (HB' : sortedFrom (seg_high a)
                    (map segRange (mkSeg (seg_high a + 1) (seg_high b) (seg_trans b) :: B)))
      by (cbn; repeat split; auto; lia).
    specialize (IHWalk (seg_high a) k HA HB').
    pose proof (covers_above A (seg_high a) k HA).
    pose proof (covers_above B (seg_high b) k HB).
    finish_cover A B k.
  - (* s1 drags behind *)
    assert (HA' : sortedFrom (seg_high b)
                    (map segRange (mkSeg (seg_high b + 1) (seg_high a) (seg_trans a) :: A)))
      by (cbn; repeat split; auto; lia).
    specialize (IHWalk (seg_high b) k HA' HB).
    pose proof (covers_above A (seg_high a) k HA).
    pose proof (covers_above B (seg_high b) k HB).
    finish_cover A B k.
  - (* exact overlap *)
    assert (HB' : sortedFrom (seg_high a) (map segRange B))
      by (rewrite H1; exact HB).
    specialize (IHWalk (seg_high a) k HA HB').
    pose proof (covers_above A (seg_high a) k HA).
    pose proof (covers_above B (seg_high b) k HB).
    finish_cover A B k.
Qed.

(** X8: over two sorted lists of pairwise disjoint ranges, the iterator
    classifies every key rightly: a key lies in a segment reported under
    [RangeInS1] exactly when it lies in a range of list 1 and in no range
    of list 2, under [RangeInS2] exactly when it lies in a range of list 2
    and in none of list 1, and under [RangeOverlap] exactly when it lies in
    a range of each list. *)
Theorem rangePairIter_classifies_keys (l1 : list Item1) (l2 : list Item2) :
  SortedDisjoint l1 ->
  SortedDisjoint l2 ->
  forall k : KeyOps.Key,
    let evs := trace (fuel l1 l2) (new l1 l2) in
    (reportsInS1 evs k <-> inRanges l1 k /\ ~ inRanges l2 k)
    /\ (reportsInS2 evs k <-> ~ inRanges l1 k /\ inRanges l2 k)
    /\ (reportsOverlap evs k <-> inRanges l1 k /\ inRanges l2 k).
Proof.
  intros H1 H2 k evs.
  destruct (sortedDisjoint_common_bound _ _ H1 H2) as (b & Hb1 & Hb2).
  rewrite <- !(covers_suffixSegs l1), <- !(covers_suffixSegs l2).
  apply (walk_classified (suffixSegs l1) (suffixSegs l2) evs) with (b := b).
  - apply walk_of_new. lia.
  - rewrite segRange_suffixSegs. exact Hb1.
  - rewrite segRange_suffixSegs. exact Hb2.
Qed.

(** X9: at every [RangeOverlap] the two [NextTrans] hold the same key
    range, whatever the two lists are. *)
Theorem rangePairIter_overlap_ranges_coincide (l1 : list Item1) (l2 : list Item2) :
  forall n : nat, Forall overlapCoincides (trace n (new l1 l2)).
Proof.
  intros n. rewrite (trace_firstn n (fuel l1 l2)).
  assert (Hall : Forall overlapCoincides (trace (n + fuel l1 l2) (new l1 l2))).
  { apply (walk_overlapCoincides (suffixSegs l1) (suffixSegs l2)).
    apply walk_of_new. lia. }
  rewrite <- (firstn_skipn n (trace (n + fuel l1 l2) (new l1 l2))) in Hall.
  apply Forall_app in Hall. exact (proj1 Hall).
Qed.

(** X10: in the event stream of any two lists, every break notification
    is directly followed by the report of the range and transition the
    broken [NextTrans] held at the notification: no break comes last and no
    two breaks come in a row. *)
Theorem rangePairIter_breaks_announce (l1 : list Item1) (l2 : list Item2) :
  breaksAnnounce (trace (fuel l1 l2) (new l1 l2)).
Proof.
  apply (walk_breaksAnnounce (suffixSegs l1) (suffixSegs l2)).
  apply walk_of_new. lia.
Qed.

End RangeCoverFacts.

(* ===================================================================== *)
(** * ValPairIter: what is reported *)
(* ===================================================================== *)

Section ValFacts.
Import ItemIter ValPairIter ValSpec.
Context {Item1 Item2 : Type} `{K1 : KeyItem Item1} `{K2 : KeyItem Item2}.
Local Abbreviation viter := (ValPairIter.t Item1 Item2).
#[local] Arguments scan : simpl never.
#[local] Arguments drainS1 : simpl never.
#[local] Arguments drainS2 : simpl never.

Lemma merge_eq (l1 : list Item1) (l2 : list Item2) :
  merge l1 l2 =
    match l1, l2 with
    | [], [] => []
    | [], _ :: r2 => EvRangeInS2 l2 :: merge [] r2
    | _ :: r1, [] => EvRangeInS1 l1 :: merge r1 []
    | x :: r1, y :: r2 =>
        if keyOf x <? keyOf y then EvRangeInS1 l1 :: merge r1 l2
        else if keyOf y <? keyOf x then EvRangeInS2 l2 :: merge l1 r2
        else EvRangeOverlap l1 l2 :: merge r1 r2
    end.
Proof. destruct l1, l2; reflexivity. Qed.

Lemma vscan_s1_at_end (v : viter) : trans (s1Tel v) = [] -> scan v = drainS2 v.
Proof. intros E. unfold scan. rewrite E. reflexivity. Qed.

Lemma vscan_s2_at_end (v : viter) : trans (s2Tel v) = [] -> scan v = drainS1 v.
Proof.
  intros E. unfold scan, drainS1, drainS2. rewrite E.
  destruct (trans (s1Tel v)); reflexivity.
Qed.

(** From the top of the loop the iterator reports the merge of what the
    two cursors still have. *)
Lemma trace_of_scan :
  forall (n : nat) (v : viter) (nt1 : NextTrans Item1) (nt2 : NextTrans Item2),
    s1Tel v = load nt1 ->
    s2Tel v = load nt2 ->
    (length (trans nt1) + length (trans nt2) <= n)%nat ->
    trace n (scan v) = merge (trans nt1) (trans nt2).
Proof.
  induction n as [|n IH]; intros v nt1 nt2 E1 E2 Hn.
  - destruct (trans nt1), (trans nt2); cbn in Hn; try lia. reflexivity.
  - destruct v as [l1 l2 st us s1 s2]. cbn in E1, E2. subst s1 s2.
    destruct nt1 as [k1 t1 n1], nt2 as [k2 t2 n2]. cbn [trans] in *.
    rewrite merge_eq.
    destruct t1 as [|x1 r1], t2 as [|x2 r2]; cbn [length] in Hn.
    + reflexivity.
    + rewrite vscan_s1_at_end by reflexivity. unfold drainS2 at 1. cbn.
      rewrite <- vscan_s1_at_end by reflexivity. f_equal.
      apply (IH _ (mkNextTrans k1 [] n1) (mkNextTrans (keyOf x2) r2 r2));
        [reflexivity | | cbn; lia].
      cbn. unfold incrementS2. cbn. destruct r2; reflexivity.
    + rewrite vscan_s2_at_end by reflexivity. unfold drainS1 at 1. cbn.
      rewrite <- vscan_s2_at_end by reflexivity. f_equal.
      apply (IH _ (mkNextTrans (keyOf x1) r1 r1) (mkNextTrans k2 [] n2));
        [ | reflexivity | cbn; lia].
      cbn. destruct r1; reflexivity.
    + unfold scan at 1. cbn.
      destruct (Z.ltb_spec (keyOf x1) (keyOf x2)); [|destruct (Z.ltb_spec (keyOf x2) (keyOf x1))];
        cbn; f_equal.
      * apply (IH _ (mkNextTrans (keyOf x1) r1 r1) (mkNextTrans (keyOf x2) (x2 :: r2) r2));
          [ | reflexivity | cbn; lia].
        cbn. destruct r1; reflexivity.
      * apply (IH _ (mkNextTrans (keyOf x1) (x1 :: r1) r1) (mkNextTrans (keyOf x2) r2 r2));
          [reflexivity | | cbn; lia].
        cbn. destruct r2; reflexivity.
      * apply (IH _ (mkNextTrans (keyOf x1) r1 r1) (mkNextTrans (keyOf x2) r2 r2));
          [ | | cbn; lia]; cbn; [destruct r1 | destruct r2]; reflexivity.
Qed.

Lemma trace_of_new (l1 : list Item1) (l2 : list Item2) (n : nat) :
  (length l1 + length l2 <= n)%nat ->
  trace n (new l1 l2) = merge l1 l2.
Proof.
  intros Hn.
  apply (trace_of_scan n _ (mkNextTrans 0 l1 []) (mkNextTrans 0 l2 []));
    [reflexivity | reflexivity | exact Hn].
Qed.


Lemma elems1_cons e (evs : list (Event Item1 Item2)) :
  elems1 (e :: evs)
  = match elem1Of e with Some t => t :: elems1 evs | None => elems1 evs end.
Proof. unfold elems1. cbn. destruct (elem1Of e); reflexivity. Qed.

Lemma elems2_cons e (evs : list (Event Item1 Item2)) :
  elems2 (e :: evs)
  = match elem2Of e with Some t => t :: elems2 evs | None => elems2 evs end.
Proof. unfold elems2. cbn. destruct (elem2Of e); reflexivity. Qed.

Lemma elems_merge (l1 : list Item1) :
  forall l2 : list Item2,
    elems1 (merge l1 l2) = cursors l1 /\ elems2 (merge l1 l2) = cursors l2.
Proof.
  induction l1 as [|x r1 IH1]; intros l2; induction l2 as [|y r2 IH2];
    rewrite merge_eq.
  - split; reflexivity.
  - destruct IH2 as [E1 E2].
    rewrite elems1_cons, elems2_cons, E1, E2. split; reflexivity.
  - destruct (IH1 []) as [E1 E2].
    rewrite elems1_cons, elems2_cons, E1, E2. split; reflexivity.
  - destruct (Z.ltb_spec (keyOf x) (keyOf y));
      [|destruct (Z.ltb_spec (keyOf y) (keyOf x))];
      rewrite elems1_cons, elems2_cons.
    + destruct (IH1 (y :: r2)) as [E1 E2]. rewrite E1, E2. split; reflexivity.
    + destruct IH2 as [E1 E2]. rewrite E1, E2. split; reflexivity.
    + destruct (IH1 r2) as [E1 E2]. rewrite E1, E2. split; reflexivity.
Qed.

Lemma length_merge (l1 : list Item1) :
  forall l2 : list Item2, (length (merge l1 l2) <= length l1 + length l2)%nat.
Proof.
  induction l1 as [|x r1 IH1]; intros l2; induction l2 as [|y r2 IH2];
    rewrite merge_eq; cbn [length] in *.
  - lia.
  - lia.
  - specialize (IH1 []). cbn [length] in IH1. lia.
  - destruct (Z.ltb_spec (keyOf x) (keyOf y));
      [|destruct (Z.ltb_spec (keyOf y) (keyOf x))]; cbn [length].
    + specialize (IH1 (y :: r2)). cbn [length] in IH1. lia.
    + lia.
    + specialize (IH1 r2). lia.
Qed.

Lemma vfindNext_at_end (it : viter) : is_end it = true -> findNext it = it.
Proof. unfold is_end, findNext. destruct (itState it); try discriminate. reflexivity. Qed.

Lemma vadvance_at_end (n : nat) (it : viter) :
  is_end it = true -> advance n it = it.
Proof.
  intros E. induction n as [|n IH]; cbn; [reflexivity|].
  rewrite vfindNext_at_end by exact E. exact IH.
Qed.

Lemma vadvance_add (n m : nat) (it : viter) :
  advance (n + m) it = advance m (advance n it).
Proof. revert it. induction n as [|n IH]; intros it; cbn; [reflexivity|]. apply IH. Qed.

Lemma vtrace_stops (n : nat) :
  forall it : viter,
    (length (trace n it) < n)%nat ->
    is_end (advance (length (trace n it)) it) = true.
Proof.
  induction n as [|n IH]; intros it Hl; cbn in *; [lia|].
  destruct (is_end it) eqn:E; cbn in *; [exact E|].
  apply IH. lia.
Qed.

(** X11: over any two lists, [ValPairIter] ends within as many calls of
    [findNext] as the two lists have elements, and by then has reported
    every element of each list exactly once, in list order. *)
Theorem valPairIter_single_pass (l1 : list Item1) (l2 : list Item2) (n : nat) :
  (length l1 + length l2 <= n)%nat ->
  is_end (advance n (new l1 l2)) = true
  /\ elems1 (trace n (new l1 l2)) = cursors l1
  /\ elems2 (trace n (new l1 l2)) = cursors l2.
Proof.
  intros Hn. split.
  - pose proof (length_merge l1 l2) as Hl.
    rewrite <- (trace_of_new l1 l2 (S n)) in Hl by lia.
    assert (Hs : is_end (advance (length (trace (S n) (new l1 l2))) (new l1 l2)) = true)
      by (apply vtrace_stops; lia).
    replace n with (length (trace (S n) (new l1 l2))
                    + (n - length (trace (S n) (new l1 l2))))%nat by lia.
    rewrite vadvance_add, vadvance_at_end; exact Hs.
  - rewrite trace_of_new by exact Hn. apply elems_merge.
Qed.

Lemma sorted_keys_above (k0 : Z) (ks : list Z) (k : Z) :
  StronglySorted Z.lt (k0 :: ks) -> In k ks -> k0 < k.
Proof.
  intros Hs Hin. apply StronglySorted_inv in Hs. destruct Hs as [_ Hall].
  rewrite List.Forall_forall in Hall. apply Hall. exact Hin.
Qed.

Lemma some_eq_iff (a b : Z) : Some a = Some b <-> a = b.
Proof. split; congruence. Qed.

Ltac open_keys :=
  unfold vclassified, reportsInS1, reportsInS2, reportsOverlap, keysOf in *;
  cbn [map In] in *;
  rewrite ?Exists_cons, ?Exists_nil in *;
  cbn [headKey] in *;
  rewrite ?some_eq_iff in *.

Ltac decide_in k L :=
  lazymatch L with
  | nil => idtac
  | _ =>
      let D := fresh "D" in
      destruct (In_dec Z.eq_dec k (map keyOf L)) as [D | D];
      rewrite_atom D
  end.

Ltac finish_keys k r1 r2 :=
  open_keys;
  match goal with
  | I : (_ <-> _) /\ (_ <-> _) /\ (_ <-> _) |- _ =>
      let I1 := fresh "I" in let I2 := fresh "I" in let I3 := fresh "I" in
      destruct I as (I1 & I2 & I3); rewrite I1, I2, I3; clear I1 I2 I3
  end;
  decide_in k r1; decide_in k r2; lia.

Lemma merge_classified (l1 : list Item1) :
  forall (l2 : list Item2) (k : Z),
    SortedKeys l1 -> SortedKeys l2 ->
    vclassified l1 l2 (merge l1 l2) k.
Proof.
  unfold SortedKeys.
  induction l1 as [|x r1 IH1]; intros l2; induction l2 as [|y r2 IH2];
    intros k S1 S2; rewrite merge_eq.
  - open_keys. tauto.
  - assert (S2' : StronglySorted Z.lt (keysOf r2))
      by (apply StronglySorted_inv in S2; tauto).
    specialize (IH2 k S1 S2').
    pose proof (sorted_keys_above _ _ k S2).
    finish_keys k (@nil Item1) r2.
  - assert (S1' : StronglySorted Z.lt (keysOf r1))
      by (apply StronglySorted_inv in S1; tauto).
    specialize (IH1 [] k S1' S2).
    pose proof (sorted_keys_above _ _ k S1).
    finish_keys k r1 (@nil Item2).
  - assert (S1' : StronglySorted Z.lt (keysOf r1))
      by (apply StronglySorted_inv in S1; tauto).
    assert (S2' : StronglySorted Z.lt (keysOf r2))
      by (apply StronglySorted_inv in S2; tauto).
    pose proof (sorted_keys_above _ _ k S1).
    pose proof (sorted_keys_above _ _ k S2).
    destruct (Z.ltb_spec (keyOf x) (keyOf y));
      [|destruct (Z.ltb_spec (keyOf y) (keyOf x))].
    + specialize (IH1 (y :: r2) k S1' S2). finish_keys k r1 r2.
    + specialize (IH2 k S1 S2'). finish_keys k r1 r2.
    + specialize (IH1 r2 k S1' S2'). finish_keys k r1 r2.
Qed.

(** X12: over two lists sorted by key without repeated keys, a key is
    reported under [RangeOverlap] exactly when it is a key of both lists,
    under [RangeInS1] exactly when it is a key of list 1 only and under
    [RangeInS2] exactly when it is a key of list 2 only. *)
Theorem valPairIter_classifies_keys (l1 : list Item1) (l2 : list Item2) :
  SortedKeys l1 ->
  SortedKeys l2 ->
  forall k : Z,
    let evs := trace (length l1 + length l2) (new l1 l2) in
    (reportsInS1 evs k <-> In k (keysOf l1) /\ ~ In k (keysOf l2))
    /\ (reportsInS2 evs k <-> ~ In k (keysOf l1) /\ In k (keysOf l2))
    /\ (reportsOverlap evs k <-> In k (keysOf l1) /\ In k (keysOf l2)).
Proof.
  intros S1 S2 k evs. subst evs. rewrite trace_of_new by lia.
  apply merge_classified; assumption.
Qed.

End ValFacts.
(* ===================================================================== *)
(** * The buffer queue and the stash of an input *)
(* ===================================================================== *)

Section QueueFacts.
Import SeqQueue.
Local Abbreviation mem := (gmap addr seq_buf).

Lemma store_at (h : mem) (p : addr) (f : seq_buf -> seq_buf) (b : seq_buf) :
  h !! p = Some b -> store h p f = Some (<[p := f b]> h).
Proof. intros E. unfold store. rewrite E. reflexivity. Qed.

Lemma seg_frame (h h' : mem) (l : list addr) :
  forall p n : addr,
    (forall a, In a l -> h' !! a = h !! a) ->
    seg h p l n -> seg h' p l n.
Proof.
  induction l as [|a r IH]; intros p n Hf Hs; cbn in *; [exact I|].
  destruct Hs as (Ha & (b & Hb & Hp & Hn) & Hr). split; [exact Ha|]. split.
  - exists b. rewrite Hf by (left; reflexivity). auto.
  - apply IH; [|exact Hr]. intros x Hx. apply Hf. right. exact Hx.
Qed.

Lemma last_default_irrelevant {A : Type} (l : list A) (d d' : A) :
  l <> [] -> List.last l d = List.last l d'.
Proof.
  induction l as [|a r IH]; intros Hne; [congruence|].
  destruct r as [|c r']; [reflexivity|].
  change (List.last (c :: r') d = List.last (c :: r') d'). apply IH. discriminate.
Qed.

Lemma seg_snoc (h : mem) (l : list addr) (t : addr) :
  forall p n : addr,
    seg h p (l ++ [t]) n
    <-> seg h p l t
        /\ t <> 0%N
        /\ exists b, h !! t = Some b /\ prev b = List.last l p /\ next b = n.
Proof.
  induction l as [|a r IH]; intros p n; cbn [app seg].
  - cbn. split.
    + intros (Ht & (b & Hb & Hp & Hn) & _). repeat split; eauto.
    + intros (_ & Ht & (b & Hb & Hp & Hn)). repeat split; eauto.
  - rewrite IH. 
    assert (Hhd : forall x, hd x (r ++ [t]) = hd t r) by (intros; destruct r; reflexivity).
    assert (Hl : List.last (a :: r) p = List.last r a).
    { destruct r as [|c r']; [reflexivity|].
      change (List.last (a :: c :: r') p) with (List.last (c :: r') p).
      apply last_default_irrelevant. discriminate. }
    rewrite Hhd, Hl. tauto.
Qed.

Lemma last_snoc {A : Type} (l : list A) (t d : A) : List.last (l ++ [t]) d = t.
Proof. apply last_last. Qed.

Lemma hd_app_nonempty {A : Type} (l r : list A) (d : A) :
  l <> [] -> hd d (l ++ r) = hd d l.
Proof. destruct l; [congruence | reflexivity]. Qed.

Lemma same_payload_insert (h : mem) (p : addr) (b b' : seq_buf) :
  h !! p = Some b -> payload b' = payload b ->
  same_payload h (<[p := b']> h).
Proof.
  intros Hb Hp a. destruct (decide (p = a)) as [<- | Hne].
  - rewrite lookup_insert_eq, Hb. cbn. f_equal. exact Hp.
  - rewrite lookup_insert_ne by exact Hne. reflexivity.
Qed.

Lemma same_payload_trans (h1 h2 h3 : mem) :
  same_payload h1 h2 -> same_payload h2 h3 -> same_payload h1 h3.
Proof. intros H12 H23 a. rewrite H23. apply H12. Qed.

Lemma same_payload_refl (h : mem) : same_payload h h.
Proof. intros a. reflexivity. Qed.

(** Appending to a well-formed queue. *)
Lemma seq_append_refines
    (h : mem) (s : input_impl_seq) (l : list addr) (buf : addr) (b : seq_buf) :
  queue_is h s l ->
  h !! buf = Some b ->
  buf <> 0%N ->
  ~ In buf l ->
  exists h' s',
    input_stream_seq_append h s buf = Some (h', s')
    /\ queue_is h' s' (l ++ [buf])
    /\ same_payload h h'
    /\ (forall a, a <> buf -> (l <> [] -> a <> List.last l 0%N) -> h' !! a = h !! a)
    /\ same_rest s s'.
Proof.
  intros (Hq & Ht & Hseg & Hnd) Hb Hnz Hnin.
  unfold input_stream_seq_append.
  destruct l as [|a0 l0] using rev_ind.
  - (* the queue is empty *)
    cbn in Hq. rewrite Hq. cbn.
    rewrite (store_at _ _ _ _ Hb). cbn.
    rewrite (store_at _ _ _ (with_next 0%N b)) by apply lookup_insert_eq. cbn.
    rewrite insert_insert_eq.
    eexists _, _. split; [reflexivity|]. split; [|split; [|split]].
    + repeat split; cbn; auto.
      * exists (with_prev 0%N (with_next 0%N b)). rewrite lookup_insert_eq. auto.
      * apply NoDup_singleton.
    + apply same_payload_insert with (b := b); auto.
    + intros a Ha _. apply lookup_insert_ne. congruence.
    + repeat split.
  - (* the queue ends with a0 *)
    clear IHl0.
    apply seg_snoc in Hseg. destruct Hseg as (Hseg & Ha0 & (bt & Hbt & Hpt & Hnt)).
    rewrite last_snoc in Ht.
    assert (Hqnz : queue s <> 0%N).
    { rewrite Hq. destruct l0 as [|c l0']; cbn; [exact Ha0|].
      cbn in Hseg. tauto. }
    apply N.eqb_neq in Hqnz. rewrite Hqnz. rewrite Ht.
    assert (Hne : a0 <> buf) by (intros ->; apply Hnin, in_or_app; right; left; reflexivity).
    rewrite (store_at _ _ _ _ Hbt). cbn.
    rewrite (store_at _ buf _ b) by (rewrite lookup_insert_ne by exact Hne; exact Hb). cbn.
    rewrite (store_at _ buf _ (with_prev a0 b)) by apply lookup_insert_eq. cbn.
    rewrite insert_insert_eq.
    eexists _, _. split; [reflexivity|]. split; [|split; [|split]].
    + split; [|split; [|split]].
      * cbn. rewrite hd_app_nonempty by (destruct l0; discriminate). exact Hq.
      * cbn. rewrite last_snoc. reflexivity.
      * apply seg_snoc. split; [|split].
        -- apply seg_snoc. split; [|split].
           ++ eapply seg_frame; [|exact Hseg]. intros a Ha.
              apply NoDup_app in Hnd. destruct Hnd as (_ & Hdis & _).
              rewrite !lookup_insert_ne; auto.
              ** intros ->. apply (Hdis a).
                 --- apply list_elem_of_In. exact Ha.
                 --- apply list_elem_of_In. left. reflexivity.
              ** intros ->. apply Hnin, in_or_app. left. exact Ha.
           ++ exact Ha0.
           ++ exists (with_next buf bt). rewrite lookup_insert_ne by congruence.
              rewrite lookup_insert_eq. auto.
        -- exact Hnz.
        -- exists (with_next 0%N (with_prev a0 b)). rewrite lookup_insert_eq.
           rewrite last_snoc. auto.
      * apply NoDup_app. split; [exact Hnd|]. split; [|apply NoDup_singleton].
        intros x Hx Hx'. apply list_elem_of_In in Hx, Hx'.
        destruct Hx' as [<- | []]. exact (Hnin Hx).
    + eapply same_payload_trans.
      * apply same_payload_insert with (p := a0) (b := bt) (b' := with_next buf bt); auto.
      * apply same_payload_insert with (b := b); auto.
        rewrite lookup_insert_ne by exact Hne. exact Hb.
    + intros a Ha Ha'. rewrite last_snoc in Ha'.
      assert (a <> a0) by (apply Ha'; destruct l0; discriminate).
      rewrite !lookup_insert_ne; auto.
    + repeat split.
Qed.

Lemma seg_head_nonnull (h : mem) (p n : addr) (l : list addr) :
  l <> [] -> seg h p l n -> hd 0%N l <> 0%N.
Proof. destruct l; [congruence|]. cbn. tauto. Qed.

(** Prepending to a well-formed queue. *)
Lemma seq_prepend_refines
    (h : mem) (s : input_impl_seq) (l : list addr) (buf : addr) (b : seq_buf) :
  queue_is h s l ->
  h !! buf = Some b ->
  buf <> 0%N ->
  ~ In buf l ->
  exists h' s',
    input_stream_seq_prepend h s buf = Some (h', s')
    /\ queue_is h' s' (buf :: l)
    /\ same_payload h h'
    /\ (forall a, a <> buf -> (l <> [] -> a <> hd 0%N l) -> h' !! a = h !! a)
    /\ same_rest s s'.
Proof.
  intros (Hq & Ht & Hseg & Hnd) Hb Hnz Hnin.
  unfold input_stream_seq_prepend.
  destruct l as [|a0 l0].
  - cbn in Hq. rewrite Hq. cbn.
    rewrite (store_at _ _ _ _ Hb). cbn.
    rewrite (store_at _ _ _ (with_next 0%N b)) by apply lookup_insert_eq. cbn.
    rewrite insert_insert_eq.
    eexists _, _. split; [reflexivity|]. split; [|split; [|split]].
    + repeat split; cbn; auto.
      * exists (with_prev 0%N (with_next 0%N b)). rewrite lookup_insert_eq. auto.
      * apply NoDup_singleton.
    + apply same_payload_insert with (b := b); auto.
    + intros a Ha _. apply lookup_insert_ne. congruence.
    + repeat split.
  - cbn in Hq. cbn [seg] in Hseg.
    destruct Hseg as (Ha0 & (ba & Hba & Hpa & Hna) & Hseg).
    assert (Hqnz : (queue s =? 0)%N = false) by (apply N.eqb_neq; congruence).
    rewrite Hqnz, Hq.
    assert (Hne : a0 <> buf) by (intros ->; apply Hnin; left; reflexivity).
    rewrite (store_at _ _ _ _ Hba). cbn.
    rewrite (store_at _ buf _ b) by (rewrite lookup_insert_ne by exact Hne; exact Hb). cbn.
    rewrite (store_at _ buf _ (with_prev 0%N b)) by apply lookup_insert_eq. cbn.
    rewrite insert_insert_eq.
    eexists _, _. split; [reflexivity|]. split; [|split; [|split]].
    + split; [|split; [|split]].
      * reflexivity.
      * cbn [queue_tail with_queue]. rewrite Ht. reflexivity.
      * cbn [seg]. split; [exact Hnz|]. split.
        { exists (with_next a0 (with_prev 0%N b)). rewrite lookup_insert_eq. auto. }
        split; [exact Ha0|]. split.
        { exists (with_prev buf ba). rewrite lookup_insert_ne by congruence.
          rewrite lookup_insert_eq. auto. }
        eapply seg_frame; [|exact Hseg]. intros a Ha.
        apply NoDup_cons in Hnd. destruct Hnd as (Hn0 & _).
        rewrite !lookup_insert_ne; auto.
        -- intros ->. apply Hn0, list_elem_of_In, Ha.
        -- intros ->. apply Hnin. right. exact Ha.
      * apply NoDup_cons. split; [|exact Hnd].
        intros Hin. apply Hnin, list_elem_of_In, Hin.
    + eapply same_payload_trans.
      * apply same_payload_insert with (p := a0) (b := ba) (b' := with_prev buf ba); auto.
      * apply same_payload_insert with (b := b); auto.
        rewrite lookup_insert_ne by exact Hne. exact Hb.
    + intros a Ha Ha'. cbn in Ha'.
      assert (a <> a0) by (apply Ha'; discriminate).
      rewrite !lookup_insert_ne; auto.
    + repeat split.
Qed.

(** Taking the first buffer off a well-formed queue. *)
Lemma seq_pop_head_refines
    (h : mem) (s : input_impl_seq) (a : addr) (r : list addr) :
  queue_is h s (a :: r) ->
  exists h' s',
    input_stream_seq_pop_head h s = Some (h', s', a)
    /\ queue_is h' s' r
    /\ same_payload h h'
    /\ (forall x, (r <> [] -> x <> hd 0%N r) -> h' !! x = h !! x)
    /\ same_rest s s'.
Proof.
  intros (Hq & Ht & Hseg & Hnd). cbn in Hq. cbn [seg] in Hseg.
  destruct Hseg as (Ha & (ba & Hba & Hpa & Hna) & Hseg).
  apply NoDup_cons in Hnd. destruct Hnd as (Hnin & Hnd).
  unfold input_stream_seq_pop_head. rewrite Hq, Hba. cbn.
  destruct r as [|c r'].
  - cbn in Hna. rewrite Hna. cbn.
    eexists _, _. split; [reflexivity|]. split; [|split; [|split]].
    + repeat split; cbn; auto; apply NoDup_nil; exact I.
    + apply same_payload_refl.
    + reflexivity.
    + repeat split.
  - cbn in Hna. cbn [seg] in Hseg.
    destruct Hseg as (Hc & (bc & Hbc & Hpc & Hnc) & Hseg').
    rewrite Hna. assert (Hcz : (c =? 0)%N = false) by (apply N.eqb_neq; exact Hc).
    rewrite Hcz. rewrite (store_at _ _ _ _ Hbc). cbn.
    eexists _, _. split; [reflexivity|]. split; [|split; [|split]].
    + split; [|split; [|split]].
      * reflexivity.
      * cbn [queue_tail with_queue]. rewrite Ht. reflexivity.
      * cbn [seg]. split; [exact Hc|]. split.
        { exists (with_prev 0%N bc). rewrite lookup_insert_eq. auto. }
        eapply seg_frame; [|exact Hseg']. intros x Hx.
        apply NoDup_cons in Hnd. destruct Hnd as (Hn0 & _).
        rewrite lookup_insert_ne; auto.
        intros ->. apply Hn0, list_elem_of_In, Hx.
      * exact Hnd.
    + apply same_payload_insert with (b := bc); auto.
    + intros x Hx. cbn in Hx.
      assert (x <> c) by (apply Hx; discriminate).
      rewrite lookup_insert_ne; auto.
    + repeat split.
Qed.

(** Taking the last buffer off a well-formed queue. *)
Lemma seq_pop_tail_refines
    (h : mem) (s : input_impl_seq) (l : list addr) (a : addr) :
  queue_is h s (l ++ [a]) ->
  exists h' s',
    input_stream_seq_pop_tail h s = Some (h', s', a)
    /\ queue_is h' s' l
    /\ same_payload h h'
    /\ (forall x, (l <> [] -> x <> List.last l 0%N) -> h' !! x = h !! x)
    /\ same_rest s s'.
Proof.
  intros (Hq & Ht & Hseg & Hnd). rewrite last_snoc in Ht.
  apply seg_snoc in Hseg. destruct Hseg as (Hseg & Ha & (ba & Hba & Hpa & Hna)).
  apply NoDup_app in Hnd. destruct Hnd as (Hnd & Hdis & _).
  unfold input_stream_seq_pop_tail. rewrite Ht, Hba. cbn.
  destruct l as [|t l'] using rev_ind.
  - cbn in Hpa. rewrite Hpa. cbn.
    eexists _, _. split; [reflexivity|]. split; [|split; [|split]].
    + repeat split; cbn; auto; apply NoDup_nil; exact I.
    + apply same_payload_refl.
    + reflexivity.
    + repeat split.
  - clear IHl'. rewrite last_snoc in Hpa.
    apply seg_snoc in Hseg. destruct Hseg as (Hseg & Htz & (bt & Hbt & Hpt & Hnt)).
    rewrite Hpa. assert (Hcz : (t =? 0)%N = false) by (apply N.eqb_neq; exact Htz).
    rewrite Hcz. rewrite (store_at _ _ _ _ Hbt). cbn.
    eexists _, _. split; [reflexivity|]. split; [|split; [|split]].
    + split; [|split; [|split]].
      * cbn [queue with_queue_tail]. rewrite Hq.
        apply hd_app_nonempty. destruct l'; discriminate.
      * cbn. rewrite last_snoc. reflexivity.
      * apply seg_snoc. split; [|split].
        -- eapply seg_frame; [|exact Hseg]. intros x Hx.
           apply NoDup_app in Hnd. destruct Hnd as (_ & Hd' & _).
           rewrite lookup_insert_ne; auto.
           intros ->. apply (Hd' x); apply list_elem_of_In; [exact Hx | left; reflexivity].
        -- exact Htz.
        -- exists (with_next 0%N bt). rewrite lookup_insert_eq. auto.
      * exact Hnd.
    + apply same_payload_insert with (b := bt); auto.
    + intros x Hx. rewrite last_snoc in Hx.
      assert (x <> t) by (apply Hx; destruct l'; discriminate).
      rewrite lookup_insert_ne; auto.
    + repeat split.
Qed.

(** On an empty queue the two pop functions read through the null
    pointer. *)
Lemma pop_on_empty_queue (h : mem) (s : input_impl_seq) :
  queue_is h s [] -> h !! 0%N = None ->
  input_stream_seq_pop_head h s = None /\ input_stream_seq_pop_tail h s = None.
Proof.
  intros (Hq & Ht & _) Hnull. cbn in Hq, Ht.
  unfold input_stream_seq_pop_head, input_stream_seq_pop_tail. cbn zeta.
  rewrite Hq, Ht. unfold addr in *. rewrite Hnull. split; reflexivity.
Qed.

Lemma seg_allocated (h : mem) (l : list addr) :
  forall (p n a : addr), seg h p l n -> In a l -> exists b, h !! a = Some b.
Proof.
  induction l as [|c r IH]; intros p n a Hs Hin; [destruct Hin|].
  cbn in Hs. destruct Hs as (_ & (b & Hb & _) & Hr).
  destruct Hin as [<- | Hin]; [eauto|]. eapply IH; eauto.
Qed.

Lemma seg_links_eq (h h' : mem) (l : list addr) :
  forall (p n a : addr) (b b' : seq_buf),
    seg h p l n -> seg h' p l n -> NoDup l -> In a l ->
    h !! a = Some b -> h' !! a = Some b' ->
    prev b = prev b' /\ next b = next b'.
Proof.
  induction l as [|c r IH]; intros p n a b b' Hs Hs' Hnd Hin Hb Hb'; [destruct Hin|].
  cbn in Hs, Hs'.
  destruct Hs as (_ & (x & Hx & Hpx & Hnx) & Hr).
  destruct Hs' as (_ & (x' & Hx' & Hpx' & Hnx') & Hr').
  apply NoDup_cons in Hnd. destruct Hnd as (_ & Hnd).
  destruct Hin as [<- | Hin].
  - rewrite Hb in Hx. rewrite Hb' in Hx'. injection Hx as <-. injection Hx' as <-.
    split; congruence.
  - eapply IH; eauto.
Qed.

Lemma seg_update_payload (h : mem) (a : addr) (b b' : seq_buf) (l : list addr) :
  forall p n : addr,
    h !! a = Some b -> prev b' = prev b -> next b' = next b ->
    seg h p l n -> seg (<[a := b']> h) p l n.
Proof.
  induction l as [|c r IH]; intros p n Hb Hp Hn Hs; cbn in *; [exact I|].
  destruct Hs as (Hc & (x & Hx & Hpx & Hnx) & Hr). split; [exact Hc|]. split.
  - destruct (decide (a = c)) as [-> | Hne].
    + exists b'. rewrite lookup_insert_eq. rewrite Hx in Hb. injection Hb as <-.
      split; [reflexivity|]. split; congruence.
    + exists x. rewrite lookup_insert_ne by exact Hne. auto.
  - apply IH; auto.
Qed.

Lemma seq_buf_ext (b b' : seq_buf) :
  payload b = payload b' -> prev b = prev b' -> next b = next b' -> b = b'.
Proof.
  destruct b, b'. unfold payload. cbn. intros E -> ->. injection E as -> -> -> ->.
  reflexivity.
Qed.

Lemma queue_is_state (h h' : mem) (s s' : input_impl_seq) (l : list addr) :
  queue_is h s l -> queue_is h' s' l -> same_rest s s' -> s' = s.
Proof.
  intros (Hq & Ht & _) (Hq' & Ht' & _) (Hs & He & Hp).
  destruct s, s'. cbn in *. congruence.
Qed.

(** X18: [input_append_tree] puts a new [SB_TOKEN] buffer that holds the
    tree at the end of a well-formed queue and leaves the payload of the
    buffers of the queue; [input_undo_append_tree] right after it returns
    that tree and gives back the store and the input exactly as they were
    before the append, the new buffer freed. *)
Theorem input_append_tree_undo
    (h : mem) (s : input_impl_seq) (l : list addr) (ad tree_ : addr) :
  queue_is h s l ->
  h !! ad = None ->
  ad <> 0%N ->
  exists h1 s1,
    input_append_tree h s ad tree_ = Some (h1, s1)
    /\ queue_is h1 s1 (l ++ [ad])
    /\ (exists b, h1 !! ad = Some b /\ type b = SB_TOKEN /\ tree b = tree_)
    /\ (forall a, In a l -> payload <$> (h1 !! a) = payload <$> (h !! a))
    /\ input_undo_append_tree h1 s1 = Some (h, s, tree_).
Proof.
  intros Hqi Hfresh Hnz.
  assert (Hnin : ~ In ad l).
  { intros Hin. destruct Hqi as (_ & _ & Hseg & _).
    destruct (seg_allocated _ _ _ _ _ Hseg Hin) as (b & Hb). congruence. }
  assert (Hqi0 : queue_is (new_seq_buf h ad) s l).
  { destruct Hqi as (Hq & Ht & Hseg & Hnd). repeat split; auto.
    eapply seg_frame; [|exact Hseg]. intros a Ha. unfold new_seq_buf.
    apply lookup_insert_ne. intros ->. exact (Hnin Ha). }
  destruct (seq_append_refines (new_seq_buf h ad) s l ad zero_buf Hqi0)
    as (ha & sa & Happ & Hqa & Hpay & Hfr & Hrest); auto.
  { apply lookup_insert_eq. }
  unfold input_append_tree. cbn zeta. rewrite Happ. cbn.
  pose proof Hqa as (Hqa1 & Hqa2 & Hsega & Hnda).
  destruct (seg_allocated _ _ _ _ ad Hsega) as (ba & Hba).
  { apply in_or_app. right. left. reflexivity. }
  rewrite (store_at _ _ _ _ Hba). cbn.
  rewrite (store_at _ ad _ (with_type SB_TOKEN ba)) by apply lookup_insert_eq. cbn.
  rewrite insert_insert_eq.
  set (bf := with_tree tree_ (with_type SB_TOKEN ba)).
  assert (Hqf : queue_is (<[ad := bf]> ha) sa (l ++ [ad])).
  { repeat split; auto. eapply seg_update_payload; eauto. }
  eexists _, _. split; [reflexivity|]. split; [exact Hqf|]. split; [|split].
  - exists bf. rewrite lookup_insert_eq. auto.
  - intros a Ha. rewrite lookup_insert_ne by (intros ->; exact (Hnin Ha)).
    rewrite Hpay. unfold new_seq_buf.
    rewrite lookup_insert_ne by (intros ->; exact (Hnin Ha)). reflexivity.
  - destruct (seq_pop_tail_refines _ _ _ _ Hqf)
      as (hp & sp & Hpop & Hqp & Hpayp & Hfrp & Hrestp).
    unfold input_undo_append_tree. rewrite Hpop. cbn.
    assert (Hlast : l <> [] -> ad <> List.last l 0%N).
    { intros Hne ->. apply Hnin. destruct l as [|c r] using rev_ind; [congruence|].
      rewrite last_snoc. apply in_or_app. right. left. reflexivity. }
    rewrite (Hfrp ad Hlast), lookup_insert_eq. cbn.
    assert (E1 : free hp ad = h); [|assert (E2 : sp = s); [|rewrite E1, E2; reflexivity]].
    + (* the store is the one before *)
      apply map_eq. intros x. unfold free.
      destruct (decide (x = ad)) as [-> | Hx].
      { rewrite lookup_delete_eq. symmetry. exact Hfresh. }
      rewrite lookup_delete_ne by congruence.
      destruct (In_dec N.eq_dec x l) as [Hin | Hout].
      * destruct Hqi as (_ & _ & Hseg & Hnd). destruct Hqp as (_ & _ & Hsegp & _).
        destruct (seg_allocated _ _ _ _ _ Hseg Hin) as (b & Hb).
        destruct (seg_allocated _ _ _ _ _ Hsegp Hin) as (b' & Hb').
        destruct (seg_links_eq hp h l _ _ x b' b Hsegp Hseg Hnd Hin Hb' Hb) as (Hp & Hn).
        rewrite Hb, Hb'. f_equal. apply seq_buf_ext; [|exact Hp|exact Hn].
        -- pose proof (Hpayp x) as E1. rewrite Hb' in E1.
           rewrite lookup_insert_ne in E1 by congruence.
           rewrite (Hpay x) in E1. unfold new_seq_buf in E1.
           rewrite lookup_insert_ne in E1 by congruence. rewrite Hb in E1.
           cbn in E1. congruence.
      * assert (Hxl : l <> [] -> x <> List.last l 0%N).
        { intros Hne ->. apply Hout. destruct l as [|c r] using rev_ind; [congruence|].
          rewrite last_snoc. apply in_or_app. right. left. reflexivity. }
        rewrite (Hfrp x Hxl). rewrite lookup_insert_ne by congruence.
        rewrite (Hfr x Hx Hxl). unfold new_seq_buf.
        apply lookup_insert_ne. congruence.
    + (* and so is the struct *)
      eapply queue_is_state; [exact Hqi | exact Hqp |].
      destruct Hrest as (A1 & A2 & A3). destruct Hrestp as (B1 & B2 & B3).
      repeat split; congruence.
Qed.

Lemma chain_frame (h h' : mem) (l : list addr) :
  forall p : addr,
    (forall a, In a l -> h' !! a = h !! a) ->
    chain h p l -> chain h' p l.
Proof.
  induction l as [|a r IH]; intros p Hf Hc; cbn in *; [exact Hc|].
  destruct Hc as (Hp & Ha & (b & Hb & Hr)). split; [exact Hp|]. split; [exact Ha|].
  exists b. rewrite Hf by (left; reflexivity). split; [exact Hb|].
  apply IH; [|exact Hr]. intros x Hx. apply Hf. right. exact Hx.
Qed.

Lemma same_payload_at (h h' : mem) (a : addr) (b : seq_buf) :
  same_payload h h' -> h !! a = Some b ->
  exists b', h' !! a = Some b' /\ payload b' = payload b.
Proof.
  intros Hp Hb. specialize (Hp a). rewrite Hb in Hp.
  destruct (h' !! a) as [b'|]; cbn in Hp; [|discriminate].
  exists b'. split; [reflexivity|]. congruence.
Qed.

Lemma buf_at_payload (h h' : mem) (P : seq_buf -> bool) (a : addr) :
  (forall b b', payload b' = payload b -> P b' = P b) ->
  same_payload h h' -> buf_at h P a -> buf_at h' P a.
Proof.
  intros HP Hp (b & Hb & Hb').
  destruct (same_payload_at _ _ _ _ Hp Hb) as (b' & E & E').
  exists b'. split; [exact E|]. rewrite (HP _ _ E'). exact Hb'.
Qed.

Lemma is_stream_payload (b b' : seq_buf) :
  payload b' = payload b -> is_stream b' = is_stream b.
Proof. unfold payload, is_stream. intros E. injection E as -> _ _ _. reflexivity. Qed.

Lemma is_tree_payload (b b' : seq_buf) :
  payload b' = payload b -> is_tree b' = is_tree b.
Proof. unfold payload, is_tree. intros E. injection E as -> _ _ _. reflexivity. Qed.

(** One round of the loop of [input_consume_tree]: the head of the queue
    goes to the stash. *)
Lemma move_to_stash (h : mem) (s : input_impl_seq) (a : addr) (r st : list addr) :
  seq_is h s (a :: r) st ->
  exists h1 s1 h2 s2,
    input_stream_seq_pop_head h s = Some (h1, s1, a)
    /\ input_stream_stash_head h1 s1 a = Some (h2, s2)
    /\ seq_is h2 s2 r (a :: st)
    /\ same_payload h h2
    /\ h2 !! a = with_next (stash s) <$> h !! a.
Proof.
  intros (Hqi & (Hch & Hnds) & Hdis).
  destruct (seq_pop_head_refines _ _ _ _ Hqi)
    as (h1 & s1 & Hpop & Hq1 & Hpay & Hfr & (Hst & He & Hpo)).
  pose proof Hqi as (_ & _ & Hseg & Hnd).
  apply NoDup_cons in Hnd. destruct Hnd as (Har & Hndr).
  cbn [seg] in Hseg. destruct Hseg as (Haz & (ba & Hba & _) & _).
  assert (Hhd : forall x, ~ In x r -> r <> [] -> x <> hd 0%N r).
  { intros x Hx Hne ->. apply Hx. destruct r; [congruence | left; reflexivity]. }
  assert (Har' : ~ In a r) by (intros Hin; apply Har, list_elem_of_In, Hin).
  assert (Hba1 : h1 !! a = Some ba) by (rewrite Hfr; auto).
  exists h1, s1. unfold input_stream_stash_head.
  rewrite (store_at _ _ _ _ Hba1). cbn.
  eexists _, _. split; [exact Hpop|]. split; [reflexivity|].
  split; [|split].
  - split; [|split].
    + destruct Hq1 as (A & B & C & D). repeat split; auto.
      eapply seg_frame; [|exact C]. intros x Hx.
      apply lookup_insert_ne. intros ->. exact (Har' Hx).
    + split.
      * cbn [chain stash with_stash]. split; [reflexivity|]. split; [exact Haz|].
        eexists. rewrite lookup_insert_eq. split; [reflexivity|].
        cbn [next with_next]. rewrite Hst.
        eapply chain_frame; [|exact Hch]. intros x Hx.
        assert (Hxa : x <> a).
        { intros ->. apply (Hdis a); [left; reflexivity | exact Hx]. }
        rewrite lookup_insert_ne by congruence. apply Hfr. apply Hhd.
        intros Hin. apply (Hdis x); [right; exact Hin | exact Hx].
      * apply NoDup_cons. split; [|exact Hnds].
        intros Hin. apply list_elem_of_In in Hin.
        apply (Hdis a); [left; reflexivity | exact Hin].
    + intros x Hx [<- | Hin]; [exact (Har' Hx)|].
      apply (Hdis x); [right; exact Hx | exact Hin].
  - eapply same_payload_trans; [exact Hpay|].
    apply same_payload_insert with (b := ba); auto.
  - rewrite lookup_insert_eq, Hba, Hst. reflexivity.
Qed.

(** One round of the loop of [input_undo_consume_tree]: the head of the
    stash goes back to the front of the queue. *)
Lemma restore_from_stash (h : mem) (s : input_impl_seq) (a : addr) (q st : list addr) :
  seq_is h s q (a :: st) ->
  exists s1 h2 s2,
    input_stream_pop_stash h s = Some (s1, a)
    /\ input_stream_seq_prepend h s1 a = Some (h2, s2)
    /\ seq_is h2 s2 (a :: q) st
    /\ same_payload h h2.
Proof.
  intros (Hqi & (Hch & Hnds) & Hdis).
  cbn [chain] in Hch. destruct Hch as (Hsa & Haz & (ba & Hba & Hch)).
  apply NoDup_cons in Hnds. destruct Hnds as (Hast & Hnds).
  assert (Hast' : ~ In a st) by (intros Hin; apply Hast, list_elem_of_In, Hin).
  assert (Haq : ~ In a q) by (intros Hin; apply (Hdis a Hin); left; reflexivity).
  unfold input_stream_pop_stash. rewrite Hsa, Hba. cbn.
  assert (Hqi1 : queue_is h (with_stash (next ba) s) q).
  { destruct Hqi as (A & B & C & D). repeat split; auto. }
  destruct (seq_prepend_refines _ _ _ _ _ Hqi1 Hba Haz Haq)
    as (h2 & s2 & Hpre & Hq2 & Hpay & Hfr & (Hst & He & Hpo)).
  eexists _, h2, s2. split; [reflexivity|]. split; [exact Hpre|].
  split; [|exact Hpay].
  split; [exact Hq2|]. split.
  - split; [|exact Hnds]. rewrite Hst. cbn [stash with_stash].
    eapply chain_frame; [|exact Hch]. intros x Hx. apply Hfr.
    + intros ->. exact (Hast' Hx).
    + intros Hne ->. apply (Hdis (hd 0%N q)); [|right; exact Hx].
      destruct q; [congruence | left; reflexivity].
  - intros x [<- | Hx] Hin; [exact (Hast' Hin)|].
    apply (Hdis x Hx). right. exact Hin.
Qed.

Lemma seq_is_head (h : mem) (s : input_impl_seq) (a : addr) (r st : list addr) :
  seq_is h s (a :: r) st ->
  queue s = a /\ a <> 0%N /\ exists b, h !! a = Some b.
Proof.
  intros ((Hq & _ & Hseg & _) & _). cbn in Hq, Hseg.
  destruct Hseg as (Ha & (b & Hb & _) & _). eauto.
Qed.

(** The first loop of [input_consume_tree]: the sub-streams at the front
    of the queue go to the stash, the last one skipped on top. *)
Lemma skip_streams_spec (ss : list addr) :
  forall (fuel : nat) (h : mem) (s : input_impl_seq) (q st : list addr),
    seq_is h s (ss ++ q) st ->
    Forall (buf_at h is_stream) ss ->
    (forall t r, q = t :: r -> buf_at h (fun b => negb (is_stream b)) t) ->
    (length ss < fuel)%nat ->
    exists h' s',
      skip_streams fuel h s = Some (h', s')
      /\ seq_is h' s' q (rev ss ++ st)
      /\ same_payload h h'.
Proof.
  induction ss as [|a ss IH]; intros fuel h s q st Hinv Hss Hq Hfuel.
  - destruct fuel as [|fuel]; [cbn in Hfuel; lia|]. cbn [skip_streams app rev].
    destruct q as [|t r].
    + pose proof Hinv as ((Hq0 & _) & _). cbn in Hq0. rewrite Hq0. cbn.
      eexists _, _. split; [reflexivity|]. split; [exact Hinv|apply same_payload_refl].
    + pose proof (seq_is_head _ _ _ _ _ Hinv) as (Hq0 & Htz & _).
      destruct (Hq t r eq_refl) as (bt & Hbt & Hns).
      rewrite Hq0. apply N.eqb_neq in Htz. rewrite Htz. rewrite Hbt. cbn.
      apply negb_true_iff in Hns. rewrite Hns.
      eexists _, _. split; [reflexivity|]. split; [exact Hinv|apply same_payload_refl].
  - destruct fuel as [|fuel]; [cbn in Hfuel; lia|]. cbn [skip_streams].
    cbn [app] in Hinv.
    pose proof (seq_is_head _ _ _ _ _ Hinv) as (Hq0 & Haz & _).
    apply Forall_cons in Hss. destruct Hss as ((ba & Hba & Hsa) & Hss).
    rewrite Hq0. apply N.eqb_neq in Haz. rewrite Haz. rewrite Hba. cbn.
    rewrite Hsa.
    destruct (move_to_stash _ _ _ _ _ Hinv)
      as (h1 & s1 & h2 & s2 & Hpop & Hsth & Hinv2 & Hpay & _).
    rewrite Hpop. cbn. rewrite Hsth. cbn.
    destruct (IH fuel h2 s2 q (a :: st)) as (h' & s' & Hsk & Hinv' & Hpay').
    + exact Hinv2.
    + eapply List.Forall_impl; [|exact Hss]. intros x.
      apply buf_at_payload; [apply is_stream_payload | exact Hpay].
    + intros t r E. eapply buf_at_payload; [| exact Hpay | exact (Hq t r E)].
      intros b b' E'. rewrite (is_stream_payload _ _ E'). reflexivity.
    + cbn in Hfuel. lia.
    + exists h', s'. split; [exact Hsk|]. split.
      * cbn [rev]. rewrite <- app_assoc. exact Hinv'.
      * eapply same_payload_trans; eassumption.
Qed.

Lemma is_tree_not_stream (b : seq_buf) : is_tree b = true -> is_stream b = false.
Proof. unfold is_tree, is_stream. destruct (type b); congruence. Qed.

(** [input_consume_tree] on a queue that holds a tree behind sub-streams. *)
Lemma consume_tree_refines
    (fuel : nat) (h : mem) (s : input_impl_seq)
    (ss : list addr) (t : addr) (rest st : list addr) (bt : seq_buf) :
  seq_is h s (ss ++ t :: rest) st ->
  Forall (buf_at h is_stream) ss ->
  h !! t = Some bt -> is_tree bt = true ->
  (length ss < fuel)%nat ->
  exists h' s',
    input_consume_tree fuel h s = Some (h', s', tree bt)
    /\ seq_is h' s' rest (t :: rev ss ++ st)
    /\ same_payload h h'.
Proof.
  intros Hinv Hss Hbt Htree Hfuel.
  destruct (skip_streams_spec ss fuel h s (t :: rest) st Hinv Hss)
    as (h1 & s1 & Hsk & Hinv1 & Hpay1); [|exact Hfuel|].
  { intros t' r' E. injection E as <- <-. exists bt. split; [exact Hbt|].
    rewrite (is_tree_not_stream _ Htree). reflexivity. }
  unfold input_consume_tree. rewrite Hsk. cbn.
  pose proof (seq_is_head _ _ _ _ _ Hinv1) as (Hq1 & Htz & _).
  destruct (same_payload_at _ _ _ _ Hpay1 Hbt) as (bt1 & Hbt1 & Ep).
  rewrite Hq1. apply N.eqb_neq in Htz. rewrite Htz. rewrite Hbt1. cbn.
  rewrite (is_tree_payload _ _ Ep), Htree.
  destruct (move_to_stash _ _ _ _ _ Hinv1)
    as (h2 & s2 & h3 & s3 & Hpop & Hsth & Hinv3 & Hpay3 & Hat).
  rewrite Hpop. cbn. rewrite Hsth. cbn. rewrite Hat, Hbt1. cbn.
  exists h3, s3. split.
  - f_equal. f_equal. unfold payload in Ep. congruence.
  - split; [exact Hinv3|]. eapply same_payload_trans; eassumption.
Qed.

(** [input_undo_consume_tree] on a stash that holds a tree under buffers
    that are no trees. *)
Lemma undo_consume_tree_refines (tree_id : addr -> Z) (ns : list addr) :
  forall (fuel : nat) (h : mem) (s : input_impl_seq)
         (t : addr) (q st : list addr) (bt : seq_buf) (tree_ : addr),
    seq_is h s q (ns ++ t :: st) ->
    Forall (buf_at h (fun b => negb (is_tree b))) ns ->
    h !! t = Some bt -> is_tree bt = true ->
    tree_id (tree bt) = tree_id tree_ ->
    (length ns < fuel)%nat ->
    exists h' s',
      input_undo_consume_tree tree_id fuel h s tree_ = Some (h', s')
      /\ seq_is h' s' (t :: rev ns ++ q) st
      /\ same_payload h h'.
Proof.
  induction ns as [|a ns IH]; intros fuel h s t q st bt tree_ Hinv Hns Hbt Htree Hid Hfuel.
  - destruct fuel as [|fuel]; [cbn in Hfuel; lia|]. cbn [input_undo_consume_tree].
    cbn [app] in Hinv.
    destruct (restore_from_stash _ _ _ _ _ Hinv) as (s1 & h2 & s2 & Hpop & Hpre & Hinv2 & Hpay).
    rewrite Hpop. cbn. rewrite Hpre. cbn.
    destruct (same_payload_at _ _ _ _ Hpay Hbt) as (bt2 & Hbt2 & Ep).
    rewrite Hbt2. cbn. rewrite (is_tree_payload _ _ Ep), Htree.
    assert (Et : tree bt2 = tree bt) by (unfold payload in Ep; congruence).
    rewrite Et, Hid, Z.eqb_refl.
    exists h2, s2. split; [reflexivity|]. split; [exact Hinv2 | exact Hpay].
  - destruct fuel as [|fuel]; [cbn in Hfuel; lia|]. cbn [input_undo_consume_tree].
    cbn [app] in Hinv.
    destruct (restore_from_stash _ _ _ _ _ Hinv) as (s1 & h2 & s2 & Hpop & Hpre & Hinv2 & Hpay).
    rewrite Hpop. cbn. rewrite Hpre. cbn.
    apply Forall_cons in Hns. destruct Hns as ((ba & Hba & Hna) & Hns).
    destruct (same_payload_at _ _ _ _ Hpay Hba) as (ba2 & Hba2 & Epa).
    rewrite Hba2. cbn. rewrite (is_tree_payload _ _ Epa).
    apply negb_true_iff in Hna. rewrite Hna.
    destruct (same_payload_at _ _ _ _ Hpay Hbt) as (bt2 & Hbt2 & Ep).
    destruct (IH fuel h2 s2 t (a :: q) st bt2 tree_) as (h' & s' & Hun & Hinv' & Hpay').
    + exact Hinv2.
    + eapply List.Forall_impl; [|exact Hns]. intros x.
      apply buf_at_payload; [|exact Hpay].
      intros b b' E'. rewrite (is_tree_payload _ _ E'). reflexivity.
    + exact Hbt2.
    + rewrite (is_tree_payload _ _ Ep). exact Htree.
    + unfold payload in Ep. congruence.
    + cbn in Hfuel. lia.
    + exists h', s'. split; [exact Hun|]. split.
      * cbn [rev]. rewrite <- app_assoc. exact Hinv'.
      * eapply same_payload_trans; eassumption.
Qed.


(** X14: [input_stream_seq_append] on a well-formed queue [l] and a buffer
    [buf] that is not in it: the queue becomes [l] followed by [buf], still
    well formed; the type, tree and stream of every buffer stay; only [buf]
    and the former last buffer are written; the stash, the end mark and
    the position of the input stay. *)
Theorem input_stream_seq_append_spec
    (h : mem) (s : input_impl_seq) (l : list addr) (buf : addr) (b : seq_buf) :
  queue_is h s l ->
  h !! buf = Some b ->
  buf <> 0%N ->
  ~ In buf l ->
  exists h' s',
    SeqQueue.input_stream_seq_append h s buf = Some (h', s')
    /\ queue_is h' s' (l ++ [buf])
    /\ same_payload h h'
    /\ (forall a, a <> buf -> (l <> [] -> a <> List.last l 0%N) -> h' !! a = h !! a)
    /\ same_rest s s'.
Proof. apply seq_append_refines. Qed.

(** X15: [input_stream_seq_prepend] on a well-formed queue [l] and a
    buffer [buf] that is not in it: the queue becomes [buf] followed by
    [l], still well formed; payloads stay; only [buf] and the former first
    buffer are written. *)
Theorem input_stream_seq_prepend_spec
    (h : mem) (s : input_impl_seq) (l : list addr) (buf : addr) (b : seq_buf) :
  queue_is h s l ->
  h !! buf = Some b ->
  buf <> 0%N ->
  ~ In buf l ->
  exists h' s',
    SeqQueue.input_stream_seq_prepend h s buf = Some (h', s')
    /\ queue_is h' s' (buf :: l)
    /\ same_payload h h'
    /\ (forall a, a <> buf -> (l <> [] -> a <> hd 0%N l) -> h' !! a = h !! a)
    /\ same_rest s s'.
Proof. apply seq_prepend_refines. Qed.

(** X16: [input_stream_seq_pop_head] on a well-formed queue with first
    buffer [a] returns [a] and leaves the rest as a well-formed queue; only
    the new first buffer is written, [a] itself is not. *)
Theorem input_stream_seq_pop_head_spec
    (h : mem) (s : input_impl_seq) (a : addr) (r : list addr) :
  queue_is h s (a :: r) ->
  exists h' s',
    SeqQueue.input_stream_seq_pop_head h s = Some (h', s', a)
    /\ queue_is h' s' r
    /\ same_payload h h'
    /\ (forall x, (r <> [] -> x <> hd 0%N r) -> h' !! x = h !! x)
    /\ same_rest s s'.
Proof. apply seq_pop_head_refines. Qed.

(** X17: [input_stream_seq_pop_tail] on a well-formed queue with last
    buffer [a] returns [a] and leaves the buffers before it as a
    well-formed queue; only the new last buffer is written. *)
Theorem input_stream_seq_pop_tail_spec
    (h : mem) (s : input_impl_seq) (l : list addr) (a : addr) :
  queue_is h s (l ++ [a]) ->
  exists h' s',
    SeqQueue.input_stream_seq_pop_tail h s = Some (h', s', a)
    /\ queue_is h' s' l
    /\ same_payload h h'
    /\ (forall x, (l <> [] -> x <> List.last l 0%N) -> h' !! x = h !! x)
    /\ same_rest s s'.
Proof. apply seq_pop_tail_refines. Qed.

(** X19: on a queue that holds the sub-streams [ss], then the tree buffer
    [t], then [rest], [input_consume_tree] returns the tree of [t], leaves
    [rest] as the queue and puts [t] on the stash above the sub-streams
    [ss], the last of them on top; as many rounds of its loop as [ss] has
    buffers, and one test more, are enough. *)
Theorem input_consume_tree_spec
    (fuel : nat) (h : mem) (s : input_impl_seq)
    (ss : list addr) (t : addr) (rest st : list addr) (bt : seq_buf) :
  seq_is h s (ss ++ t :: rest) st ->
  Forall (buf_at h is_stream) ss ->
  h !! t = Some bt -> is_tree bt = true ->
  (length ss < fuel)%nat ->
  exists h' s',
    SeqQueue.input_consume_tree fuel h s = Some (h', s', tree bt)
    /\ seq_is h' s' rest (t :: rev ss ++ st)
    /\ same_payload h h'.
Proof. apply consume_tree_refines. Qed.

(** X20: on a stash that holds the buffers [ns], no trees, above the tree
    buffer [t] whose tree has the id of the tree given,
    [input_undo_consume_tree] moves [t] and [ns] back to the front of the
    queue, [t] first and [ns] behind it in reverse order, and leaves the
    stash below [t]. *)
Theorem input_undo_consume_tree_spec
    (tree_id : addr -> Z) (ns : list addr) (fuel : nat)
    (h : mem) (s : input_impl_seq)
    (t : addr) (q st : list addr) (bt : seq_buf) (tree_ : addr) :
  seq_is h s q (ns ++ t :: st) ->
  Forall (buf_at h (fun b => negb (is_tree b))) ns ->
  h !! t = Some bt -> is_tree bt = true ->
  tree_id (tree bt) = tree_id tree_ ->
  (length ns < fuel)%nat ->
  exists h' s',
    SeqQueue.input_undo_consume_tree tree_id fuel h s tree_ = Some (h', s')
    /\ seq_is h' s' (t :: rev ns ++ q) st
    /\ same_payload h h'.
Proof. apply undo_consume_tree_refines. Qed.

(** X21: [input_undo_consume_tree] right after [input_consume_tree] puts
    the tree buffer back at the front of the queue, and stops there: the
    sub-streams that the consume skipped stay on the stash.  The queue is
    the one before the consume only where no sub-stream was in front of
    the tree. *)
Theorem input_consume_tree_then_undo
    (tree_id : addr -> Z) (fuel : nat) (h : mem) (s : input_impl_seq)
    (ss : list addr) (t : addr) (rest st : list addr) (bt : seq_buf) :
  seq_is h s (ss ++ t :: rest) st ->
  Forall (buf_at h is_stream) ss ->
  h !! t = Some bt -> is_tree bt = true ->
  (length ss < fuel)%nat ->
  exists h1 s1 h2 s2,
    SeqQueue.input_consume_tree fuel h s = Some (h1, s1, tree bt)
    /\ SeqQueue.input_undo_consume_tree tree_id 1 h1 s1 (tree bt) = Some (h2, s2)
    /\ seq_is h2 s2 (t :: rest) (rev ss ++ st)
    /\ same_payload h h2.
Proof.
  intros Hinv Hss Hbt Htree Hfuel.
  destruct (consume_tree_refines fuel h s ss t rest st bt Hinv Hss Hbt Htree Hfuel)
    as (h1 & s1 & Hc & Hinv1 & Hpay1).
  destruct (same_payload_at _ _ _ _ Hpay1 Hbt) as (bt1 & Hbt1 & Ep).
  assert (Et : tree bt1 = tree bt) by (unfold payload in Ep; congruence).
  destruct (undo_consume_tree_refines tree_id [] 1 h1 s1 t rest (rev ss ++ st) bt1 (tree bt))
    as (h2 & s2 & Hu & Hinv2 & Hpay2).
  - exact Hinv1.
  - constructor.
  - exact Hbt1.
  - rewrite (is_tree_payload _ _ Ep). exact Htree.
  - rewrite Et. reflexivity.
  - cbn. lia.
  - exists h1, s1, h2, s2. split; [exact Hc|]. split; [exact Hu|].
    split; [exact Hinv2|]. eapply same_payload_trans; eassumption.
Qed.

End QueueFacts.
(* ===================================================================== *)
(** * The further theorems at concrete inputs *)
(* ===================================================================== *)

Section MoreInstances.
Import ItemIter Items.

Lemma rangePairIter_classifies_keys_witness :
  RangeSpec.SortedDisjoint exampleList1 /\ RangeSpec.SortedDisjoint exampleList2
  /\ (RangeCover.reportsInS1
        (RangePairIter.trace (RangeSpec.fuel exampleList1 exampleList2)
           (RangePairIter.new exampleList1 exampleList2)) 6
      <-> RangeCover.inRanges exampleList1 6 /\ ~ RangeCover.inRanges exampleList2 6).
Proof.
  assert (H1 : RangeSpec.SortedDisjoint exampleList1)
    by (unfold RangeSpec.SortedDisjoint; cbn; lia).
  assert (H2 : RangeSpec.SortedDisjoint exampleList2)
    by (unfold RangeSpec.SortedDisjoint; cbn; lia).
  split; [exact H1|]. split; [exact H2|].
  exact (proj1 (rangePairIter_classifies_keys exampleList1 exampleList2 H1 H2 6)).
Defined.

Lemma valPairIter_single_pass_witness :
  (length [mkCondAp 1 0; mkCondAp 3 0] + length [mkCondAp 3 1; mkCondAp 4 1] <= 4)%nat
  /\ ValPairIter.is_end
       (ValSpec.advance 4
          (ValPairIter.new [mkCondAp 1 0; mkCondAp 3 0] [mkCondAp 3 1; mkCondAp 4 1]))
     = true.
Proof.
  assert (Hn : (length [mkCondAp 1 0; mkCondAp 3 0]
                + length [mkCondAp 3 1; mkCondAp 4 1] <= 4)%nat) by (cbn; lia).
  split; [exact Hn|].
  exact (proj1 (valPairIter_single_pass
                  [mkCondAp 1 0; mkCondAp 3 0] [mkCondAp 3 1; mkCondAp 4 1] 4%nat Hn)).
Defined.

Lemma valPairIter_classifies_keys_witness :
  ValSpec.SortedKeys [mkCondAp 1 0; mkCondAp 3 0]
  /\ ValSpec.SortedKeys [mkCondAp 3 1; mkCondAp 4 1]
  /\ (ValSpec.reportsOverlap
        (ValPairIter.trace
           (length [mkCondAp 1 0; mkCondAp 3 0] + length [mkCondAp 3 1; mkCondAp 4 1])
           (ValPairIter.new [mkCondAp 1 0; mkCondAp 3 0] [mkCondAp 3 1; mkCondAp 4 1])) 3
      <-> In 3 (ValSpec.keysOf [mkCondAp 1 0; mkCondAp 3 0])
          /\ In 3 (ValSpec.keysOf [mkCondAp 3 1; mkCondAp 4 1])).
Proof.
  assert (S1 : ValSpec.SortedKeys [mkCondAp 1 0; mkCondAp 3 0]).
  { unfold ValSpec.SortedKeys. cbn. repeat constructor; lia. }
  assert (S2 : ValSpec.SortedKeys [mkCondAp 3 1; mkCondAp 4 1]).
  { unfold ValSpec.SortedKeys. cbn. repeat constructor; lia. }
  split; [exact S1|]. split; [exact S2|].
  exact (proj2 (proj2 (valPairIter_classifies_keys _ _ S1 S2 3))).
Defined.

End MoreInstances.

Section QueueInstances.
Import SeqQueue.

Lemma exampleSeq_queue : queue_is exampleMem exampleSeq [1%N; 2%N].
Proof.
  split; [reflexivity|]. split; [reflexivity|]. split.
  - cbn [seg hd]. split; [discriminate|]. split.
    { eexists. split; [reflexivity|]. split; reflexivity. }
    split; [discriminate|]. split; [|exact I].
    eexists. split; [reflexivity|]. split; reflexivity.
  - apply (bool_decide_unpack _). reflexivity.
Qed.

Lemma exampleSeq_is : seq_is exampleMem exampleSeq [1%N; 2%N] [5%N].
Proof.
  split; [exact exampleSeq_queue|]. split.
  - split.
    + cbn [chain]. split; [reflexivity|]. split; [discriminate|].
      eexists. split; [reflexivity|]. reflexivity.
    + apply (bool_decide_unpack _). reflexivity.
  - intros a [<- | [<- | []]] [E | []]; discriminate.
Qed.

Lemma exampleSeq2_is : seq_is exampleMem2 exampleSeq2 [1%N] [5%N; 2%N; 6%N].
Proof.
  split; [|split].
  - split; [reflexivity|]. split; [reflexivity|]. split.
    + cbn [seg hd]. split; [discriminate|]. split; [|exact I].
      eexists. split; [reflexivity|]. split; reflexivity.
    + apply (bool_decide_unpack _). reflexivity.
  - split.
    + cbn [chain]. split; [reflexivity|]. split; [discriminate|].
      eexists. split; [reflexivity|].
      split; [reflexivity|]. split; [discriminate|].
      eexists. split; [reflexivity|].
      split; [reflexivity|]. split; [discriminate|].
      eexists. split; [reflexivity|]. reflexivity.
    + apply (bool_decide_unpack _). reflexivity.
  - intros a [<- | []] [E | [E | [E | []]]]; discriminate.
Qed.

Lemma example_3_nonnull : 3%N <> 0%N.
Proof. discriminate. Qed.

Lemma example_4_nonnull : 4%N <> 0%N.
Proof. discriminate. Qed.

Lemma exampleMem_3 : exampleMem !! 3%N = Some zero_buf.
Proof. reflexivity. Qed.

Lemma example_3_not_queued : ~ In 3%N [1%N; 2%N].
Proof. intros [E | [E | []]]; discriminate. Qed.

Lemma input_stream_seq_append_spec_witness :
  queue_is exampleMem exampleSeq [1%N; 2%N]
  /\ exists h' s',
       input_stream_seq_append exampleMem exampleSeq 3%N = Some (h', s')
       /\ queue_is h' s' ([1%N; 2%N] ++ [3%N]).
Proof.
  split; [exact exampleSeq_queue|].
  destruct (input_stream_seq_append_spec exampleMem exampleSeq [1%N; 2%N] 3%N zero_buf
              exampleSeq_queue exampleMem_3 example_3_nonnull example_3_not_queued)
    as (h' & s' & H1 & H2 & _).
  exists h', s'. split; assumption.
Defined.

Lemma input_stream_seq_prepend_spec_witness :
  queue_is exampleMem exampleSeq [1%N; 2%N]
  /\ exists h' s',
       input_stream_seq_prepend exampleMem exampleSeq 3%N = Some (h', s')
       /\ queue_is h' s' [3%N; 1%N; 2%N].
Proof.
  split; [exact exampleSeq_queue|].
  destruct (input_stream_seq_prepend_spec exampleMem exampleSeq [1%N; 2%N] 3%N zero_buf
              exampleSeq_queue exampleMem_3 example_3_nonnull example_3_not_queued)
    as (h' & s' & H1 & H2 & _).
  exists h', s'. split; assumption.
Defined.

Lemma input_stream_seq_pop_head_spec_witness :
  queue_is exampleMem exampleSeq [1%N; 2%N]
  /\ exists h' s',
       input_stream_seq_pop_head exampleMem exampleSeq = Some (h', s', 1%N)
       /\ queue_is h' s' [2%N].
Proof.
  split; [exact exampleSeq_queue|].
  destruct (input_stream_seq_pop_head_spec exampleMem exampleSeq 1%N [2%N] exampleSeq_queue)
    as (h' & s' & H1 & H2 & _).
  exists h', s'. split; assumption.
Defined.

Lemma input_stream_seq_pop_tail_spec_witness :
  queue_is exampleMem exampleSeq ([1%N] ++ [2%N])
  /\ exists h' s',
       input_stream_seq_pop_tail exampleMem exampleSeq = Some (h', s', 2%N)
       /\ queue_is h' s' [1%N].
Proof.
  split; [exact exampleSeq_queue|].
  destruct (input_stream_seq_pop_tail_spec exampleMem exampleSeq [1%N] 2%N exampleSeq_queue)
    as (h' & s' & H1 & H2 & _).
  exists h', s'. split; assumption.
Defined.

Lemma exampleMem_4 : exampleMem !! 4%N = None.
Proof. reflexivity. Qed.

Lemma input_append_tree_undo_witness :
  queue_is exampleMem exampleSeq [1%N; 2%N]
  /\ exampleMem !! 4%N = None
  /\ exists h1 s1,
       input_append_tree exampleMem exampleSeq 4%N 11%N = Some (h1, s1)
       /\ input_undo_append_tree h1 s1 = Some (exampleMem, exampleSeq, 11%N).
Proof.
  split; [exact exampleSeq_queue|]. split; [exact exampleMem_4|].
  destruct (input_append_tree_undo exampleMem exampleSeq [1%N; 2%N] 4%N 11%N
              exampleSeq_queue exampleMem_4 example_4_nonnull)
    as (h1 & s1 & H1 & _ & _ & _ & H2).
  exists h1, s1. split; assumption.
Defined.

Lemma exampleMem_streams : Forall (buf_at exampleMem is_stream) [1%N].
Proof.
  constructor; [|constructor]. eexists. split; reflexivity.
Qed.

Lemma exampleMem_2 : exampleMem !! 2%N = Some (mkSeqBuf SB_TOKEN 0 7%N 0%N 0%N 1%N).
Proof. reflexivity. Qed.

Lemma input_consume_tree_spec_witness :
  seq_is exampleMem exampleSeq ([1%N] ++ 2%N :: []) [5%N]
  /\ exists h' s',
       input_consume_tree 2 exampleMem exampleSeq = Some (h', s', 7%N)
       /\ seq_is h' s' [] (2%N :: rev [1%N] ++ [5%N]).
Proof.
  split; [exact exampleSeq_is|].
  destruct (input_consume_tree_spec 2 exampleMem exampleSeq [1%N] 2%N [] [5%N] _
              exampleSeq_is exampleMem_streams exampleMem_2 eq_refl (le_n 2))
    as (h' & s' & H1 & H2 & _).
  exists h', s'. split; assumption.
Defined.

Lemma exampleMem2_no_trees :
  Forall (buf_at exampleMem2 (fun b => negb (is_tree b))) [5%N].
Proof.
  constructor; [|constructor]. eexists. split; reflexivity.
Qed.

Lemma exampleMem2_2 : exampleMem2 !! 2%N = Some (mkSeqBuf SB_TOKEN 0 7%N 0%N 6%N 0%N).
Proof. reflexivity. Qed.

Lemma input_undo_consume_tree_spec_witness :
  seq_is exampleMem2 exampleSeq2 [1%N] ([5%N] ++ 2%N :: [6%N])
  /\ exists h' s',
       input_undo_consume_tree Z.of_N 2 exampleMem2 exampleSeq2 7%N = Some (h', s')
       /\ seq_is h' s' (2%N :: rev [5%N] ++ [1%N]) [6%N].
Proof.
  split; [exact exampleSeq2_is|].
  destruct (input_undo_consume_tree_spec Z.of_N [5%N] 2 exampleMem2 exampleSeq2
              2%N [1%N] [6%N] _ 7%N
              exampleSeq2_is exampleMem2_no_trees exampleMem2_2 eq_refl eq_refl (le_n 2))
    as (h' & s' & H1 & H2 & _).
  exists h', s'. split; assumption.
Defined.

Lemma input_consume_tree_then_undo_witness :
  seq_is exampleMem exampleSeq ([1%N] ++ 2%N :: []) [5%N]
  /\ exists h1 s1 h2 s2,
       input_consume_tree 2 exampleMem exampleSeq = Some (h1, s1, 7%N)
       /\ input_undo_consume_tree Z.of_N 1 h1 s1 7%N = Some (h2, s2)
       /\ seq_is h2 s2 [2%N] (rev [1%N] ++ [5%N]).
Proof.
  split; [exact exampleSeq_is|].
  destruct (input_consume_tree_then_undo Z.of_N 2 exampleMem exampleSeq [1%N] 2%N [] [5%N] _
              exampleSeq_is exampleMem_streams exampleMem_2 eq_refl (le_n 2))
    as (h1 & s1 & h2 & s2 & H1 & H2 & H3 & _).
  exists h1, s1, h2, s2. split; [exact H1|]. split; assumption.
Defined.

End QueueInstances.
